(** * Gematria: the MetaLLM chat relay and its chat-history service

    A shallow embedding of [MetaLLM.py] (the per-channel dispatcher, the
    relevance filter and the outbound chunking) and of
    [Chat History Service/main.py] (the SQLite-backed message store with its
    history and similarity queries), followed by the properties of the
    specification that hold of them and the inputs at which the others fail.

    Conventions of the embedding.
    - A Python [str] is a list of characters; a character is a code point
      below 256 (an [ascii]).  Lengths and indexes are Python integers, so
      they are in [Z] and [-1] is what [rfind] answers when it finds nothing.
    - A dictionary is a [gmap], a set is a [gset].
    - Every [await] is a point where the event loop may run another task;
      the code between two awaits runs without interruption.  A coroutine is
      a task with a program point, resumed by the scheduler with the outcome
      of what it was waiting for.
    - A remote call has one of the outcomes the code distinguishes: a 200
      with a body, another status, or an exception.
    - An exception is a value of the function that raises; what catches it
      is written where the code has its [except]. *)

From Stdlib Require Import ZArith Ascii String DecimalString List Lia QArith.
From stdpp Require Import gmap list sorting.

Local Open Scope Z_scope.

(** ** Python strings *)

Module PyStr.

Abbreviation str := (list ascii).

(** A literal. *)
Definition py (s : string) : str := list_ascii_of_string s.

Definition len (s : str) : Z := Z.of_nat (length s).

(** [str.isspace] on one character, for the code points below 256:
    U+0009..U+000D, U+001C..U+001F, U+0020, U+0085 and U+00A0. *)
Definition isspace (c : ascii) : bool :=
  let n := Z.of_N (N_of_ascii c) in
  ((9 <=? n) && (n <=? 13)) || ((28 <=? n) && (n <=? 32))
  || (n =? 133) || (n =? 160).

(** [s.lstrip()] *)
Fixpoint lstrip (s : str) : str :=
  match s with
  | [] => []
  | c :: s' => if isspace c then lstrip s' else s
  end.

(** [s.rstrip()] and [s.strip()] *)
Definition rstrip (s : str) : str := rev (lstrip (rev s)).
Definition strip (s : str) : str := rstrip (lstrip s).

(** A slice bound [i] of a sequence of length [n], clamped as Python does:
    a negative bound counts from the end. *)
Definition clamp (i n : Z) : Z :=
  if i <? 0 then Z.max 0 (n + i) else Z.min i n.

(** [s[:i]] and [s[i:]], of a string or of any other sequence *)
Definition slice_to {A} (s : list A) (i : Z) : list A :=
  take (Z.to_nat (clamp i (Z.of_nat (length s)))) s.
Definition slice_from {A} (s : list A) (i : Z) : list A :=
  drop (Z.to_nat (clamp i (Z.of_nat (length s)))) s.

(** The scan behind [rfind]: [i] is the index of the head of [s], [found]
    the index of the last occurrence seen so far. *)
Fixpoint rfind_scan (c : ascii) (s : str) (i found : Z) : Z :=
  match s with
  | [] => found
  | x :: s' => rfind_scan c s' (i + 1) (if Ascii.eqb x c then i else found)
  end.

(** [s.rfind(c, start, stop)] for a one-character needle: the highest index
    in [s[start:stop]] holding [c], or [-1]. *)
Definition rfind (c : ascii) (s : str) (start stop : Z) : Z :=
  let a := clamp start (len s) in
  let b := clamp stop (len s) in
  rfind_scan c (take (Z.to_nat (b - a)) (drop (Z.to_nat a) s)) a (-1).

(** [s.startswith(p)] *)
Fixpoint startswith (s p : str) : bool :=
  match p, s with
  | [], _ => true
  | _ :: _, [] => false
  | a :: p', b :: s' => Ascii.eqb a b && startswith s' p'
  end.

(** [s.find(p)]: the lowest index at which [p] occurs in [s], or [-1]. *)
Fixpoint find_from (s p : str) (i : Z) : Z :=
  if startswith s p then i
  else match s with
       | [] => -1
       | _ :: s' => find_from s' p (i + 1)
       end.
Definition find (s p : str) : Z := find_from s p 0.

(** [p in s] *)
Definition contains (s p : str) : bool := negb (find s p =? -1).

(** [str.lower] on one character, for the code points below 256: the
    letters A..Z, and U+00C0..U+00DE but for the sign U+00D7, move up by
    32. *)
Definition lower_char (c : ascii) : ascii :=
  let n := N_of_ascii c in
  if ((65 <=? n) && (n <=? 90)
      || (192 <=? n) && (n <=? 222) && negb (n =? 215))%N
  then ascii_of_N (n + 32) else c.
Definition lower (s : str) : str := map lower_char s.

(** [str.upper] on one character, for the code points below 256.  The
    result can lie above 255 and can be longer than its argument, so it is
    a list of code points: the letters a..z, and U+00E0..U+00FE but for the
    sign U+00F7, move down by 32; U+00B5 becomes U+039C, U+00DF becomes SS
    and U+00FF becomes U+0178. *)
Definition upper_char (c : ascii) : list N :=
  let n := N_of_ascii c in
  if ((97 <=? n) && (n <=? 122)
      || (224 <=? n) && (n <=? 254) && negb (n =? 247))%N
  then [(n - 32)%N]
  else if (n =? 181)%N then [924%N]
  else if (n =? 223)%N then [83%N; 83%N]
  else if (n =? 255)%N then [376%N]
  else [n].
Definition upper (s : str) : list N := flat_map upper_char s.

(** The code points of a text. *)
Definition code_points (s : str) : list N := map N_of_ascii s.

(** [str(n)] and the f-string rendering of an integer. *)
Definition str_of_int (n : Z) : str := py (NilZero.string_of_int (Z.to_int n)).

(** Equality of strings, as [==]. *)
Definition str_eqb (a b : str) : bool := bool_decide (a = b).

(** The order of SQLite's BINARY collation on TEXT: byte by byte, a proper
    prefix first. *)
Fixpoint str_leb (a b : str) : bool :=
  match a, b with
  | [], _ => true
  | _ :: _, [] => false
  | x :: a', y :: b' =>
      if (N_of_ascii x <? N_of_ascii y)%N then true
      else if (N_of_ascii y <? N_of_ascii x)%N then false
      else str_leb a' b'
  end.

End PyStr.

(** ** MetaLLM.py: outbound chunking *)

Module Chunking.
Import PyStr.

Definition MAX_MESSAGE_LENGTH : Z := 1900.

(** The index at which the loop of [split_message] cuts [content]. *)
Definition split_index (content : str) : Z :=
  let split_index := rfind " "%char content 0 MAX_MESSAGE_LENGTH in
  if split_index =? -1 then MAX_MESSAGE_LENGTH else split_index.

(** The [while] loop of [split_message]; [fuel] bounds its iterations and
    [None] is a loop that has not finished within it. *)
Fixpoint split_loop (fuel : nat) (content : str) (parts : list str)
  : option (list str) :=
  if len content >? MAX_MESSAGE_LENGTH then
    match fuel with
    | O => None
    | S fuel' =>
        let i := split_index content in
        split_loop fuel' (lstrip (slice_from content i))
                   (parts ++ [slice_to content i])
    end
  else Some (parts ++ [content]).

(** [split_message(content)]; one iteration per character is more than the
    loop ever takes. *)
Definition split_message (content : str) : option (list str) :=
  split_loop (length content) content [].

End Chunking.

(** ** Chat History Service/main.py: the message store *)

Module ChatHistoryService.
Import PyStr.

(** What an awaited call gives back to its caller. *)
Inductive result (A : Type) : Type :=
| Ok (a : A)
| Exception.
Arguments Ok {A} a.
Arguments Exception {A}.

(** What the HTTP round trip inside [get_embedding] can do: answer with a
    status and, for a well-formed body, the vector at
    [data['data'][0]['embedding']]; or raise (connection refused, a body
    that is not the expected JSON). *)
Inductive embedding_call (float : Type) : Type :=
| Answered (status : Z) (vector : list float)
| Failed.
Arguments Answered {float} status vector.
Arguments Failed {float}.

Section Service.

(** A numpy [float64]; the operations on it that belong to libraries
    outside the repository are taken as they come: the score that sklearn's
    [cosine_similarity] gives a pair of vectors, the order [<=] that
    numpy's [argsort] sorts by, and numpy's [isfinite], which is false of
    the infinities and of NaN ([json.loads] reads all three). *)
Variable float : Type.
Variable cosine : list float -> list float -> float.
Variable float_leb : float -> float -> bool.
Variable isfinite : float -> bool.

(** A row of the table [messages].  The column [embedding] holds
    [json.dumps(embedding)]: the text [null], or an array of numbers, read
    back with [json.loads]. *)
Record Row : Type := {
  id : Z;
  channel_id : str;
  user_id : str;
  timestamp : str;
  replying_to : option str;
  content : str;
  embedding : option (list float);
  role : str
}.

(** The table in rowid order, and the AUTOINCREMENT counter. *)
Record DB : Type := {
  messages : list Row;
  lastrowid : Z
}.

Definition empty_db : DB := {| messages := []; lastrowid := 0 |}.

(** The request body of [POST /add_message]. *)
Record Message : Type := {
  m_channel_id : str;
  m_user_id : str;
  m_content : str;
  m_replying_to : option str;
  m_role : str
}.

(** One element of the JSON lists the two queries return. *)
Record Entry : Type := {
  e_id : Z;
  e_user : str;
  e_timestamp : str;
  e_replying_to : option str;
  e_content : str;
  e_role : str
}.

Definition entry_of (msg : Row) : Entry :=
  {| e_id := id msg; e_user := user_id msg; e_timestamp := timestamp msg;
     e_replying_to := replying_to msg; e_content := content msg;
     e_role := role msg |}.

(** [get_embedding(text)]: the vector on a 200, [None] on another status;
    nothing catches an exception of the call. *)
Definition get_embedding (call : embedding_call float)
  : result (option (list float)) :=
  match call with
  | Answered status vector =>
      if status =? 200 then Ok (Some vector) else Ok None
  | Failed => Exception
  end.

(** The reply of [add_message]. *)
Record Added : Type := { status : str; message_id : Z }.

(** [add_message(message)]: [now] is what [datetime.utcnow().isoformat()]
    reads on entry, [call] what the embedding request does. *)
Definition add_message (now : str) (call : embedding_call float)
    (message : Message) (db : DB) : result Added * DB :=
  let timestamp := now in
  match get_embedding call with
  | Exception => (Exception, db)
  | Ok embedding =>
      let rowid := lastrowid db + 1 in
      let row := {| id := rowid; channel_id := m_channel_id message;
                    user_id := m_user_id message; timestamp := timestamp;
                    replying_to := m_replying_to message;
                    content := m_content message; embedding := embedding;
                    role := m_role message |} in
      (Ok {| status := py "success"; message_id := rowid |},
       {| messages := messages db ++ [row]; lastrowid := rowid |})
  end.

(** [WHERE channel_id = ?] *)
Definition where_channel (channel : str) (rows : list Row) : list Row :=
  filter (fun msg => channel_id msg = channel) rows.

(** [ORDER BY timestamp DESC]: rows with equal timestamps stay in rowid
    order, which SQLite does not promise; nothing below depends on it. *)
Fixpoint insert_desc (r : Row) (l : list Row) : list Row :=
  match l with
  | [] => [r]
  | x :: l' =>
      if str_leb (timestamp x) (timestamp r) then r :: l
      else x :: insert_desc r l'
  end.
Definition order_by_timestamp_desc (rows : list Row) : list Row :=
  foldr insert_desc [] rows.

(** [LIMIT ?]: a negative limit is no limit in SQLite. *)
Definition sql_limit (limit : Z) (rows : list Row) : list Row :=
  if limit <? 0 then rows else take (Z.to_nat limit) rows.

(** A Python integer bound to a parameter of a statement: an SQLite integer
    has 64 bits, and [execute] raises [OverflowError] for any other. *)
Definition bind_int (n : Z) : result Z :=
  if (- 2 ^ 63 <=? n) && (n <? 2 ^ 63) then Ok n else Exception.

(** [get_conversation_history(channel_id, limit)] *)
Definition get_conversation_history (channel : str) (limit : Z) (db : DB)
  : result (list Entry) :=
  match bind_int limit with
  | Exception => Exception
  | Ok limit =>
      let messages :=
        sql_limit limit
          (order_by_timestamp_desc (where_channel channel (messages db))) in
      Ok (map entry_of (rev messages))
  end.

(** sklearn's validation of the two arguments of [cosine_similarity]: each
    must be a rectangular array of finite numbers with at least one row
    and one column, and both must have the same number of columns.  A row
    that is [None] (the JSON [null]) makes the array ragged or
    non-numeric. *)
Definition check_pairwise_arrays (X Y : list (option (list float)))
  : result (list (list float) * list (list float)) :=
  match mapM (fun v => v) X, mapM (fun v => v) Y with
  | Some (x :: xs), Some (y :: ys) =>
      let n := length x in
      if bool_decide (n ≠ 0%nat)
         && forallb (fun v => Nat.eqb (length v) n) xs
         && forallb (fun v => Nat.eqb (length v) n) (y :: ys)
         && forallb (forallb isfinite) (x :: xs)
         && forallb (forallb isfinite) (y :: ys)
      then Ok (x :: xs, y :: ys) else Exception
  | _, _ => Exception
  end.

(** [cosine_similarity(X, Y)]: one row of scores per row of [X]. *)
Definition cosine_similarity (X Y : list (option (list float)))
  : result (list (list float)) :=
  match check_pairwise_arrays X Y with
  | Ok (xs, ys) => Ok (map (fun x => map (cosine x) ys) xs)
  | Exception => Exception
  end.

(** [np.argsort(a)]: the indexes of [a] in ascending order of value (equal
    values in index order, which numpy's default sort does not promise). *)
Fixpoint insert_asc (p : nat * float) (l : list (nat * float))
  : list (nat * float) :=
  match l with
  | [] => [p]
  | q :: l' =>
      if float_leb (snd p) (snd q) then p :: l else q :: insert_asc p l'
  end.
Definition argsort (a : list float) : list nat :=
  map fst (foldr insert_asc [] (imap (fun i v => (i, v)) a)).

(** [get_relevant_context(channel_id, query, limit)]: [call] is what the
    embedding request for [query] does. *)
Definition get_relevant_context (channel : str) (call : embedding_call float)
    (limit : Z) (db : DB) : result (list Entry) :=
  match get_embedding call with
  | Exception => Exception
  | Ok query_embedding =>
      let messages := where_channel channel (messages db) in
      match messages with
      | [] => Ok []
      | _ :: _ =>
          let embeddings := map embedding messages in
          match cosine_similarity [query_embedding] embeddings with
          | Ok (similarities :: _) =>
              let top_indices := rev (slice_from (argsort similarities) (- limit)) in
              match mapM (fun i => messages !! i) top_indices with
              | Some relevant_messages => Ok (map entry_of relevant_messages)
              | None => Exception
              end
          | _ => Exception
          end
      end
  end.

End Service.

Arguments id {float} _.
Arguments channel_id {float} _.
Arguments user_id {float} _.
Arguments timestamp {float} _.
Arguments replying_to {float} _.
Arguments content {float} _.
Arguments embedding {float} _.
Arguments role {float} _.
Arguments messages {float} _.
Arguments lastrowid {float} _.

End ChatHistoryService.

(** ** MetaLLM.py: the dispatcher *)

Module MetaLLM.
Import PyStr Chunking.

Definition BOT_NAME : str := py "META".
Definition OTHER_BOTS : list str := [py "HERMES"; py "NEMO"; py "NEMOTRON"].

(** A [discord.User]; the library compares users by [id]. *)
Record User : Type := { user_id : Z; name : str; bot : bool }.

Definition user_eqb (a b : User) : bool := user_id a =? user_id b.

(** [message.reference.resolved]: the message replied to, of which the
    code reads the author, or the [DeletedReferencedMessage] the library
    puts in its place when that message is gone; it is truthy and has no
    [author]. *)
Inductive Resolved : Type :=
| ResolvedMessage (author : User)
| DeletedReferencedMessage.

(** [message.reference]: [resolved] is [None] when the library did not
    resolve the message replied to. *)
Record Reference : Type := { resolved : option Resolved }.

(** A [discord.Message], with the attributes the code reads;
    [channel] is [message.channel.id]. *)
Record Message : Type := {
  id : Z;
  channel : Z;
  author : User;
  content : str;
  mention_everyone : bool;
  mentions : list User;
  reference : option Reference
}.

(** The body posted to the history service by [record_chat_history]. *)
Record ChatRecord : Type := {
  r_user_id : str;
  r_content : str;
  r_replying_to : option str;
  r_role : str
}.

(** What the HTTP round trip inside [get_llm_response] can do: answer with
    a status and, for a well-formed body, the text at
    [data['choices'][0]['message']['content']]; or raise. *)
Inductive completion_call : Type :=
| Answered (status : Z) (text : str)
| Failed.

(** What the program does that can be seen from outside, and the two
    operations on a queue.  [Enqueued] and [Popped] mark the [append] of
    [on_message] and the [pop] of the worker. *)
Inductive Event : Type :=
| RecordChatHistory (channel_id : Z) (message : ChatRecord)
| Enqueued (channel_id : Z) (message : Message)
| Popped (channel_id : Z) (messages : list Message)
| GetStructuredInput (channel_id : Z) (msg : Message)
| Typing (channel_id : Z)
| LLMRequest (channel_id : Z) (msg : Message)
| LLMResponse (channel_id : Z) (msg : Message) (response_content : option str)
| Send (channel : Z) (part : str)
| Reply (msg : Message) (text : str)
| LoggedError (channel_id : Z).

(** Where a coroutine is suspended.  The first two points are in
    [on_message], the others in [process_message_queue(channel_id)]; [rest]
    is what the loop over [relevant_messages] still has to visit after
    [msg]. *)
Inductive Point : Type :=
| AtRecordUser (message : Message) (draw : Q)
| AtCommands (message : Message)
| Scheduled (channel_id : Z)
| AtContext (channel_id : Z) (msg : Message) (rest : list Message)
| AtTyping (channel_id : Z) (msg : Message) (rest : list Message)
| AtCompletion (channel_id : Z) (msg : Message) (rest : list Message)
| AtRecord (channel_id : Z) (msg : Message) (rest : list Message)
           (response_content : str)
| AtSend (channel_id : Z) (msg : Message) (rest : list Message)
         (parts : list str)
| AtApology (channel_id : Z) (msg : Message) (rest : list Message)
| AtSleep (channel_id : Z)
| Done.

(** The globals of the module, the tasks of the event loop in the order of
    their creation, and what has happened so far (oldest first).
    [last_response_time] is written and never read; it is left out. *)
Record State : Type := {
  message_queue : gmap Z (list Message);
  processing_channels : gset Z;
  tasks : list Point;
  log : list Event
}.

Definition initial : State :=
  {| message_queue := ∅; processing_channels := ∅; tasks := []; log := [] |}.

Definition set_queue (q : gmap Z (list Message)) (st : State) : State :=
  {| message_queue := q; processing_channels := processing_channels st;
     tasks := tasks st; log := log st |}.
Definition set_processing (s : gset Z) (st : State) : State :=
  {| message_queue := message_queue st; processing_channels := s;
     tasks := tasks st; log := log st |}.
Definition set_tasks (t : list Point) (st : State) : State :=
  {| message_queue := message_queue st;
     processing_channels := processing_channels st;
     tasks := t; log := log st |}.
Definition emit (e : Event) (st : State) : State :=
  {| message_queue := message_queue st;
     processing_channels := processing_channels st;
     tasks := tasks st; log := log st ++ [e] |}.

(** What the awaited call hands back when the task is resumed. *)
Inductive Outcome : Type :=
| Returned
| Raised
| Completion (call : completion_call).

(** What the event loop does next: the library calls [on_message(message)]
    ([draw] is what [random.random()] answers if that call asks), or a
    suspended task is resumed. *)
Inductive Action : Type :=
| Deliver (message : Message) (draw : Q)
| Resume (task : nat) (outcome : Outcome).

Section Bot.

(** [bot.user] *)
Variable bot_user : User.

(** [bot.user.mentioned_in(msg)], as discord.py defines it. *)
Definition mentioned_in (msg : Message) : bool :=
  mention_everyone msg
  || existsb (fun user => user_id user =? user_id bot_user) (mentions msg).

(** [bot.user.name.lower() in msg.content.lower()] *)
Definition names_bot (msg : Message) : bool :=
  contains (lower (content msg)) (lower (name bot_user)).

(** [msg.reference and msg.reference.resolved] holds a
    [DeletedReferencedMessage]: reading its [author] raises. *)
Definition deleted_reference (msg : Message) : bool :=
  match reference msg with
  | Some r => match resolved r with
              | Some DeletedReferencedMessage => true
              | _ => false
              end
  | None => false
  end.

(** [msg.reference and msg.reference.resolved and
     msg.reference.resolved.author == bot.user], where reading the author
    does not raise. *)
Definition replies_to_bot (msg : Message) : bool :=
  match reference msg with
  | Some r => match resolved r with
              | Some (ResolvedMessage a) => user_eqb a bot_user
              | _ => false
              end
  | None => false
  end.

(** [any(msg.author.name.upper() == other_bot for other_bot in OTHER_BOTS)] *)
Definition from_other_bot (msg : Message) : bool :=
  existsb (fun other_bot =>
             bool_decide (upper (name (author msg)) = code_points other_bot))
          OTHER_BOTS.

(** The condition of the comprehension that builds [relevant_messages];
    its last clause is reached when the three before it are false, and
    raises at a deleted reference. *)
Definition relevant (msg : Message) : bool :=
  mentioned_in msg || names_bot msg || from_other_bot msg || replies_to_bot msg.
Definition relevant_raises (msg : Message) : bool :=
  negb (mentioned_in msg || names_bot msg || from_other_bot msg)
  && deleted_reference msg.

(** [random.random() < 0.1] *)
Definition sampled (draw : Q) : bool := negb (Qle_bool (1 # 10) draw).

(** [should_process] of [on_message]; its fourth clause is reached when
    the three before it are false, and raises at a deleted reference. *)
Definition should_process (message : Message) (draw : Q) : bool :=
  mentioned_in message || names_bot message || bot (author message)
  || replies_to_bot message || sampled draw.
Definition should_process_raises (message : Message) : bool :=
  negb (mentioned_in message || names_bot message || bot (author message))
  && deleted_reference message.

(** The mention token [f"<@{id}>"]. *)
Definition mention (id : Z) : str := py "<@" ++ str_of_int id ++ py ">".

(** [user_message] of [record_user_message]; building it reads the author
    of the message replied to, which raises at a deleted reference: see
    [deliver], where nothing is built then. *)
Definition user_message (message : Message) : ChatRecord :=
  {| r_user_id := mention (user_id (author message));
     r_content := content message;
     r_replying_to :=
       match reference message with
       | Some r => match resolved r with
                   | Some (ResolvedMessage a) => Some (mention (user_id a))
                   | _ => None
                   end
       | None => None
       end;
     r_role := if bot (author message) then py "user" else py "human" |}.

(** [bot_message] of [process_message_queue] *)
Definition bot_message (msg : Message) (response_content : str) : ChatRecord :=
  {| r_user_id := mention (user_id bot_user);
     r_content := response_content;
     r_replying_to := Some (mention (user_id (author msg)));
     r_role := py "assistant" |}.

Definition apology : str :=
  BOT_NAME ++ py ": I apologize, but I'm having trouble formulating a complete response at the moment. Please try again later.".

(** [get_llm_response(prompt)], as a function of what its request does. *)
Definition get_llm_response (call : completion_call) : option str :=
  match call with
  | Answered status text =>
      if status =? 200 then
        let full_response := strip text in
        let content_start := find full_response (py "Message:") + 8 in
        if content_start >? 8
        then Some (strip (slice_from full_response content_start))
        else Some full_response
      else None
  | Failed => None
  end.

(** [if response_content:] *)
Definition truthy (response_content : option str) : option str :=
  match response_content with
  | Some (c :: s) => Some (c :: s)
  | _ => None
  end.

(** [on_message] up to its first await: the bot's own messages are
    dropped, any other is sent to the history service.  At a deleted
    reference [record_user_message] raises before it posts anything, and
    the exception ends [on_message]. *)
Definition deliver (message : Message) (draw : Q) (st : State) : State :=
  if user_eqb (author message) bot_user then st
  else if deleted_reference message then st
  else
    set_tasks (tasks st ++ [AtRecordUser message draw])
      (emit (RecordChatHistory (channel message) (user_message message)) st).

(** [on_message] from the return of [record_user_message] to the await of
    [process_commands]. *)
Definition enqueue (message : Message) (draw : Q) (st : State) : State :=
  if should_process message draw then
    let channel_id := channel message in
    let st :=
      match message_queue st !! channel_id with
      | Some _ => st
      | None =>
          set_tasks (tasks st ++ [Scheduled channel_id])
            (set_queue (<[channel_id := []]> (message_queue st)) st)
      end in
    emit (Enqueued channel_id message)
      (set_queue
         (<[channel_id := default [] (message_queue st !! channel_id) ++ [message]]>
            (message_queue st)) st)
  else st.

(** The start of the loop over [relevant_messages], and its end. *)
Definition next_message (channel_id : Z) (relevant_messages : list Message)
    (st : State) : State * Point :=
  match relevant_messages with
  | msg :: rest =>
      (emit (GetStructuredInput channel_id msg) st, AtContext channel_id msg rest)
  | [] => (st, AtSleep channel_id)
  end.

(** The [finally] clause, reached from the end of the [while] loop or
    through the [except] clause. *)
Definition leave (channel_id : Z) (st : State) : State * Point :=
  (set_processing (processing_channels st ∖ {[channel_id]}) st, Done).
Definition fail (channel_id : Z) (st : State) : State * Point :=
  leave channel_id (emit (LoggedError channel_id) st).

(** The [while channel_id in message_queue] loop from its test to the next
    await.  The comprehension raises when its condition does at one of the
    messages, which the [except] clause catches.  Only [continue] comes
    back to the test without an await, and [fuel] bounds how often. *)
Fixpoint drain (fuel : nat) (channel_id : Z) (st : State)
  : option (State * Point) :=
  match message_queue st !! channel_id with
  | None => Some (leave channel_id st)
  | Some messages =>
      let st := emit (Popped channel_id messages)
                  (set_queue (delete channel_id (message_queue st)) st) in
      if existsb relevant_raises messages then Some (fail channel_id st)
      else
        match List.filter relevant messages with
        | [] => match fuel with
                | O => None
                | S fuel' => drain fuel' channel_id st
                end
        | msg :: rest => Some (next_message channel_id (msg :: rest) st)
        end
  end.

(** [process_message_queue(channel_id)] from its start to its first await. *)
Definition start (channel_id : Z) (st : State) : option (State * Point) :=
  if bool_decide (channel_id ∈ dom (message_queue st))
     && bool_decide (channel_id ∉ processing_channels st)
  then drain 1 channel_id
         (set_processing (processing_channels st ∪ {[channel_id]}) st)
  else Some (st, Done).

(** A task resumed at point [p] with [outcome], up to its next await.
    [None]: the outcome is not one the awaited call has. *)
Definition resume (p : Point) (outcome : Outcome) (st : State)
  : option (State * Point) :=
  match p, outcome with
  | AtRecordUser message draw, Returned =>
      if should_process_raises message then Some (st, Done)
      else Some (enqueue message draw st, AtCommands message)
  | AtCommands _, Returned => Some (st, Done)
  | Scheduled channel_id, Returned => start channel_id st
  | AtContext channel_id msg rest, Returned =>
      Some (emit (Typing (channel msg)) st, AtTyping channel_id msg rest)
  | AtContext channel_id _ _, Raised => Some (fail channel_id st)
  | AtTyping channel_id msg rest, Returned =>
      Some (emit (LLMRequest channel_id msg) st, AtCompletion channel_id msg rest)
  | AtTyping channel_id _ _, Raised => Some (fail channel_id st)
  | AtCompletion channel_id msg rest, Completion call =>
      let response_content := get_llm_response call in
      let st := emit (LLMResponse channel_id msg response_content) st in
      match truthy response_content with
      | Some text =>
          Some (emit (RecordChatHistory channel_id (bot_message msg text)) st,
                AtRecord channel_id msg rest text)
      | None =>
          Some (emit (Reply msg apology) st, AtApology channel_id msg rest)
      end
  | AtRecord channel_id msg rest response_content, Returned =>
      match split_message response_content with
      | Some (part :: parts) =>
          Some (emit (Send (channel msg) part) st, AtSend channel_id msg rest parts)
      | Some [] => Some (next_message channel_id rest st)
      | None => None
      end
  | AtSend channel_id msg rest (part :: parts), Returned =>
      Some (emit (Send (channel msg) part) st, AtSend channel_id msg rest parts)
  | AtSend channel_id msg rest [], Returned =>
      Some (next_message channel_id rest st)
  | AtSend channel_id _ _ _, Raised => Some (fail channel_id st)
  | AtApology channel_id msg rest, Returned =>
      Some (next_message channel_id rest st)
  | AtApology channel_id _ _, Raised => Some (fail channel_id st)
  | AtSleep channel_id, Returned => drain 1 channel_id st
  | _, _ => None
  end.

(** One step of the event loop. *)
Definition step (st : State) (a : Action) : option State :=
  match a with
  | Deliver message draw => Some (deliver message draw st)
  | Resume me outcome =>
      match tasks st !! me with
      | Some p =>
          match resume p outcome st with
          | Some (st', p') => Some (set_tasks (<[me := p']> (tasks st')) st')
          | None => None
          end
      | None => None
      end
  end.

(** A schedule, run from [st]. *)
Fixpoint run (st : State) (schedule : list Action) : option State :=
  match schedule with
  | [] => Some st
  | a :: schedule' =>
      match step st a with
      | Some st' => run st' schedule'
      | None => None
      end
  end.

(** The point is inside the [try] of [process_message_queue(channel_id)]. *)
Definition draining (channel_id : Z) (p : Point) : bool :=
  match p with
  | AtContext c _ _ | AtTyping c _ _ | AtCompletion c _ _ | AtRecord c _ _ _
  | AtSend c _ _ _ | AtApology c _ _ | AtSleep c => c =? channel_id
  | _ => false
  end.

(** The point is inside [get_llm_response], called for [channel_id]. *)
Definition in_flight (channel_id : Z) (p : Point) : bool :=
  match p with
  | AtCompletion c _ _ => c =? channel_id
  | _ => false
  end.

Definition workers_draining (channel_id : Z) (st : State) : nat :=
  length (List.filter (draining channel_id) (tasks st)).
Definition completions_in_flight (channel_id : Z) (st : State) : nat :=
  length (List.filter (in_flight channel_id) (tasks st)).

End Bot.

End MetaLLM.

(** ** The chunking rule as the specification words it, and sample texts *)

Module ChunkingSpec.
Import PyStr Chunking.

(** "The last whitespace boundary at-or-before the budget": index [k] is
    within the budget, holds a whitespace character, and no later index
    within the budget does. *)
Definition last_whitespace_at (content : str) (k : nat) : Prop :=
  Z.of_nat k <= MAX_MESSAGE_LENGTH
  /\ (exists c, content !! k = Some c /\ isspace c = true)
  /\ forall (j : nat) (c : ascii),
       (k < j)%nat -> Z.of_nat j <= MAX_MESSAGE_LENGTH ->
       content !! j = Some c -> isspace c = false.

(** "Replies longer than the budget are split at the last whitespace
    boundary at-or-before the budget; the remainder becomes the next
    chunk." *)
Definition cuts_at_last_whitespace (content : str) : Prop :=
  forall k : nat, len content > MAX_MESSAGE_LENGTH ->
    last_whitespace_at content k ->
    exists rest, split_message content = Some (take k content :: rest).

(** A text whose only whitespace is one space, at index [p]. *)
Definition single_space_at (text : str) (p : nat) : Prop :=
  text !! p = Some " "%char
  /\ forall (j : nat) (c : ascii), j <> p -> text !! j = Some c -> isspace c = false.

(** "A reply of length 3800 with a single interior space produces exactly
    two chunks whose concatenation, the space put back, is the text." *)
Definition two_chunks_around_space (text : str) : Prop :=
  forall p : nat, len text = 3800 -> (0 < p < 3799)%nat ->
    single_space_at text p ->
    exists a b, split_message text = Some [a; b] /\ a ++ " "%char :: b = text.

(** 2001 characters, the only whitespace a line feed at index 10. *)
Definition text_with_newline : str :=
  replicate 10 "a"%char ++ "010"%char :: replicate 1990 "b"%char.

(** 3800 characters, the only whitespace a space at index 1000. *)
Definition text_with_early_space : str :=
  replicate 1000 "a"%char ++ " "%char :: replicate 2799 "b"%char.

End ChunkingSpec.

(** ** The store as the specification words it, and sample stores *)

Module StoreSpec.
Import PyStr ChatHistoryService.

Section Words.
Variable float : Type.

(** Of two rows, the first is at least as new as the second; and at least
    as old. *)
Definition newer (a b : Row float) : Prop :=
  str_leb (timestamp b) (timestamp a) = true.
Definition older (a b : Row float) : Prop :=
  str_leb (timestamp a) (timestamp b) = true.

(** Of two texts, the first sorts strictly before the second. *)
Definition str_ltb (a b : str) : bool := negb (str_leb b a).

(** "[id] ordering == insertion ordering == timestamp ordering": down the
    table, ids and timestamps both strictly increase. *)
Definition chronological (db : DB float) : Prop :=
  StronglySorted
    (fun a b => id a < id b /\ str_ltb (timestamp a) (timestamp b) = true)
    (messages db).

(** A request to store "hello" in channel c1. *)
Definition greeting : Message :=
  {| m_channel_id := py "c1"; m_user_id := py "<@1>"; m_content := py "hello";
     m_replying_to := None; m_role := py "human" |}.

(** The store after one [add_message] whose embedding request was answered
    with a 503. *)
Definition db_without_vector : DB float :=
  snd (add_message float (py "2024-01-01T00:00:01") (Answered 503 []) greeting
         (empty_db float)).

(** The store after two [add_message] whose embedding requests were
    answered with the vector [v]; the request stored first had read the
    clock later than the other. *)
Definition db_overtaken (v : list float) : DB float :=
  snd (add_message float (py "2024-01-01T00:00:01") (Answered 200 v) greeting
         (snd (add_message float (py "2024-01-01T00:00:02") (Answered 200 v) greeting
                 (empty_db float)))).

(** The store after two [add_message] answered in the order in which they
    read the clock. *)
Definition db_in_order (v : list float) : DB float :=
  snd (add_message float (py "2024-01-01T00:00:02") (Answered 200 v) greeting
         (snd (add_message float (py "2024-01-01T00:00:01") (Answered 200 v) greeting
                 (empty_db float)))).

End Words.

End StoreSpec.

(** ** The dispatcher: what is counted in a run, and sample runs *)

Module DispatcherSpec.
Import PyStr Chunking MetaLLM.

(** The channel whose [try] block the point is in. *)
Definition channel_of (p : Point) : option Z :=
  match p with
  | AtContext c _ _ | AtTyping c _ _ | AtCompletion c _ _ | AtRecord c _ _ _
  | AtSend c _ _ _ | AtApology c _ _ | AtSleep c => Some c
  | _ => None
  end.

(** The messages appended to the queue of [channel_id], in order. *)
Definition enqueued (channel_id : Z) (log : list Event) : list Message :=
  omap (fun e => match e with
                 | Enqueued c m => if c =? channel_id then Some m else None
                 | _ => None
                 end) log.

(** The batches popped from the queue of [channel_id], in order. *)
Definition batches (channel_id : Z) (log : list Event) : list (list Message) :=
  omap (fun e => match e with
                 | Popped c ms => if c =? channel_id then Some ms else None
                 | _ => None
                 end) log.

(** The messages handed to context assembly, in order. *)
Definition forwarded (log : list Event) : list Message :=
  omap (fun e => match e with
                 | GetStructuredInput _ m => Some m
                 | _ => None
                 end) log.

(** The messages an apology was sent for, and the messages whose
    completion came back without text, in order. *)
Definition apologies (log : list Event) : list Message :=
  omap (fun e => match e with
                 | Reply m _ => Some m
                 | _ => None
                 end) log.
Definition completions_without_text (log : list Event) : list Message :=
  omap (fun e => match e with
                 | LLMResponse _ m r =>
                     match truthy r with
                     | None => Some m
                     | Some _ => None
                     end
                 | _ => None
                 end) log.

(** The texts posted to the history service with role assistant, and the
    texts the completions came back with, each with its channel, in
    order. *)
Definition replies_recorded (log : list Event) : list (Z * str) :=
  omap (fun e => match e with
                 | RecordChatHistory c r =>
                     if str_eqb (r_role r) (py "assistant")
                     then Some (c, r_content r) else None
                 | _ => None
                 end) log.
Definition completions_with_text (log : list Event) : list (Z * str) :=
  omap (fun e => match e with
                 | LLMResponse c _ r =>
                     match truthy r with
                     | Some text => Some (c, text)
                     | None => None
                     end
                 | _ => None
                 end) log.

(** Every completion without text has its apology and nothing else has
    one; every completion with text has its record and no other record
    has the role assistant. *)
Definition answered (st : State) : Prop :=
  apologies (log st) = completions_without_text (log st)
  /\ replies_recorded (log st) = completions_with_text (log st).

(** At most one task is inside the [try] block of a channel, and the
    channels that have one are those in [processing_channels]. *)
Definition exclusive (P : gset Z) (l : list Point) : Prop :=
  forall c : Z,
    (c ∈ P <-> exists (i : nat) (q : Point), l !! i = Some q /\ channel_of q = Some c)
    /\ (forall (i j : nat) (p q : Point),
          l !! i = Some p -> l !! j = Some q ->
          channel_of p = Some c -> channel_of q = Some c -> i = j).

(** How resuming a task moves it with respect to the [try] blocks: it
    stays where it is, enters the block of a channel that nobody holds, or
    leaves the one it is in. *)
Definition effect (p p' : Point) (P P' : gset Z) : Prop :=
  (channel_of p = channel_of p' /\ P' = P)
  \/ (exists c, channel_of p = None /\ channel_of p' = Some c
                /\ (c ∉ P) /\ P' = P ∪ {[c]})
  \/ (exists c, channel_of p = Some c /\ channel_of p' = None
                /\ P' = P ∖ {[c]}).

(** What is pending for [channel_id]. *)
Definition pending (channel_id : Z) (st : State) : list Message :=
  default [] (message_queue st !! channel_id).

(** Nothing enqueued is lost or doubled: what was appended to the queue of
    a channel is, in order, what was popped from it followed by what is
    pending. *)
Definition conserved (st : State) : Prop :=
  forall c : Z,
    enqueued c (log st) = concat (batches c (log st)) ++ pending c st.


(** No worker of [channel_id] has ended through its [except] clause: no
    exception has reached a worker of the channel. *)
Definition unfailed (channel_id : Z) (st : State) : Prop :=
  LoggedError channel_id ∉ log st.

(** What is pending is not empty and has a taker, unless a worker of the
    channel has ended through its [except] clause. *)
Definition watched (st : State) : Prop :=
  forall (c : Z) (b : list Message),
    message_queue st !! c = Some b ->
    b <> []
    /\ (c ∈ processing_channels st
        \/ (exists i : nat, tasks st !! i = Some (Scheduled c))
        \/ LoggedError c ∈ log st).

(** The task is in [on_message], awaiting [record_user_message]. *)
Definition record_user (p : Point) : bool :=
  match p with
  | AtRecordUser _ _ => true
  | _ => false
  end.

(** No message in a queue or in the hands of [on_message] replies to a
    deleted message. *)
Definition intact (st : State) : Prop :=
  (forall i m draw,
     tasks st !! i = Some (AtRecordUser m draw) -> deleted_reference m = false)
  /\ forall c b,
       message_queue st !! c = Some b ->
       Forall (fun m => deleted_reference m = false) b.

(** No task is suspended any more. *)
Definition quiescent (st : State) : Prop := Forall (fun p => p = Done) (tasks st).

(** No awaited call of the schedule raises. *)
Definition raises (a : Action) : bool :=
  match a with
  | Resume _ Raised => true
  | _ => false
  end.
Definition exception_free (schedule : list Action) : Prop :=
  Forall (fun a => raises a = false) schedule.

(** No message arrives in the schedule. *)
Definition arrival (a : Action) : bool :=
  match a with
  | Deliver _ _ => true
  | Resume _ _ => false
  end.
Definition no_arrival (schedule : list Action) : Prop :=
  Forall (fun a => arrival a = false) schedule.

(** The outcome with which a task is resumed when nothing goes wrong and
    no completion answers. *)
Definition calm (p : Point) : Outcome :=
  match p with
  | AtCompletion _ _ _ => Completion Failed
  | _ => Returned
  end.

(** A bound on the resumptions that are left when every task is resumed
    calmly: four per message the loop over [relevant_messages] still has to
    visit, plus the sleep; for a pending message the same, plus the take. *)
Definition loop_weight (rest : list Message) : nat := (4 * length rest + 1)%nat.
Definition weight (p : Point) : nat :=
  match p with
  | AtRecordUser _ _ => 8
  | AtCommands _ => 1
  | Scheduled _ => 1
  | AtContext _ _ rest => 4 + loop_weight rest
  | AtTyping _ _ rest => 3 + loop_weight rest
  | AtCompletion _ _ rest => 2 + loop_weight rest
  | AtRecord _ _ rest text =>
      2 + length (default [] (split_message text)) + loop_weight rest
  | AtSend _ _ rest parts => 1 + length parts + loop_weight rest
  | AtApology _ _ rest => 1 + loop_weight rest
  | AtSleep _ => 1
  | Done => 0
  end%nat.
Definition queue_weight (q : gmap Z (list Message)) : nat :=
  map_fold (fun _ messages n => 4 * length messages + 1 + n)%nat 0%nat q.
Definition work_left (st : State) : nat :=
  (sum_list_with weight (tasks st) + queue_weight (message_queue st))%nat.

(** The bot, a human, three messages of hers in channel 7 that name the
    bot, and one that does not concern it. *)
Definition meta : User := {| user_id := 100; name := py "Meta"; bot := true |}.
Definition alice : User := {| user_id := 1; name := py "alice"; bot := false |}.
Definition say (n : Z) (text : string) : Message :=
  {| id := n; channel := 7; author := alice; content := py text;
     mention_everyone := false; mentions := []; reference := None |}.
Definition m1 : Message := say 11 "hey meta".
Definition m2 : Message := say 12 "meta, again".
Definition m3 : Message := say 13 "and meta?".
Definition hello : Message := say 14 "hello".

(** [m1] arrives and its worker has a completion in flight when [m2]
    arrives; the task scheduled for [m2] finds the channel taken. *)
Definition overlapping : list Action :=
  [Deliver m1 (1 # 2); Resume 0 Returned; Resume 1 Returned; Resume 1 Returned;
   Resume 1 Returned; Deliver m2 (1 # 2); Resume 2 Returned; Resume 3 Returned].

(** ... the completion answers, the reply is recorded and sent, the worker
    sleeps, takes [m2], and so on until nothing is left to do. *)
Definition to_the_end : list Action :=
  overlapping ++
  [Resume 1 (Completion (Answered 200 (py "hi"))); Resume 1 Returned;
   Resume 1 Returned; Resume 1 Returned;
   Resume 1 Returned; Resume 1 Returned; Resume 1 (Completion Failed);
   Resume 1 Returned; Resume 1 Returned;
   Resume 0 Returned; Resume 2 Returned].

(** ... or the send of the reply raises; later [m3] arrives. *)
Definition wedged : list Action :=
  overlapping ++
  [Resume 1 (Completion (Answered 200 (py "hi"))); Resume 1 Returned;
   Resume 1 Raised; Resume 0 Returned; Resume 2 Returned;
   Deliver m3 (1 # 2); Resume 4 Returned; Resume 4 Returned].

(** [hello] concerns the bot in no way but is picked by the draw 0.05. *)
Definition picked_at_random : list Action :=
  [Deliver hello (1 # 20); Resume 0 Returned; Resume 1 Returned; Resume 0 Returned].

(** A message of hers that names the bot and replies to a message that is
    gone; it arrives before [hello]. *)
Definition orphan : Message :=
  {| id := 15; channel := 7; author := alice; content := py "meta, see above";
     mention_everyone := false; mentions := [];
     reference := Some {| resolved := Some DeletedReferencedMessage |} |}.
Definition reply_to_deleted : list Action :=
  Deliver orphan (1 # 2) :: picked_at_random.

(** [m1] and [m2] are in one batch; the completion for [m1] answers, the
    reply is recorded, and its send raises. *)
Definition send_raises : list Action :=
  [Deliver m1 (1 # 2); Resume 0 Returned; Deliver m2 (1 # 2); Resume 2 Returned;
   Resume 1 Returned; Resume 1 Returned; Resume 1 Returned;
   Resume 1 (Completion (Answered 200 (py "hi"))); Resume 1 Returned;
   Resume 1 Raised; Resume 0 Returned; Resume 2 Returned].

(** [m1] and [m2] are in one batch; the completion for [m1] fails and the
    apology cannot be delivered. *)
Definition apology_raises : list Action :=
  [Deliver m1 (1 # 2); Resume 0 Returned; Deliver m2 (1 # 2); Resume 2 Returned;
   Resume 1 Returned; Resume 1 Returned; Resume 1 Returned;
   Resume 1 (Completion Failed); Resume 1 Raised;
   Resume 0 Returned; Resume 2 Returned].

End DispatcherSpec.

(** ** What is read off a text *)

Module TextNotions.
Import PyStr Chunking.

(** The characters of a text that are not whitespace, in order. *)
Definition visible (s : str) : str := List.filter (fun c => negb (isspace c)) s.

(** The text has no whitespace at either end. *)
Definition trimmed (s : str) : Prop :=
  (forall c, head s = Some c -> isspace c = false)
  /\ (forall c, last s = Some c -> isspace c = false).

(** [p] occurs in [s] at index [k] and at no lower index. *)
Definition first_at (s p : str) (k : nat) : Prop :=
  startswith (drop k s) p = true
  /\ forall j : nat, (j < k)%nat -> startswith (drop j s) p = false.

End TextNotions.


(** ** The store: sequences of calls, scores, and sample stores *)

Module StoreNotions.
Import PyStr ChatHistoryService.

Section Notions.
Variable float : Type.
Variable cosine : list float -> list float -> float.
Variable float_leb : float -> float -> bool.
Variable isfinite : float -> bool.

(** One call of [add_message]: what the clock reads, what the embedding
    request does, and the body. *)
Record Request : Type := {
  clock : str;
  answer : embedding_call float;
  body : Message
}.

(** The store after the call, and after a sequence of calls. *)
Definition handle (db : DB float) (r : Request) : DB float :=
  snd (add_message float (clock r) (answer r) (body r) db).
Definition handle_all (db : DB float) (calls : list Request) : DB float :=
  fold_left handle calls db.

(** The call stores a row: its embedding request did not raise. *)
Definition stored (r : Request) : bool :=
  match answer r with
  | Answered _ _ => true
  | Failed => false
  end.

(** The score of a row against the query vector [q]. *)
Definition score (q : list float) (r : Row float) : float :=
  cosine q (default [] (embedding r)).

(** The query vector has a dimension and finite entries, and every row
    has a vector of that dimension with finite entries. *)
Definition comparable (q : list float) (rows : list (Row float)) : Prop :=
  q <> [] /\ forallb isfinite q = true
  /\ Forall (fun r => exists v, embedding r = Some v /\ length v = length q
                                /\ forallb isfinite v = true) rows.

(** [<=] on scores is a total preorder (it is on numbers; not when a score
    is NaN). *)
Definition linear : Prop :=
  (forall a b, float_leb a b = false -> float_leb b a = true)
  /\ (forall a b c, float_leb a b = true -> float_leb b c = true ->
        float_leb a c = true).

(** Row [a] scores at most what row [b] scores. *)
Definition below (q : list float) (a b : Row float) : Prop :=
  float_leb (score q a) (score q b) = true.

End Notions.

Arguments clock {float} _.
Arguments answer {float} _.
Arguments body {float} _.

(** Scores that are integers: the dot product for the score of two
    vectors, and the order of the integers; every integer is finite. *)
Definition dot (a b : list Z) : Z := foldr Z.add 0 (zip_with Z.mul a b).
Definition finite (n : Z) : bool := true.

(** A request to store a question in channel c1, and the store after it
    was handled twice, the embedding backend answering with the vectors
    (1, 0) and then (1, 2). *)
Definition question : Message :=
  {| m_channel_id := py "c1"; m_user_id := py "<@1>";
     m_content := py "how are you"; m_replying_to := None;
     m_role := py "human" |}.
Definition asked_twice : DB Z :=
  handle_all Z (empty_db Z)
    [ {| clock := py "2024-01-01T00:00:01"; answer := Answered 200 [1; 0];
         body := question |};
      {| clock := py "2024-01-01T00:00:02"; answer := Answered 200 [1; 2];
         body := question |} ].


(** The store after the question was handled while the embedding backend
    answered with a 503. *)
Definition asked_while_down : DB Z :=
  handle_all Z (empty_db Z)
    [ {| clock := py "2024-01-01T00:00:01"; answer := Answered 503 [];
         body := question |} ].

End StoreNotions.


(** ** MetaLLM.py: the calls to the history service and the prompt *)

Module Prompt.
Import PyStr ChatHistoryService.

(** The body of a response, as [response.json()] reads it: the list of
    entries the caller expects ([Json []] also stands for an empty string or
    object, over which a loop runs the same way); a JSON value of another
    shape (a number, [null], a string, an object, a list holding something
    that is not an entry); or a body that is not JSON, at which
    [response.json()] raises. *)
Inductive payload (A : Type) : Type :=
| Json (value : A)
| OtherJson
| NotJson.
Arguments Json {A} value.
Arguments OtherJson {A}.
Arguments NotJson {A}.

(** What a request to the history service does, as its caller sees it:
    it is answered with a status and a body, or the request raises. *)
Inductive response (A : Type) : Type :=
| Responded (status : Z) (body : payload A)
| ClientError.
Arguments Responded {A} status body.
Arguments ClientError {A}.

(** FastAPI around a handler: what the handler returns goes out as JSON
    with status 200, an exception that leaves it becomes a 500 whose body
    is plain text. *)
Definition fastapi {A} (r : result A) : response A :=
  match r with
  | Ok a => Responded 200 (Json a)
  | Exception => Responded 500 NotJson
  end.

(** What the two calls below hand to [get_structured_input]: a list of
    entries, or the JSON value of another shape that came with a 200. *)
Inductive fetched : Type :=
| Entries (entries : list Entry)
| Malformed.

(** [get_conversation_history(channel_id, limit)] and
    [get_relevant_context(channel_id, query, limit)], as functions of what
    their requests do: the body on a 200, whatever JSON it is; the empty
    list on another status and when anything raises. *)
Definition get_conversation_history (response : response (list Entry))
  : fetched :=
  match response with
  | Responded status body =>
      if status =? 200 then
        match body with
        | Json value => Entries value
        | OtherJson => Malformed
        | NotJson => Entries []
        end
      else Entries []
  | ClientError => Entries []
  end.
Definition get_relevant_context (response : response (list Entry))
  : fetched :=
  match response with
  | Responded status body =>
      if status =? 200 then
        match body with
        | Json value => Entries value
        | OtherJson => Malformed
        | NotJson => Entries []
        end
      else Entries []
  | ClientError => Entries []
  end.

(** The limits the two calls of [get_structured_input] go out with. *)
Definition history_limit : Z := 10.
Definition context_limit : Z := 5.

(** One element of the prompt. *)
Record PromptMessage : Type := { p_role : str; p_content : str }.

Definition system (content : str) : PromptMessage :=
  {| p_role := py "system"; p_content := content |}.

Definition newline : str := ["010"%char].

(** ["Human" if msg['role'] == "human" else "AI Assistant"] *)
Definition speaker_type (role : str) : str :=
  if str_eqb role (py "human") then py "Human" else py "AI Assistant".

(** [msg['replying_to'] or 'None'] *)
Definition replying_to_or_none (replying_to : option str) : str :=
  match replying_to with
  | Some (c :: s) => c :: s
  | _ => py "None"
  end.

(** The f-string that frames a stored message. *)
Definition framed (msg : Entry) : str :=
  py "[Message " ++ str_of_int (e_id msg) ++ py "]" ++ newline
  ++ py "Speaker: " ++ e_user msg
  ++ py " (Type: " ++ speaker_type (e_role msg) ++ py ")" ++ newline
  ++ py "Time: " ++ e_timestamp msg ++ newline
  ++ py "Replying To: " ++ replying_to_or_none (e_replying_to msg) ++ newline
  ++ py "Message: " ++ e_content msg.

(** The f-string that frames the message to respond to. *)
Definition respond_to (current_message : MetaLLM.Message) : str :=
  py "Respond to: [Message " ++ str_of_int (MetaLLM.id current_message)
  ++ py "] Speaker: <@"
  ++ str_of_int (MetaLLM.user_id (MetaLLM.author current_message))
  ++ py "> (Type: "
  ++ (if negb (MetaLLM.bot (MetaLLM.author current_message))
      then py "Human" else py "AI Assistant")
  ++ py ") said: " ++ MetaLLM.content current_message.

(** The two [for] loops of [get_structured_input]. *)
Definition append_framed (structured_input : list PromptMessage)
    (msgs : list Entry) : list PromptMessage :=
  fold_left (fun structured_input msg => structured_input ++ [system (framed msg)])
            msgs structured_input.

(** [get_structured_input(channel_id, current_message)], as a function of
    what its two requests do.  Over a value that is not a list of entries
    the [for] loop, or the reading of an entry, raises. *)
Definition get_structured_input (history_response context_response
                                 : response (list Entry))
    (current_message : MetaLLM.Message) : result (list PromptMessage) :=
  let history := get_conversation_history history_response in
  let relevant_context := get_relevant_context context_response in
  let structured_input :=
    [ system (py "You are " ++ MetaLLM.BOT_NAME
              ++ py ", an AI assistant in a conversation with multiple humans and other AI assistants on Discord. Respond naturally to messages.");
      system (py "--- RAG Context Start ---") ] in
  match relevant_context with
  | Malformed => Exception
  | Entries relevant_context =>
      let structured_input := append_framed structured_input relevant_context in
      let structured_input :=
        structured_input ++ [system (py "--- RAG Context End ---")] in
      let structured_input :=
        structured_input ++ [system (py "--- Recent Messages Start ---")] in
      match history with
      | Malformed => Exception
      | Entries history =>
          let structured_input := append_framed structured_input history in
          let structured_input :=
            structured_input ++ [system (py "--- Recent Messages End ---")] in
          let structured_input :=
            structured_input ++ [system (py "--- Task ---")] in
          Ok (structured_input ++ [system (respond_to current_message)])
      end
  end.

Section Service.
Variable float : Type.
Variable cosine : list float -> list float -> float.
Variable float_leb : float -> float -> bool.
Variable isfinite : float -> bool.

(** The prompt for [current_message] when both requests reach the service
    and it holds [db]; [call] is what the embedding request for the
    content of the message does. *)
Definition structured_input_from (db : DB float) (call : embedding_call float)
    (current_message : MetaLLM.Message) : result (list PromptMessage) :=
  let channel_id := str_of_int (MetaLLM.channel current_message) in
  get_structured_input
    (fastapi (ChatHistoryService.get_conversation_history float channel_id
                history_limit db))
    (fastapi (ChatHistoryService.get_relevant_context float cosine float_leb
                isfinite channel_id call context_limit db))
    current_message.

End Service.

End Prompt.


(** ** The dispatcher: the way of a message through the worker *)

Module DispatcherTrace.
Import PyStr Chunking MetaLLM DispatcherSpec.

(** The messages of channel [channel_id] handed to context assembly, those
    a completion was requested for and those a completion was answered
    for, in order. *)
Definition handed (channel_id : Z) (log : list Event) : list Message :=
  flat_map (fun e => match e with
                     | GetStructuredInput c m => if c =? channel_id then [m] else []
                     | _ => []
                     end) log.
Definition requested (channel_id : Z) (log : list Event) : list Message :=
  flat_map (fun e => match e with
                     | LLMRequest c m => if c =? channel_id then [m] else []
                     | _ => []
                     end) log.
Definition responded (channel_id : Z) (log : list Event) : list Message :=
  flat_map (fun e => match e with
                     | LLMResponse c m _ => if c =? channel_id then [m] else []
                     | _ => []
                     end) log.

(** What the loop over [relevant_messages] has still to visit after the
    message the worker is at; the message it is at while the completion is
    not yet requested; and while the completion is awaited. *)
Definition rest_of (p : Point) : list Message :=
  match p with
  | AtContext _ _ rest | AtTyping _ _ rest | AtCompletion _ _ rest
  | AtRecord _ _ rest _ | AtSend _ _ rest _ | AtApology _ _ rest => rest
  | _ => []
  end.
Definition before_request (p : Point) : list Message :=
  match p with
  | AtContext _ msg _ | AtTyping _ msg _ => [msg]
  | _ => []
  end.
Definition awaiting_completion (p : Point) : list Message :=
  match p with
  | AtCompletion _ msg _ => [msg]
  | _ => []
  end.

(** The message the worker is at. *)
Definition current (p : Point) : list Message :=
  match p with
  | AtContext _ msg _ | AtTyping _ msg _ | AtCompletion _ msg _
  | AtRecord _ msg _ _ | AtSend _ msg _ _ | AtApology _ msg _ => [msg]
  | _ => []
  end.

(** The records posted to the history service by [record_user_message],
    each with its channel, in order. *)
Definition user_records (log : list Event) : list (Z * ChatRecord) :=
  flat_map (fun e => match e with
                     | RecordChatHistory c r =>
                         if str_eqb (r_role r) (py "assistant") then [] else [(c, r)]
                     | _ => []
                     end) log.

(** The channel an event is seen in on Discord. *)
Definition addressed (e : Event) : option Z :=
  match e with
  | Typing c | Send c _ => Some c
  | Reply m _ => Some (channel m)
  | _ => None
  end.

Section Bot.
Variable bot_user : User.

(** The messages of the batches popped for [channel_id] that pass the
    filter of the worker, in order. *)
Definition selected (channel_id : Z) (log : list Event) : list Message :=
  flat_map (fun e => match e with
                     | Popped c ms =>
                         if c =? channel_id then List.filter (relevant bot_user) ms
                         else []
                     | _ => []
                     end) log.

(** The messages a schedule delivers, in order, but for the bot's own and
    for the replies to a deleted message. *)
Definition arrivals (schedule : list Action) : list Message :=
  flat_map (fun a => match a with
                     | Deliver m _ =>
                         if user_eqb (author m) bot_user then []
                         else if deleted_reference m then [] else [m]
                     | Resume _ _ => []
                     end) schedule.

(** Where the messages in the queues and in the hands of [on_message]
    come from. *)
Definition traced (schedule : list Action) (st : State) : Prop :=
  (forall i m draw,
     tasks st !! i = Some (AtRecordUser m draw) ->
     Deliver m draw ∈ schedule /\ user_eqb (author m) bot_user = false
     /\ deleted_reference m = false)
  /\ forall c m,
       m ∈ enqueued c (log st) ->
       channel m = c /\ user_eqb (author m) bot_user = false
       /\ deleted_reference m = false
       /\ exists draw, Deliver m draw ∈ schedule
            /\ should_process bot_user m draw = true.

End Bot.

(** The queue of [channel_id] has an entry that nobody will take: no
    worker is inside the loop for the channel and no task is scheduled for
    it. *)
Definition stranded (channel_id : Z) (st : State) : Prop :=
  is_Some (message_queue st !! channel_id)
  /\ (channel_id ∉ processing_channels st)
  /\ forall i : nat, tasks st !! i <> Some (Scheduled channel_id).

(** Every message in the queue of a channel, and every message a worker of
    the channel is at or has still to visit, was posted in that channel. *)
Definition routed (st : State) : Prop :=
  (forall c b, message_queue st !! c = Some b -> Forall (fun m => channel m = c) b)
  /\ forall i p c, tasks st !! i = Some p -> channel_of p = Some c ->
       Forall (fun m => channel m = c) (current p ++ rest_of p).

(** Two sequences read off the log of a channel, [B] following [A], and
    what a worker holds of [A] that is not yet in [B]. *)
Section Stage.
Variable A B : Z -> list Event -> list Message.
Variable own : Point -> list Message.

Definition own_in (c : Z) (p : Point) : list Message :=
  if decide (channel_of p = Some c) then own p else [].

(** [B] has caught up with [A] but for what the worker of the channel
    holds. *)
Definition staged (st : State) : Prop :=
  forall c : Z,
    (c ∉ processing_channels st -> A c (log st) = B c (log st))
    /\ forall (i : nat) (p : Point),
         tasks st !! i = Some p -> channel_of p = Some c ->
         A c (log st) = B c (log st) ++ own p.

(** [B] and what the worker holds are taken from [A], in order. *)
Definition trailing (st : State) : Prop :=
  forall c : Z,
    (c ∉ processing_channels st -> sublist (B c (log st)) (A c (log st)))
    /\ forall (i : nat) (p : Point),
         tasks st !! i = Some p -> channel_of p = Some c ->
         sublist (B c (log st) ++ own p) (A c (log st)).

(** A task going from [p] to [p'] while the log grows from [l] to [l']
    passes on what it holds; or it ends and gives up what it holds, and
    what it may just have taken. *)
Definition moves (p p' : Point) (l l' : list Event) : Prop :=
  forall c : Z, exists new_A new_B : list Message,
    A c l' = A c l ++ new_A /\ B c l' = B c l ++ new_B
    /\ own_in c p ++ new_A = new_B ++ own_in c p'
    /\ (channel_of p <> Some c -> channel_of p' <> Some c ->
        new_A = [] /\ new_B = []).
Definition drops (p' : Point) (l l' : list Event) : Prop :=
  channel_of p' = None
  /\ forall c : Z, (exists new_A, A c l' = A c l ++ new_A) /\ B c l' = B c l.

End Stage.

(** The run of [wedged] up to the end of the worker, and what follows. *)
Definition wedge : list Action :=
  overlapping ++
  [Resume 1 (Completion (Answered 200 (py "hi"))); Resume 1 Returned;
   Resume 1 Raised; Resume 0 Returned; Resume 2 Returned].
Definition afterwards : list Action :=
  [Deliver m3 (1 # 2); Resume 4 Returned; Resume 4 Returned].

End DispatcherTrace.


(** * Properties *)

(** ** Strings *)

Module PyStrFacts.
Import PyStr.

(** Accented letters change case as the letters A..Z do, and [upper]
    doubles the sharp s. *)
Lemma lower_accented :
  lower ["C"; "A"; "F"; "201"]%char = ["c"; "a"; "f"; "233"]%char.
Proof. reflexivity. Qed.

Lemma upper_accented :
  upper ["c"; "a"; "f"; "233"; "223"]%char = [67; 65; 70; 201; 83; 83]%N.
Proof. reflexivity. Qed.

Lemma lstrip_length (s : str) : (length (lstrip s) <= length s)%nat.
Proof.
  induction s as [|c s IH]; simpl; [lia|].
  destruct (isspace c); simpl; lia.
Qed.

Lemma lstrip_cons_space (c : ascii) (s : str) :
  isspace c = true -> lstrip (c :: s) = lstrip s.
Proof. intros H. simpl. now rewrite H. Qed.

Lemma clamp_nonneg (i n : Z) : 0 <= i -> clamp i n = Z.min i n.
Proof. intros H. unfold clamp. destruct (Z.ltb_spec i 0); lia. Qed.

Lemma slice_to_take {A} (s : list A) (i : Z) :
  0 <= i -> slice_to s i = take (Z.to_nat i) s.
Proof.
  intros H. unfold slice_to. rewrite clamp_nonneg by lia.
  destruct (Z.le_ge_cases i (Z.of_nat (length s))).
  - now rewrite Z.min_l by lia.
  - rewrite Z.min_r by lia. rewrite Nat2Z.id.
    rewrite !take_ge; [reflexivity|lia|lia].
Qed.

Lemma slice_from_drop {A} (s : list A) (i : Z) :
  0 <= i -> slice_from s i = drop (Z.to_nat i) s.
Proof.
  intros H. unfold slice_from. rewrite clamp_nonneg by lia.
  destruct (Z.le_ge_cases i (Z.of_nat (length s))).
  - now rewrite Z.min_l by lia.
  - rewrite Z.min_r by lia. rewrite Nat2Z.id.
    rewrite !drop_ge; [reflexivity|lia|lia].
Qed.

(** What the scan answers: the last index holding [c], or what it was
    given when there is none. *)
Lemma rfind_scan_spec (c : ascii) (s : str) (i found : Z) :
  (rfind_scan c s i found = found /\ forall k : nat, s !! k <> Some c)
  \/ (exists k : nat,
        rfind_scan c s i found = i + Z.of_nat k /\ s !! k = Some c
        /\ forall j : nat, (k < j)%nat -> s !! j <> Some c).
Proof.
  revert i found. induction s as [|x s IH]; intros i found; simpl.
  - left. split; [reflexivity|]. intros k. destruct k; discriminate.
  - destruct (IH (i + 1) (if Ascii.eqb x c then i else found))
      as [[Hr Hno]|(k & Hr & Hk & Hlast)].
    + destruct (Ascii.eqb_spec x c) as [->|Hne].
      * right. exists 0%nat. rewrite Hr. split; [lia|]. split; [reflexivity|].
        intros [|j] Hj; [lia|]. simpl. apply Hno.
      * left. split; [exact Hr|]. intros [|k]; simpl; [congruence|apply Hno].
    + right. exists (S k). rewrite Hr. split; [lia|]. split; [exact Hk|].
      intros [|j] Hj; [lia|]. simpl. apply Hlast. lia.
Qed.

(** [rfind] from the start of the string. *)
Lemma rfind_spec (c : ascii) (s : str) (stop : Z) :
  0 <= stop ->
  (rfind c s 0 stop = -1
   /\ forall j : nat, Z.of_nat j < stop -> s !! j <> Some c)
  \/ (exists k : nat,
        rfind c s 0 stop = Z.of_nat k /\ Z.of_nat k < stop
        /\ s !! k = Some c
        /\ forall j : nat, (k < j)%nat -> Z.of_nat j < stop -> s !! j <> Some c).
Proof.
  intros Hstop. unfold rfind.
  rewrite (clamp_nonneg 0) by lia. rewrite (clamp_nonneg stop) by lia.
  assert (H0 : Z.min 0 (len s) = 0) by (unfold len; lia). rewrite H0.
  rewrite Z.sub_0_r. change (Z.to_nat 0) with 0%nat. rewrite drop_0.
  set (n := Z.to_nat (Z.min stop (len s))).
  assert (Hn : (n <= length s)%nat) by (unfold n, len; lia).
  assert (Hn' : Z.of_nat n <= stop) by (unfold n, len; lia).
  assert (Hcut : forall j : nat, Z.of_nat j < stop ->
                 s !! j = take n s !! j).
  { intros j Hj. destruct (decide (j < n)%nat) as [Hlt|Hge].
    - now rewrite lookup_take_lt.
    - rewrite lookup_take_ge by lia.
      apply lookup_ge_None. unfold n, len in *. lia. }
  destruct (rfind_scan_spec c (take n s) 0 (-1))
    as [[Hr Hno]|(k & Hr & Hk & Hlast)].
  - left. split; [exact Hr|]. intros j Hj. rewrite Hcut by lia. apply Hno.
  - right. exists k. split; [rewrite Hr; lia|].
    assert (Hkn : (k < n)%nat).
    { pose proof (lookup_lt_Some _ _ _ Hk) as Hlt.
      rewrite length_take in Hlt. lia. }
    split; [lia|]. split.
    + now rewrite lookup_take_lt in Hk.
    + intros j Hj Hjs. rewrite Hcut by lia. now apply Hlast.
Qed.

End PyStrFacts.

(** ** Outbound chunking *)

Module ChunkingFacts.
Import PyStr PyStrFacts Chunking.

(** Where the loop cuts: at the last space below index 1900, or at 1900
    when there is none. *)
Lemma split_index_spec (content : str) :
  (split_index content = MAX_MESSAGE_LENGTH
   /\ forall j : nat, Z.of_nat j < MAX_MESSAGE_LENGTH ->
        content !! j <> Some " "%char)
  \/ (exists k : nat,
        split_index content = Z.of_nat k /\ Z.of_nat k < MAX_MESSAGE_LENGTH
        /\ content !! k = Some " "%char
        /\ forall j : nat, (k < j)%nat -> Z.of_nat j < MAX_MESSAGE_LENGTH ->
             content !! j <> Some " "%char).
Proof.
  unfold split_index.
  destruct (rfind_spec " "%char content MAX_MESSAGE_LENGTH)
    as [[Hr Hno]|(k & Hr & Hk & Hc & Hlast)]; [unfold MAX_MESSAGE_LENGTH; lia| |].
  - left. rewrite Hr. simpl. split; [reflexivity|exact Hno].
  - right. exists k. rewrite Hr.
    destruct (Z.eqb_spec (Z.of_nat k) (-1)); [lia|]. repeat split; assumption.
Qed.

Lemma split_index_range (content : str) :
  0 <= split_index content <= MAX_MESSAGE_LENGTH.
Proof.
  destruct (split_index_spec content) as [[-> _]|(k & -> & Hk & _)];
    unfold MAX_MESSAGE_LENGTH in *; lia.
Qed.

(** The loop makes progress: what is left after a cut is shorter. *)
Lemma remainder_shorter (content : str) :
  len content > MAX_MESSAGE_LENGTH ->
  (length (lstrip (slice_from content (split_index content))) < length content)%nat.
Proof.
  intros Hlen. pose proof (split_index_range content) as Hrange.
  rewrite slice_from_drop by lia.
  destruct (split_index_spec content) as [[Hi _]|(k & Hi & Hk & Hc & _)].
  - rewrite Hi. pose proof (lstrip_length (drop (Z.to_nat MAX_MESSAGE_LENGTH) content)) as H.
    rewrite length_drop in H. unfold len, MAX_MESSAGE_LENGTH in *. lia.
  - rewrite Hi, Nat2Z.id. destruct k as [|k].
    + destruct content as [|c s]; [discriminate|]. simpl in Hc.
      injection Hc as ->. rewrite drop_0, lstrip_cons_space by reflexivity.
      pose proof (lstrip_length s). simpl. lia.
    + pose proof (lstrip_length (drop (S k) content)) as H.
      rewrite length_drop in H. apply lookup_lt_Some in Hc. lia.
Qed.

(** The chunk cut off is within the budget. *)
Lemma chunk_within_budget (content : str) :
  len (slice_to content (split_index content)) <= MAX_MESSAGE_LENGTH.
Proof.
  pose proof (split_index_range content) as Hrange.
  rewrite slice_to_take by lia. unfold len. rewrite length_take. lia.
Qed.

(** The accumulator only grows at its end. *)
Lemma split_loop_parts (fuel : nat) (content : str) (parts : list str) :
  split_loop fuel content parts = (parts ++.) <$> split_loop fuel content [].
Proof.
  revert content parts. induction fuel as [|fuel IH]; intros content parts; simpl.
  - destruct (len content >? MAX_MESSAGE_LENGTH); reflexivity.
  - destruct (len content >? MAX_MESSAGE_LENGTH); [|reflexivity].
    rewrite IH. rewrite (IH _ [_]).
    destruct (split_loop fuel _ []) as [r|]; simpl; [|reflexivity].
    now rewrite <- app_assoc.
Qed.

(** One turn of the loop. *)
Lemma split_loop_step (fuel : nat) (content : str) :
  len content > MAX_MESSAGE_LENGTH ->
  split_loop (S fuel) content [] =
  (slice_to content (split_index content) ::.)
    <$> split_loop fuel (lstrip (slice_from content (split_index content))) [].
Proof.
  intros Hlen. simpl.
  destruct (Z.gtb_spec (len content) MAX_MESSAGE_LENGTH); [|lia].
  now rewrite split_loop_parts.
Qed.

Lemma split_loop_done (fuel : nat) (content : str) :
  len content <= MAX_MESSAGE_LENGTH -> split_loop fuel content [] = Some [content].
Proof.
  intros Hlen. destruct fuel; simpl;
    destruct (Z.gtb_spec (len content) MAX_MESSAGE_LENGTH); try lia; reflexivity.
Qed.

(** With one unit of fuel per character the loop finishes, and its chunks
    are within the budget. *)
Lemma split_loop_total (fuel : nat) (content : str) :
  (length content <= fuel)%nat ->
  exists parts, split_loop fuel content [] = Some parts /\ parts <> []
    /\ Forall (fun part => len part <= MAX_MESSAGE_LENGTH) parts.
Proof.
  revert content. induction fuel as [|fuel IH]; intros content Hfuel.
  - exists [content]. rewrite split_loop_done.
    + repeat split; [discriminate|]. constructor; [|constructor].
      unfold len, MAX_MESSAGE_LENGTH. lia.
    + unfold len, MAX_MESSAGE_LENGTH. lia.
  - destruct (Z.le_gt_cases (len content) MAX_MESSAGE_LENGTH) as [Hle|Hgt].
    + exists [content]. rewrite split_loop_done by lia.
      repeat split; [discriminate|]. constructor; [lia|constructor].
    + rewrite split_loop_step by lia.
      pose proof (remainder_shorter content ltac:(lia)) as Hshort.
      destruct (IH (lstrip (slice_from content (split_index content))) ltac:(lia))
        as (parts & -> & _ & Hall).
      eexists. split; [reflexivity|]. split; [discriminate|].
      constructor; [apply chunk_within_budget|exact Hall].
Qed.

(** More fuel than needed changes nothing. *)
Lemma split_loop_fuel (fuel fuel' : nat) (content : str) :
  (length content <= fuel)%nat -> (length content <= fuel')%nat ->
  split_loop fuel content [] = split_loop fuel' content [].
Proof.
  revert fuel' content. induction fuel as [|fuel IH]; intros fuel' content H H'.
  - rewrite !split_loop_done; [reflexivity| |]; unfold len, MAX_MESSAGE_LENGTH; lia.
  - destruct (Z.le_gt_cases (len content) MAX_MESSAGE_LENGTH) as [Hle|Hgt].
    + now rewrite !split_loop_done by lia.
    + destruct fuel' as [|fuel']; [unfold len, MAX_MESSAGE_LENGTH in *; lia|].
      rewrite !split_loop_step by lia.
      pose proof (remainder_shorter content ltac:(lia)) as Hshort.
      f_equal. apply IH; lia.
Qed.

Lemma split_message_defined (content : str) :
  exists parts, split_message content = Some parts /\ parts <> [].
Proof.
  destruct (split_loop_total (length content) content ltac:(lia))
    as (parts & Hparts & Hne & _).
  eauto.
Qed.

(** [split_message] as the loop reads. *)
Lemma split_message_short (content : str) :
  len content <= MAX_MESSAGE_LENGTH -> split_message content = Some [content].
Proof. apply split_loop_done. Qed.

Lemma split_message_long (content : str) :
  len content > MAX_MESSAGE_LENGTH ->
  split_message content =
  (slice_to content (split_index content) ::.)
    <$> split_message (lstrip (slice_from content (split_index content))).
Proof.
  intros Hlen. unfold split_message.
  pose proof (remainder_shorter content Hlen) as Hshort.
  destruct (length content) as [|n] eqn:Hn; [unfold len, MAX_MESSAGE_LENGTH in *; lia|].
  rewrite split_loop_step by lia. f_equal.
  apply split_loop_fuel; lia.
Qed.

End ChunkingFacts.

Module ChunkingClaims.
Import PyStr PyStrFacts Chunking ChunkingFacts ChunkingSpec.

(** C10. For every input string [split_message] terminates and returns a
    non-empty list of chunks, each of length at most [MAX_MESSAGE_LENGTH]
    (1900): the loop finishes within the iterations the definition grants
    it, whatever the text holds (no whitespace, only whitespace). *)
Theorem split_message_total (content : str) :
  exists parts, split_message content = Some parts /\ parts <> []
    /\ Forall (fun part => len part <= 1900) parts.
Proof. apply split_loop_total. lia. Qed.

Lemma text_with_newline_cut : last_whitespace_at text_with_newline 10.
Proof.
  split; [unfold MAX_MESSAGE_LENGTH; lia|]. split.
  - exists "010"%char. split; reflexivity.
  - intros j c Hj Hj' Hc. unfold text_with_newline in Hc.
    rewrite lookup_app_r in Hc by (rewrite length_replicate; lia).
    rewrite length_replicate in Hc.
    destruct (j - 10)%nat as [|n] eqn:Hn; [lia|].
    change (replicate 1990 "b"%char !! n = Some c) in Hc.
    apply lookup_replicate in Hc as [-> _]. reflexivity.
Qed.

Lemma text_with_early_space_single : single_space_at text_with_early_space 1000.
Proof.
  split; [reflexivity|]. intros j c Hj Hc. unfold text_with_early_space in Hc.
  destruct (decide (j < 1000)%nat) as [Hlt|Hge].
  - rewrite lookup_app_l in Hc by (rewrite length_replicate; lia).
    apply lookup_replicate in Hc as [-> _]. reflexivity.
  - rewrite lookup_app_r in Hc by (rewrite length_replicate; lia).
    rewrite length_replicate in Hc.
    destruct (j - 1000)%nat as [|n] eqn:Hn; [lia|].
    change (replicate 2799 "b"%char !! n = Some c) in Hc.
    apply lookup_replicate in Hc as [-> _]. reflexivity.
Qed.

(** C8, as stated, fails twice.  A line feed is whitespace and not a
    space: the text with its only whitespace at index 10 is cut at 1900,
    not at 10.  And a text of length 3800 whose single space is at index
    1000 gives three chunks, of 1000, 1900 and 899 characters. *)
Lemma split_message_not_at_last_whitespace :
  ~ cuts_at_last_whitespace text_with_newline
  /\ ~ two_chunks_around_space text_with_early_space.
Proof.
  split.
  - intros H.
    destruct (H 10%nat ltac:(reflexivity) text_with_newline_cut) as (rest & Hrest).
    assert (Hcode : split_message text_with_newline
                    = Some [take 1900 text_with_newline; drop 1900 text_with_newline])
      by (vm_compute; reflexivity).
    rewrite Hrest in Hcode. injection Hcode as Hcode _.
    apply (f_equal length) in Hcode. vm_compute in Hcode. discriminate.
  - intros H.
    destruct (H 1000%nat ltac:(reflexivity) ltac:(lia) text_with_early_space_single)
      as (a & b & Hsplit & _).
    assert (Hcode : length <$> split_message text_with_early_space = Some 3%nat)
      by (vm_compute; reflexivity).
    rewrite Hsplit in Hcode. discriminate.
Qed.

End ChunkingClaims.

(** ** The message store *)

Module StoreFacts.
Import PyStr ChatHistoryService StoreSpec.

Lemma str_leb_total (a b : str) : str_leb a b = false -> str_leb b a = true.
Proof.
  revert b. induction a as [|x a IH]; intros [|y b]; simpl; try easy.
  destruct (N.ltb_spec (N_of_ascii x) (N_of_ascii y)); [discriminate|].
  destruct (N.ltb_spec (N_of_ascii y) (N_of_ascii x)); [reflexivity|].
  apply IH.
Qed.

Lemma str_leb_trans (a b c : str) :
  str_leb a b = true -> str_leb b c = true -> str_leb a c = true.
Proof.
  revert b c. induction a as [|x a IH]; intros [|y b] [|z c]; simpl; try easy.
  destruct (N.ltb_spec (N_of_ascii x) (N_of_ascii y)),
           (N.ltb_spec (N_of_ascii y) (N_of_ascii x)),
           (N.ltb_spec (N_of_ascii y) (N_of_ascii z)),
           (N.ltb_spec (N_of_ascii z) (N_of_ascii y)),
           (N.ltb_spec (N_of_ascii x) (N_of_ascii z)),
           (N.ltb_spec (N_of_ascii z) (N_of_ascii x));
    try easy; try lia.
  apply IH.
Qed.

Lemma bind_int_fits (n : Z) : - 2 ^ 63 <= n < 2 ^ 63 -> bind_int n = Ok n.
Proof.
  intros [Hlo Hhi]. unfold bind_int.
  destruct (Z.leb_spec (- 2 ^ 63) n); [|lia].
  destruct (Z.ltb_spec n (2 ^ 63)); [reflexivity|lia].
Qed.

Lemma bind_int_overflow (n : Z) :
  n < - 2 ^ 63 \/ 2 ^ 63 <= n -> bind_int n = Exception.
Proof.
  intros Hout. unfold bind_int.
  destruct (Z.leb_spec (- 2 ^ 63) n); [|reflexivity].
  destruct (Z.ltb_spec n (2 ^ 63)); [lia|reflexivity].
Qed.

Section Facts.
Variable float : Type.
Variable cosine : list float -> list float -> float.
Variable float_leb : float -> float -> bool.
Variable isfinite : float -> bool.

Abbreviation Row := (Row float).
Abbreviation DB := (DB float).
Abbreviation newer := (newer float).
Abbreviation older := (older float).

Lemma insert_desc_perm (r : Row) (l : list Row) :
  Permutation (insert_desc float r l) (r :: l).
Proof.
  induction l as [|x l IH]; simpl; [reflexivity|].
  destruct (str_leb (timestamp x) (timestamp r)); [reflexivity|].
  rewrite IH. apply perm_swap.
Qed.

Lemma order_by_perm (rows : list Row) :
  Permutation (order_by_timestamp_desc float rows) rows.
Proof.
  induction rows as [|r rows IH]; simpl; [reflexivity|].
  unfold order_by_timestamp_desc in *. simpl.
  rewrite insert_desc_perm. now rewrite IH.
Qed.

Lemma insert_desc_sorted (r : Row) (l : list Row) :
  StronglySorted newer l -> StronglySorted newer (insert_desc float r l).
Proof.
  induction 1 as [|x l Hl IH Hx]; simpl.
  - repeat constructor.
  - destruct (str_leb (timestamp x) (timestamp r)) eqn:Hxr.
    + constructor; [constructor; assumption|].
      constructor; [exact Hxr|].
      eapply Forall_impl; [exact Hx|]. intros y Hy. unfold newer in *.
      eapply str_leb_trans; eassumption.
    + constructor; [exact IH|].
      rewrite (insert_desc_perm r l). constructor; [|exact Hx].
      now apply str_leb_total.
Qed.

Lemma order_by_sorted (rows : list Row) :
  StronglySorted newer (order_by_timestamp_desc float rows).
Proof.
  induction rows as [|r rows IH]; [constructor|].
  apply insert_desc_sorted, IH.
Qed.

Lemma StronglySorted_rev_flip {A} (R : relation A) (l : list A) :
  StronglySorted R l -> StronglySorted (flip R) (rev l).
Proof.
  induction 1 as [|x l Hl IH Hx]; simpl; [constructor|].
  apply StronglySorted_app_2; [|exact IH|repeat constructor].
  intros a b Ha Hb. apply list_elem_of_singleton in Hb as ->.
  apply list_elem_of_In in Ha. apply in_rev in Ha. apply list_elem_of_In in Ha.
  rewrite Forall_forall in Hx. now apply Hx.
Qed.

Lemma StronglySorted_filter {A} (R : relation A) (P : A -> Prop)
    `{!forall x, Decision (P x)} (l : list A) :
  StronglySorted R l -> StronglySorted R (filter P l).
Proof.
  induction 1 as [|x l Hl IH Hx]; [constructor|].
  rewrite filter_cons. destruct (decide (P x)); [|exact IH].
  constructor; [exact IH|].
  apply Forall_forall. intros y Hy. apply list_elem_of_filter in Hy as [_ Hy].
  rewrite Forall_forall in Hx. now apply Hx.
Qed.

Lemma StronglySorted_compare {A} (R : relation A) (l : list A) (a b : A) :
  StronglySorted R l -> a ∈ l -> b ∈ l -> a = b \/ R a b \/ R b a.
Proof.
  induction 1 as [|x l Hl IH Hx]; intros Ha Hb.
  - now apply not_elem_of_nil in Ha.
  - rewrite Forall_forall in Hx.
    apply elem_of_cons in Ha as [->|Ha]; apply elem_of_cons in Hb as [->|Hb];
      auto.
Qed.

Lemma StronglySorted_NoDup {A} (R : relation A) (l : list A) :
  (forall x, ~ R x x) -> StronglySorted R l -> NoDup l.
Proof.
  intros Hirr. induction 1 as [|x l Hl IH Hx]; constructor; [|exact IH].
  intros Hin. rewrite Forall_forall in Hx. exact (Hirr x (Hx x Hin)).
Qed.

Lemma StronglySorted_refine {A} (S T : relation A) (l : list A) :
  StronglySorted S l -> NoDup l ->
  (forall a b, a ∈ l -> b ∈ l -> a <> b -> S a b -> T a b) ->
  StronglySorted T l.
Proof.
  induction 1 as [|x l Hl IH Hx]; intros Hnd HT; [constructor|].
  apply NoDup_cons in Hnd as [Hx' Hnd].
  constructor.
  - apply IH; [exact Hnd|]. intros a b Ha Hb. apply HT; now right.
  - apply Forall_forall. intros y Hy. rewrite Forall_forall in Hx.
    apply HT; [now left|now right| |now apply Hx].
    intros ->. contradiction.
Qed.

(** The rows the history query selects: the [limit] newest of the channel,
    oldest first; [earlier] are the rows of the channel it leaves out. *)
Lemma history_selection (channel : str) (limit : Z) (db : DB) :
  0 <= limit < 2 ^ 63 ->
  exists selected earlier : list Row,
    get_conversation_history float channel limit db
    = Ok (map (entry_of float) selected)
    /\ Permutation (where_channel float channel (messages db)) (earlier ++ selected)
    /\ StronglySorted older selected
    /\ (forall o s, o ∈ earlier -> s ∈ selected -> older o s)
    /\ Z.of_nat (length selected)
       = Z.min limit (Z.of_nat (length (where_channel float channel (messages db)))).
Proof.
  intros Hlimit. unfold get_conversation_history.
  rewrite bind_int_fits by lia. unfold sql_limit.
  destruct (Z.ltb_spec limit 0); [lia|].
  set (rows := where_channel float channel (messages db)).
  set (sorted := order_by_timestamp_desc float rows).
  set (n := Z.to_nat limit).
  exists (rev (take n sorted)), (drop n sorted).
  pose proof (order_by_sorted rows) as Hsorted. fold sorted in Hsorted.
  rewrite <- (take_drop n sorted) in Hsorted.
  split; [reflexivity|]. split.
  - rewrite <- Permutation_rev.
    rewrite (Permutation_app_comm (drop n sorted)), take_drop.
    symmetry. apply order_by_perm.
  - split.
    + apply (StronglySorted_rev_flip newer).
      eapply StronglySorted_app_1_l, Hsorted.
    + split.
      * intros o s Ho Hs.
        apply list_elem_of_In in Hs. apply in_rev in Hs. apply list_elem_of_In in Hs.
        exact (StronglySorted_app_1_elem_of _ _ _ _ _ Hsorted Hs Ho).
      * rewrite length_rev, length_take.
        pose proof (Permutation_length (order_by_perm rows)) as Hlen.
        fold sorted in Hlen. unfold n. lia.
Qed.

(** With a negative limit the query selects every row of the channel. *)
Lemma history_unbounded (channel : str) (limit : Z) (db : DB) :
  - 2 ^ 63 <= limit < 0 ->
  exists selected : list Row,
    get_conversation_history float channel limit db
    = Ok (map (entry_of float) selected)
    /\ Permutation (where_channel float channel (messages db)) selected
    /\ StronglySorted older selected.
Proof.
  intros Hlimit. unfold get_conversation_history.
  rewrite bind_int_fits by lia. unfold sql_limit.
  destruct (Z.ltb_spec limit 0); [|lia].
  eexists. split; [reflexivity|]. split.
  - rewrite <- Permutation_rev. symmetry. apply order_by_perm.
  - apply (StronglySorted_rev_flip newer), order_by_sorted.
Qed.

Lemma history_overflow (channel : str) (limit : Z) (db : DB) :
  limit < - 2 ^ 63 \/ 2 ^ 63 <= limit ->
  get_conversation_history float channel limit db = Exception.
Proof.
  intros Hout. unfold get_conversation_history.
  now rewrite bind_int_overflow.
Qed.

End Facts.

End StoreFacts.

Module StoreClaims.
Import PyStr ChatHistoryService StoreSpec StoreFacts.

Section Claims.
Variable float : Type.
Variable cosine : list float -> list float -> float.
Variable float_leb : float -> float -> bool.
Variable isfinite : float -> bool.

(** C5, as amended.  For every channel and every limit from 0 to
    2^63 - 1, the history query returns stored messages of that channel
    ([selected], each row once), in non-decreasing timestamp order, oldest
    first; they are the most recent ones (no row of the channel left out is
    newer than a row returned) and there are [min limit n] of them, [n]
    being the number of rows of the channel, so at most [limit] and none
    for a channel without rows.  Where ids and timestamps increase together
    down the table, the order is also that of increasing id.  A negative
    limit, down to -2^63, is no limit: every row of the channel is
    returned, oldest first.  A limit that does not fit the 64 bits of an
    SQLite integer makes the query raise. *)
Theorem history_recent_oldest_first (channel : str) (limit : Z) (db : DB float) :
  (0 <= limit < 2 ^ 63 ->
   exists selected earlier : list (Row float),
     get_conversation_history float channel limit db
     = Ok (map (entry_of float) selected)
     /\ Permutation (where_channel float channel (messages db)) (earlier ++ selected)
     /\ Forall (fun r => r ∈ messages db /\ channel_id r = channel) selected
     /\ StronglySorted (older float) selected
     /\ (forall o s, o ∈ earlier -> s ∈ selected -> older float o s)
     /\ Z.of_nat (length selected)
        = Z.min limit (Z.of_nat (length (where_channel float channel (messages db))))
     /\ (where_channel float channel (messages db) = [] ->
         get_conversation_history float channel limit db = Ok [])
     /\ (chronological float db ->
         StronglySorted (fun a b => id a < id b) selected))
  /\ (- 2 ^ 63 <= limit < 0 ->
      exists selected : list (Row float),
        get_conversation_history float channel limit db
        = Ok (map (entry_of float) selected)
        /\ Permutation (where_channel float channel (messages db)) selected
        /\ StronglySorted (older float) selected)
  /\ (limit < - 2 ^ 63 \/ 2 ^ 63 <= limit ->
      get_conversation_history float channel limit db = Exception).
Proof.
  split; [|split; [apply history_unbounded|apply history_overflow]].
  intros Hlimit.
  destruct (history_selection float channel limit db Hlimit)
    as (selected & earlier & Heq & Hperm & Hsorted & Hrecent & Hlen).
  exists selected, earlier.
  assert (Hin : forall r, r ∈ selected ->
                r ∈ where_channel float channel (messages db)).
  { intros r Hr. rewrite Hperm. apply elem_of_app. now right. }
  repeat split; try assumption.
  - apply Forall_forall. intros r Hr. apply Hin in Hr.
    unfold where_channel in Hr. now apply list_elem_of_filter in Hr as [? ?].
  - intros Hnone. rewrite Hnone in Hlen. simpl in Hlen.
    destruct selected; [now rewrite Heq|simpl in Hlen; lia].
  - intros Hchron. unfold chronological in Hchron.
    pose proof (StronglySorted_filter _ (fun msg => channel_id msg = channel)
                  _ Hchron) as Hrows.
    fold (where_channel float channel (messages db)) in Hrows.
    assert (Hnd : NoDup selected).
    { apply (StronglySorted_NoDup _ _ ) in Hrows; [|intros x [Hx _]; lia].
      rewrite Hperm in Hrows. now apply NoDup_app in Hrows as (_ & _ & ?). }
    apply (StronglySorted_refine (older float)); [assumption|assumption|].
    intros a b Ha Hb Hab Hold.
    destruct (StronglySorted_compare _ _ a b Hrows (Hin a Ha) (Hin b Hb))
      as [?|[[? _]|[_ Hlt]]]; [contradiction|assumption|].
    unfold str_ltb, older in *. rewrite Hold in Hlt. discriminate.
Qed.

End Claims.

Lemma db_in_order_chronological : chronological unit (db_in_order unit []).
Proof.
  unfold chronological. simpl. repeat constructor; vm_compute; reflexivity.
Qed.

Lemma history_recent_oldest_first_witness :
  0 <= 2 < 2 ^ 63
  /\ exists selected : list (Row unit),
       get_conversation_history unit (py "c1") 2 (db_in_order unit [])
       = Ok (map (entry_of unit) selected)
       /\ map e_id (map (entry_of unit) selected) = [1; 2]
       /\ StronglySorted (older unit) selected
       /\ StronglySorted (fun a b => id a < id b) selected.
Proof.
  split; [split; [lia|reflexivity]|].
  destruct (proj1 (history_recent_oldest_first unit (py "c1") 2
                     (db_in_order unit []))
              ltac:(split; [lia|reflexivity]))
    as (selected & earlier & Heq & _ & _ & Hold & _ & _ & _ & Hid).
  exists selected. split; [exact Heq|]. split; [|split].
  - assert (Hrun : get_conversation_history unit (py "c1") 2
                     (db_in_order unit [])
                   = Ok (map (entry_of unit) (messages (db_in_order unit []))))
      by (vm_compute; reflexivity).
    rewrite Hrun in Heq. injection Heq as <-. vm_compute. reflexivity.
  - exact Hold.
  - apply Hid, db_in_order_chronological.
Defined.

(** C5, as stated, fails twice.  With limit -1 SQLite applies no limit:
    the query returns the one row of the channel, which is more than -1
    entries.  And when a request that read the clock first is stored
    second, the rows come back with ids 2, 1: in timestamp order, not in id
    order. *)
Lemma history_negative_limit_or_overtaken :
  (exists entries,
     get_conversation_history unit (py "c1") (-1) (db_without_vector unit)
     = Ok entries
     /\ ~ (Z.of_nat (length entries) <= -1))
  /\ exists entries,
       get_conversation_history unit (py "c1") 10 (db_overtaken unit [])
       = Ok entries
       /\ map (e_id) entries = [2; 1].
Proof.
  split; eexists; (split; [vm_compute; reflexivity|]).
  - simpl. lia.
  - reflexivity.
Qed.

Section Bugs.
Variable float : Type.
Variable cosine : list float -> list float -> float.
Variable float_leb : float -> float -> bool.
Variable isfinite : float -> bool.

(** What the similarity query returns when it returns: rows of the channel,
    each with a vector. *)
Lemma similarity_results (channel : str) (call : embedding_call float)
    (limit : Z) (db : DB float) (entries : list Entry) :
  get_relevant_context float cosine float_leb isfinite channel call limit db = Ok entries ->
  exists rows : list (Row float),
    entries = map (entry_of float) rows
    /\ Forall (fun r => r ∈ messages db /\ channel_id r = channel
                        /\ embedding r <> None) rows.
Proof.
  unfold get_relevant_context. destruct (get_embedding float call) as [q|]; [|discriminate].
  destruct (where_channel float channel (messages db)) as [|r0 rows0] eqn:Hrows.
  { intros H. injection H as H. subst entries. exists [].
    split; [reflexivity|constructor]. }
  unfold cosine_similarity, check_pairwise_arrays.
  destruct q as [q|]; [|discriminate].
  change (mapM (fun v => v) [Some q]) with (Some [q]).
  destruct (mapM (fun v => v) (map (embedding) (r0 :: rows0))) as [[|y0 ys]|] eqn:Hys;
    [discriminate| |discriminate].
  destruct (_ && _); [|discriminate]. simpl map. cbv beta iota.
  destruct (mapM (fun i : nat => (r0 :: rows0) !! i) _) as [rel|] eqn:Hrel;
    [|discriminate].
  intros H. injection H as H. subst entries. exists rel. split; [reflexivity|].
  apply Forall_forall. intros r Hr.
  apply mapM_Some in Hrel.
  destruct (proj1 (list_elem_of_lookup _ _) Hr) as [k Hk].
  destruct (Forall2_lookup_r _ _ _ _ _ Hrel Hk) as (i & _ & Hi).
  apply list_elem_of_lookup_2 in Hi. rewrite <- Hrows in Hi.
  unfold where_channel in Hi. apply list_elem_of_filter in Hi as [Hc Hin].
  repeat split; [assumption|assumption|].
  intros Hnone. rewrite <- Hrows in Hys. apply mapM_Some in Hys.
  assert (Hr' : r ∈ where_channel float channel (messages db))
    by (apply list_elem_of_filter; split; assumption).
  apply list_elem_of_lookup in Hr' as [j Hj].
  assert (Hj' : map embedding (where_channel float channel (messages db)) !! j
                = Some None).
  { change (map embedding) with (fmap (M:=list) (embedding (float:=float))).
    rewrite list_lookup_fmap, Hj. simpl. now rewrite Hnone. }
  destruct (Forall2_lookup_l _ _ _ _ _ Hys Hj') as (y & _ & Hy). discriminate.
Qed.

(** C4 at the failing input: the channel holds one message, stored while
    the embedding backend answered 503, so without a vector.  Whatever the
    query vector and the limit, the similarity query raises; it does not
    return the empty sequence. *)
Theorem similarity_query_raises_without_vectors (q : list float) (limit : Z) :
  get_relevant_context float cosine float_leb isfinite (py "c1") (Answered 200 q) limit
    (db_without_vector float) = Exception.
Proof. reflexivity. Qed.

(** What [add_message] does when the embedding backend answers with a
    status other than 200: the row is stored without a vector and the
    reply is a success with the new id. *)
Lemma add_message_without_vector (now : str) (status : Z) (v : list float)
    (message : Message) (db : DB float) :
  status <> 200 ->
  exists row,
    add_message float now (Answered status v) message db
    = (Ok {| status := py "success"; message_id := lastrowid db + 1 |},
       {| messages := messages db ++ [row]; lastrowid := lastrowid db + 1 |})
    /\ embedding row = None /\ id row = lastrowid db + 1
    /\ content row = m_content message.
Proof.
  intros Hs. unfold add_message, get_embedding.
  destruct (Z.eqb_spec status 200); [contradiction|].
  eexists. split; [reflexivity|]. repeat split.
Qed.

(** C6 at the failing input: the embedding request raises (the backend is
    unreachable).  Nothing in [get_embedding] or [add_message] catches the
    exception, so it leaves [add_message] before the INSERT: no row is
    stored and no success is returned. *)
Theorem add_message_lost_when_embedding_raises (now : str) (db : DB float) :
  add_message float now Failed greeting db = (Exception, db).
Proof. reflexivity. Qed.

End Bugs.

End StoreClaims.

(** ** The dispatcher *)

Module DispatcherFacts.
Import PyStr Chunking ChunkingFacts MetaLLM DispatcherSpec.

(** A bot whose name is an accented capital is named by a message that has
    the letter in lower case. *)
Lemma accented_name_is_found :
  names_bot {| user_id := 100; name := ["201"%char]; bot := true |}
            {| id := 16; channel := 7; author := alice;
               content := ["c"; "a"; "f"; "233"]%char;
               mention_everyone := false; mentions := []; reference := None |}
  = true.
Proof. reflexivity. Qed.

Lemma draining_channel_of (c : Z) (p : Point) :
  draining c p = true <-> channel_of p = Some c.
Proof.
  destruct p; simpl; split; try discriminate;
    try (intros H; apply Z.eqb_eq in H; now subst);
    intros [= ->]; apply Z.eqb_refl.
Qed.

Lemma in_flight_draining (c : Z) (p : Point) :
  in_flight c p = true -> draining c p = true.
Proof. destruct p; simpl; try discriminate; auto. Qed.

(** A predicate that holds at one index at most selects one element at
    most. *)
Lemma filter_at_most_one {A} (f : A -> bool) (l : list A) :
  (forall (i j : nat) (p q : A),
     l !! i = Some p -> l !! j = Some q -> f p = true -> f q = true -> i = j) ->
  (length (List.filter f l) <= 1)%nat.
Proof.
  induction l as [|x l IH]; intros Huniq; simpl; [lia|].
  assert (IHl : (length (List.filter f l) <= 1)%nat).
  { apply IH. intros i j p q Hi Hj Hp Hq.
    assert (S i = S j) by (eapply Huniq; eauto). lia. }
  destruct (f x) eqn:Hx; [|exact IHl]. simpl.
  destruct (List.filter f l) as [|y ys] eqn:Hf; [simpl; lia|].
  assert (Hy : In y (List.filter f l)) by (rewrite Hf; now left).
  apply filter_In in Hy as [Hy Hfy].
  apply list_elem_of_In, list_elem_of_lookup in Hy as [k Hk].
  assert (0%nat = S k) by (eapply (Huniq 0%nat (S k) x y); eauto).
  lia.
Qed.

Lemma filter_length_mono {A} (f g : A -> bool) (l : list A) :
  (forall x, f x = true -> g x = true) ->
  (length (List.filter f l) <= length (List.filter g l))%nat.
Proof.
  intros Hfg. induction l as [|x l IH]; simpl; [lia|].
  destruct (f x) eqn:Hf.
  - rewrite (Hfg x Hf). simpl. lia.
  - destruct (g x); simpl; lia.
Qed.

(** Lookups in the task list after a step: the resumed task has its new
    point, the others are where they were, and the tasks created by the
    step are in no [try] block. *)
Lemma lookup_updated (l extra : list Point) (me i : nat) (p' q : Point) (c : Z) :
  Forall (fun q => channel_of q = None) extra ->
  (<[me := p']> (l ++ extra)) !! i = Some q -> channel_of q = Some c ->
  (i = me /\ q = p') \/ (i <> me /\ l !! i = Some q).
Proof.
  intros Hextra Hi Hq. destruct (decide (i = me)) as [->|Hne].
  - left. split; [reflexivity|].
    destruct (decide (me < length (l ++ extra))%nat) as [Hlt|Hge].
    + rewrite list_lookup_insert_eq in Hi by exact Hlt. congruence.
    + rewrite list_insert_ge in Hi by lia.
      apply lookup_lt_Some in Hi. lia.
  - right. split; [exact Hne|].
    rewrite list_lookup_insert_ne in Hi by congruence.
    destruct (decide (i < length l)%nat) as [Hlt|Hge].
    + now rewrite lookup_app_l in Hi.
    + rewrite lookup_app_r in Hi by lia.
      apply list_elem_of_lookup_2 in Hi. rewrite Forall_forall in Hextra.
      rewrite (Hextra q Hi) in Hq. discriminate.
Qed.

Lemma lookup_updated_other (l extra : list Point) (me i : nat) (p' q : Point) :
  l !! i = Some q -> i <> me -> (<[me := p']> (l ++ extra)) !! i = Some q.
Proof.
  intros Hi Hne. rewrite list_lookup_insert_ne by congruence.
  rewrite lookup_app_l; [exact Hi|]. now apply lookup_lt_Some in Hi.
Qed.

Lemma lookup_updated_me (l extra : list Point) (me : nat) (p p' : Point) :
  l !! me = Some p -> (<[me := p']> (l ++ extra)) !! me = Some p'.
Proof.
  intros Hme. apply list_lookup_insert_eq. rewrite length_app.
  apply lookup_lt_Some in Hme. lia.
Qed.

(** The three effects keep the exclusion. *)
Lemma exclusive_update (P P' : gset Z) (l extra : list Point) (me : nat)
    (p p' : Point) :
  exclusive P l -> l !! me = Some p ->
  Forall (fun q => channel_of q = None) extra ->
  effect p p' P P' ->
  exclusive P' (<[me := p']> (l ++ extra)).
Proof.
  intros Hex Hme Hextra Heff c. destruct (Hex c) as [Hin Huniq].
  assert (Hsame : forall i j a b,
            (<[me := p']> (l ++ extra)) !! i = Some a ->
            (<[me := p']> (l ++ extra)) !! j = Some b ->
            channel_of a = Some c -> channel_of b = Some c ->
            (channel_of p' = Some c -> channel_of p = Some c \/ c ∉ P) ->
            i = j).
  { intros i j a b Hi Hj Ha Hb Hnew.
    destruct (lookup_updated _ _ _ _ _ _ _ Hextra Hi Ha) as [[-> ->]|[Hi1 Hi2]];
    destruct (lookup_updated _ _ _ _ _ _ _ Hextra Hj Hb) as [[-> ->]|[Hj1 Hj2]];
      [reflexivity| | |eapply Huniq; eauto].
    - destruct (Hnew Ha) as [Hp|Hp].
      + eapply Huniq; eauto.
      + exfalso. apply Hp, Hin. eauto.
    - destruct (Hnew Hb) as [Hp|Hp].
      + eapply Huniq; eauto.
      + exfalso. apply Hp, Hin. eauto. }
  destruct Heff as [[Hch ->]|[(c' & Hp & Hp' & Hfree & ->)|(c' & Hp & Hp' & ->)]].
  - split.
    + rewrite Hin. split; intros (i & q & Hi & Hq).
      * destruct (decide (i = me)) as [->|Hne].
        -- exists me, p'. split; [eapply lookup_updated_me; eauto|].
           rewrite Hme in Hi. injection Hi as <-. congruence.
        -- exists i, q. split; [now apply lookup_updated_other|exact Hq].
      * destruct (lookup_updated _ _ _ _ _ _ _ Hextra Hi Hq) as [[-> ->]|[_ Hi2]].
        -- exists me, p. split; [exact Hme|congruence].
        -- eauto.
    + intros i j a b Hi Hj Ha Hb. eapply Hsame; eauto.
      intros Hc. left. congruence.
  - split.
    + rewrite elem_of_union, elem_of_singleton, Hin.
      split.
      * intros [(i & q & Hi & Hq)| ->].
        -- assert (i <> me) by (intros ->; congruence).
           exists i, q. split; [now apply lookup_updated_other|exact Hq].
        -- exists me, p'. split; [eapply lookup_updated_me; eauto|exact Hp'].
      * intros (i & q & Hi & Hq).
        destruct (lookup_updated _ _ _ _ _ _ _ Hextra Hi Hq) as [[-> ->]|[_ Hi2]].
        -- right. congruence.
        -- left. eauto.
    + intros i j a b Hi Hj Ha Hb. eapply Hsame; eauto.
      intros Hc. right. congruence.
  - split.
    + rewrite elem_of_difference, elem_of_singleton, Hin.
      split.
      * intros [(i & q & Hi & Hq) Hne].
        assert (i <> me) by (intros ->; congruence).
        exists i, q. split; [now apply lookup_updated_other|exact Hq].
      * intros (i & q & Hi & Hq).
        destruct (lookup_updated _ _ _ _ _ _ _ Hextra Hi Hq) as [[-> ->]|[Hne Hi2]];
          [congruence|].
        split; [eauto|]. intros ->. apply Hne. eapply Huniq; eauto.
    + intros i j a b Hi Hj Ha Hb. eapply Hsame; eauto.
      intros Hc. congruence.
Qed.

Lemma effect_stay (p p' : Point) (P : gset Z) :
  channel_of p = channel_of p' -> effect p p' P P.
Proof. intros H. left. now split. Qed.

Lemma effect_enter (p p' : Point) (P : gset Z) (c : Z) :
  channel_of p = None -> channel_of p' = Some c -> c ∉ P ->
  effect p p' P (P ∪ {[c]}).
Proof. intros ? ? ?. right. left. exists c. repeat split; assumption. Qed.

Lemma effect_leave (p p' : Point) (P : gset Z) (c : Z) :
  channel_of p = Some c -> channel_of p' = None ->
  effect p p' P (P ∖ {[c]}).
Proof. intros ? ?. right. right. exists c. repeat split; assumption. Qed.

Lemma enter_leave (P : gset Z) (c : Z) : c ∉ P -> (P ∪ {[c]}) ∖ {[c]} = P.
Proof.
  intros Hc. apply set_eq. intros x.
  rewrite elem_of_difference, elem_of_union, elem_of_singleton.
  split.
  - intros [[Hx|Hx] Hne]; [assumption|contradiction].
  - intros Hx. split; [now left|]. intros ->. contradiction.
Qed.

Lemma extra_none (l : list Point) :
  exists extra, l = l ++ extra /\ Forall (fun q => channel_of q = None) extra.
Proof. exists []. split; [now rewrite app_nil_r|constructor]. Qed.

Lemma extra_scheduled (l : list Point) (c : Z) :
  exists extra, l ++ [Scheduled c] = l ++ extra
    /\ Forall (fun q => channel_of q = None) extra.
Proof. exists [Scheduled c]. split; [reflexivity|repeat constructor]. Qed.

Section Bot.
Variable bot_user : User.

Abbreviation relevant := (relevant bot_user).
Abbreviation drain := (drain bot_user).
Abbreviation resume := (resume bot_user).
Abbreviation step := (step bot_user).
Abbreviation run := (run bot_user).

(** The loop from its test to the next await, spelt out: [continue] comes
    back to the test once, and then the channel has no entry. *)
Lemma drain_once (n : nat) (c : Z) (st : State) :
  drain (S n) c st =
  match message_queue st !! c with
  | None => Some (leave c st)
  | Some messages =>
      let st1 := emit (Popped c messages)
                   (set_queue (delete c (message_queue st)) st) in
      if existsb (relevant_raises bot_user) messages then Some (fail c st1)
      else
        match List.filter relevant messages with
        | [] => Some (leave c st1)
        | msg :: rest => Some (next_message c (msg :: rest) st1)
        end
  end.
Proof.
  simpl. destruct (message_queue st !! c) as [messages|]; [|reflexivity].
  destruct (existsb _ messages); [reflexivity|].
  destruct (List.filter relevant messages); [|reflexivity].
  destruct n; simpl; now rewrite lookup_delete_eq.
Qed.

(** All the ways a task can be resumed. *)
Ltac resume_cases H :=
  match type of H with
  | MetaLLM.resume _ ?p ?o _ = _ =>
      unfold MetaLLM.resume in H; destruct p, o; cbv beta iota in H;
      try discriminate H
  end;
  unfold start, enqueue, fail in H;
  rewrite ?drain_once in H;
  unfold fail, next_message, leave in H;
  repeat (case_match; simplify_eq; try discriminate);
  simplify_eq;
  repeat match goal with
         | G : _ && _ = true |- _ => apply andb_prop in G; destruct G
         | G : bool_decide _ = true |- _ => apply bool_decide_eq_true_1 in G
         end.

(** What resuming a task does to [processing_channels]. *)
Lemma resume_effect (p p' : Point) (o : Outcome) (st st' : State) :
  resume p o st = Some (st', p') ->
  effect p p' (processing_channels st) (processing_channels st').
Proof.
  intros H. resume_cases H; simpl;
    first [ apply effect_stay; reflexivity
          | apply effect_leave; reflexivity
          | apply effect_enter; [reflexivity|reflexivity|assumption]
          | rewrite enter_leave by assumption; apply effect_stay; reflexivity ].
Qed.

(** What it does to the task list, the resumed task apart: at most one
    task is added, scheduled and not started. *)
Lemma resume_tasks (p p' : Point) (o : Outcome) (st st' : State) :
  resume p o st = Some (st', p') ->
  exists extra, tasks st' = tasks st ++ extra
    /\ Forall (fun q => channel_of q = None) extra.
Proof.
  intros H. resume_cases H; simpl;
    first [ apply extra_none | apply extra_scheduled ].
Qed.

(** The exclusion holds at the start and every step keeps it. *)
Lemma exclusive_initial : exclusive (processing_channels initial) (tasks initial).
Proof.
  intros c. split.
  - split; [intros H; now apply not_elem_of_empty in H|].
    intros (i & q & Hi & _). destruct i; discriminate.
  - intros i j p q Hi. destruct i; discriminate.
Qed.

Lemma exclusive_extend (P : gset Z) (l extra : list Point) :
  exclusive P l -> Forall (fun q => channel_of q = None) extra ->
  exclusive P (l ++ extra).
Proof.
  intros Hex Hextra c. destruct (Hex c) as [Hin Huniq].
  assert (Hold : forall i q, (l ++ extra) !! i = Some q ->
                 channel_of q = Some c -> l !! i = Some q).
  { intros i q Hi Hq. destruct (decide (i < length l)%nat) as [Hlt|Hge].
    - now rewrite lookup_app_l in Hi.
    - rewrite lookup_app_r in Hi by lia.
      apply list_elem_of_lookup_2 in Hi. rewrite Forall_forall in Hextra.
      rewrite (Hextra q Hi) in Hq. discriminate. }
  split.
  - rewrite Hin. split; intros (i & q & Hi & Hq); exists i, q; split; auto.
    rewrite lookup_app_l; [exact Hi|]. now apply lookup_lt_Some in Hi.
  - intros i j a b Hi Hj Ha Hb. eapply Huniq; eauto.
Qed.

Lemma exclusive_step (st st' : State) (a : Action) :
  exclusive (processing_channels st) (tasks st) ->
  step st a = Some st' ->
  exclusive (processing_channels st') (tasks st').
Proof.
  intros Hex Hstep. destruct a as [message draw|me outcome]; simpl in Hstep.
  - injection Hstep as <-. unfold deliver.
    destruct (user_eqb (author message) bot_user); [exact Hex|].
    destruct (deleted_reference message); [exact Hex|]. simpl.
    apply exclusive_extend; [exact Hex|repeat constructor].
  - destruct (tasks st !! me) as [p|] eqn:Hme; [|discriminate].
    destruct (resume p outcome st) as [[st1 p']|] eqn:Hres; [|discriminate].
    injection Hstep as <-. simpl.
    destruct (resume_tasks _ _ _ _ _ Hres) as (extra & -> & Hextra).
    eapply exclusive_update; eauto using resume_effect.
Qed.

Lemma exclusive_run (schedule : list Action) (st st' : State) :
  exclusive (processing_channels st) (tasks st) ->
  run st schedule = Some st' ->
  exclusive (processing_channels st') (tasks st').
Proof.
  revert st. induction schedule as [|a schedule IH]; intros st Hex Hrun;
    simpl in Hrun.
  - now injection Hrun as <-.
  - destruct (step st a) as [st1|] eqn:Hstep; [|discriminate].
    eapply IH; [|exact Hrun]. eapply exclusive_step; eauto.
Qed.

(** *** Nothing is lost or doubled *)

Lemma enqueued_snoc (c : Z) (l : list Event) (e : Event) :
  enqueued c (l ++ [e]) =
  enqueued c l ++ match e with
                  | Enqueued c' m => if c' =? c then [m] else []
                  | _ => []
                  end.
Proof.
  unfold enqueued. rewrite omap_app. f_equal.
  destruct e; try reflexivity. simpl. now destruct (_ =? _).
Qed.

Lemma batches_snoc (c : Z) (l : list Event) (e : Event) :
  batches c (l ++ [e]) =
  batches c l ++ match e with
                 | Popped c' ms => if c' =? c then [ms] else []
                 | _ => []
                 end.
Proof.
  unfold batches. rewrite omap_app. f_equal.
  destruct e; try reflexivity. simpl. now destruct (_ =? _).
Qed.

Lemma conserved_emit (e : Event) (st : State) :
  match e with Enqueued _ _ | Popped _ _ => False | _ => True end ->
  conserved st -> conserved (emit e st).
Proof.
  intros He Hc c. specialize (Hc c). unfold pending in *. simpl.
  rewrite enqueued_snoc, batches_snoc.
  destruct e; try contradiction; now rewrite !app_nil_r.
Qed.

Lemma conserved_set_tasks (l : list Point) (st : State) :
  conserved st -> conserved (set_tasks l st).
Proof. intros Hc c. exact (Hc c). Qed.

Lemma conserved_set_processing (P : gset Z) (st : State) :
  conserved st -> conserved (set_processing P st).
Proof. intros Hc c. exact (Hc c). Qed.

(** The [append] of [on_message]. *)
Lemma conserved_append (c0 : Z) (m : Message) (st : State) :
  conserved st ->
  conserved (emit (Enqueued c0 m)
               (set_queue (<[c0 := pending c0 st ++ [m]]> (message_queue st)) st)).
Proof.
  intros Hc c. specialize (Hc c). unfold pending in *. simpl.
  rewrite enqueued_snoc, batches_snoc, app_nil_r.
  destruct (Z.eqb_spec c0 c) as [->|Hne].
  - rewrite lookup_insert_eq. simpl. rewrite Hc. now rewrite app_assoc.
  - rewrite lookup_insert_ne by exact Hne. now rewrite app_nil_r.
Qed.

(** The [pop] of the worker. *)
Lemma conserved_pop (c0 : Z) (messages : list Message) (st : State) :
  message_queue st !! c0 = Some messages ->
  conserved st ->
  conserved (emit (Popped c0 messages)
               (set_queue (delete c0 (message_queue st)) st)).
Proof.
  intros Hq Hc c. specialize (Hc c). unfold pending in *. simpl.
  rewrite enqueued_snoc, batches_snoc, app_nil_r.
  destruct (Z.eqb_spec c0 c) as [->|Hne].
  - rewrite lookup_delete_eq. rewrite Hq in Hc. simpl in *.
    rewrite concat_app. simpl. now rewrite !app_nil_r.
  - rewrite lookup_delete_ne by exact Hne. now rewrite app_nil_r.
Qed.

Lemma conserved_resume (p p' : Point) (o : Outcome) (st st' : State) :
  conserved st -> resume p o st = Some (st', p') -> conserved st'.
Proof.
  intros Hc H. resume_cases H;
    repeat first
      [ assumption
      | apply conserved_emit; [exact I|]
      | apply conserved_set_processing
      | apply conserved_set_tasks
      | apply conserved_pop; [assumption|] ].
  - pose proof (conserved_append (channel message) message st Hc) as Ha.
    unfold pending in Ha. exact Ha.
  - pose proof (conserved_append (channel message) message st Hc) as Ha.
    intros c. specialize (Ha c). unfold pending in *. simpl in *.
    rewrite lookup_insert_eq. simpl. rewrite insert_insert_eq.
    match goal with G : message_queue st !! _ = None |- _ => rewrite G in Ha end.
    exact Ha.
Qed.

Lemma conserved_step (st st' : State) (a : Action) :
  conserved st -> step st a = Some st' -> conserved st'.
Proof.
  intros Hc Hstep. destruct a as [message draw|me outcome]; simpl in Hstep.
  - injection Hstep as <-. unfold deliver.
    destruct (user_eqb (author message) bot_user); [exact Hc|].
    destruct (deleted_reference message); [exact Hc|].
    apply conserved_set_tasks, conserved_emit; [exact I|exact Hc].
  - destruct (tasks st !! me) as [p|]; [|discriminate].
    destruct (resume p outcome st) as [[st1 p']|] eqn:Hres; [|discriminate].
    injection Hstep as <-. apply conserved_set_tasks.
    eapply conserved_resume; eauto.
Qed.

Lemma conserved_run (schedule : list Action) (st st' : State) :
  conserved st -> run st schedule = Some st' -> conserved st'.
Proof.
  revert st. induction schedule as [|a schedule IH]; intros st Hc Hrun;
    simpl in Hrun.
  - now injection Hrun as <-.
  - destruct (step st a) as [st1|] eqn:Hstep; [|discriminate].
    eapply IH; [|exact Hrun]. eapply conserved_step; eauto.
Qed.

Lemma conserved_initial : conserved initial.
Proof. intros c. reflexivity. Qed.

(** *** What is pending has a taker *)


Lemma lookup_insert_app_l (l extra : list Point) (me : nat) (p p' : Point) :
  l !! me = Some p -> <[me := p']> (l ++ extra) = <[me := p']> l ++ extra.
Proof.
  intros Hme. apply insert_app_l. now apply lookup_lt_Some in Hme.
Qed.






(** A task that is not done can be resumed with an outcome that is not an
    exception. *)
Lemma can_go_on (st : State) (i : nat) (p : Point) :
  tasks st !! i = Some p -> p <> Done ->
  exists o st', o <> Raised /\ step st (Resume i o) = Some st'.
Proof.
  intros Hi Hp. unfold MetaLLM.step. rewrite Hi.
  assert (Hgo : exists o r, o <> Raised /\ resume p o st = Some r).
  { destruct p; try congruence;
      try (exists Returned; eexists; split; [discriminate|reflexivity]).
    - exists Returned. simpl. destruct (should_process_raises _ _);
        eexists; (split; [discriminate|reflexivity]).
    - exists Returned. unfold MetaLLM.resume, start.
      destruct (_ && _); [rewrite drain_once|]; repeat case_match;
        eexists; split; try discriminate; reflexivity.
    - exists (Completion Failed). simpl. eexists. split; [discriminate|reflexivity].
    - exists Returned. simpl.
      destruct (split_loop_total (length response_content) response_content
                  ltac:(lia)) as (parts & Hparts & Hne & _).
      unfold split_message. rewrite Hparts.
      destruct parts; [contradiction|]. eexists. split; [discriminate|reflexivity].
    - exists Returned. simpl. destruct parts; eexists;
        (split; [discriminate|reflexivity]).
    - exists Returned. unfold MetaLLM.resume. rewrite drain_once.
      repeat case_match; eexists; split; try discriminate; reflexivity. }
  destruct Hgo as (o & [st1 p'] & Ho & Hres). exists o. rewrite Hres. eauto.
Qed.

(** A step pops nothing from the queue of a channel, or all of it. *)
Lemma pop_takes_all (st st' : State) (a : Action) (c : Z) :
  step st a = Some st' ->
  batches c (log st') = batches c (log st)
  \/ exists messages,
       message_queue st !! c = Some messages
       /\ batches c (log st') = batches c (log st) ++ [messages]
       /\ message_queue st' !! c = None.
Proof.
  intros Hstep. destruct a as [message draw|me outcome]; simpl in Hstep.
  - injection Hstep as <-. unfold deliver.
    destruct (user_eqb (author message) bot_user); [now left|].
    destruct (deleted_reference message); [now left|].
    left. simpl. now rewrite batches_snoc, app_nil_r.
  - destruct (tasks st !! me) as [p|] eqn:Hme; [|discriminate].
    destruct (resume p outcome st) as [[st1 p']|] eqn:Hres; [|discriminate].
    injection Hstep as <-. simpl.
    resume_cases Hres; simpl; rewrite ?batches_snoc, ?app_nil_r;
      try (now left);
      (destruct (Z.eqb_spec channel_id c) as [->|Hne];
       [ right; eexists; split; [eassumption|]; split; [reflexivity|];
         apply lookup_delete_eq
       | left; now rewrite ?app_nil_r ]).
Qed.

(** A worker that is resumed without an exception ends only from its
    sleep, leaving no entry for its channel; and from its sleep it ends
    when there is no entry. *)
Lemma worker_stops (st st' : State) (i : nat) (p : Point) (c : Z) (o : Outcome) :
  tasks st !! i = Some p -> channel_of p = Some c -> o <> Raised ->
  step st (Resume i o) = Some st' ->
  (tasks st' !! i = Some Done ->
   p = AtSleep c /\ message_queue st' !! c = None
   /\ c ∉ processing_channels st')
  /\ (p = AtSleep c -> message_queue st !! c = None ->
      tasks st' !! i = Some Done).
Proof.
  intros Hi Hc Ho Hstep. unfold MetaLLM.step in Hstep. rewrite Hi in Hstep.
  destruct (resume p o st) as [[st1 p']|] eqn:Hres; [|discriminate].
  injection Hstep as <-. simpl.
  destruct (resume_tasks _ _ _ _ _ Hres) as (extra & Hextra & _).
  rewrite Hextra, (lookup_updated_me _ _ _ _ _ Hi).
  resume_cases Hres; simpl in *; simplify_eq; try congruence;
    (split; [intros [=]|intros [=]; try congruence]); try congruence;
    try (intros; reflexivity);
    repeat split; try assumption; try apply lookup_delete_eq;
    try (apply not_elem_of_difference; right; now apply elem_of_singleton).
Qed.

(** *** The reply *)

(** [send_split_message]: the parts still to send go out one per
    resumption, in order. *)
Lemma sends_in_order (st : State) (i : nat) (c : Z) (msg : Message)
    (rest : list Message) (parts : list str) :
  tasks st !! i = Some (AtSend c msg rest parts) ->
  exists st',
    run st (replicate (length parts) (Resume i Returned)) = Some st'
    /\ log st' = log st ++ map (Send (channel msg)) parts
    /\ tasks st' !! i = Some (AtSend c msg rest []).
Proof.
  revert st. induction parts as [|part parts IH]; intros st Hi.
  - exists st. simpl. rewrite app_nil_r. auto.
  - simpl. rewrite Hi. simpl.
    set (st1 := set_tasks _ _).
    destruct (IH st1) as (st' & Hrun & Hlog & Htask).
    { unfold st1. simpl. apply list_lookup_insert_eq.
      now apply lookup_lt_Some in Hi. }
    exists st'. split; [exact Hrun|]. split; [|exact Htask].
    rewrite Hlog. unfold st1. simpl. now rewrite <- app_assoc.
Qed.

Lemma sends_reply_in_order (st : State) (i : nat) (c : Z) (msg : Message)
    (rest : list Message) (text : str) (parts : list str) :
  tasks st !! i = Some (AtRecord c msg rest text) ->
  split_message text = Some parts -> parts <> [] ->
  exists st',
    run st (replicate (length parts) (Resume i Returned)) = Some st'
    /\ log st' = log st ++ map (Send (channel msg)) parts
    /\ tasks st' !! i = Some (AtSend c msg rest []).
Proof.
  intros Hi Hparts Hne. destruct parts as [|part parts]; [contradiction|].
  simpl. rewrite Hi. simpl. rewrite Hparts.
  set (st1 := set_tasks _ _).
  destruct (sends_in_order st1 i c msg rest parts) as (st' & Hrun & Hlog & Htask).
  { unfold st1. simpl. apply list_lookup_insert_eq.
    now apply lookup_lt_Some in Hi. }
  exists st'. split; [exact Hrun|]. split; [|exact Htask].
  rewrite Hlog. unfold st1. simpl. now rewrite <- app_assoc.
Qed.

(** One apology per completion without text, one record per completion
    with text. *)
Lemma apologies_snoc (l : list Event) (e : Event) :
  apologies (l ++ [e])
  = apologies l ++ match e with Reply m _ => [m] | _ => [] end.
Proof.
  unfold apologies. rewrite omap_app. f_equal. now destruct e.
Qed.

Lemma completions_without_text_snoc (l : list Event) (e : Event) :
  completions_without_text (l ++ [e])
  = completions_without_text l
    ++ match e with
       | LLMResponse _ m r => match truthy r with None => [m] | Some _ => [] end
       | _ => []
       end.
Proof.
  unfold completions_without_text. rewrite omap_app. f_equal.
  destruct e; try reflexivity. simpl. now destruct (truthy _).
Qed.

Lemma replies_recorded_snoc (l : list Event) (e : Event) :
  replies_recorded (l ++ [e])
  = replies_recorded l
    ++ match e with
       | RecordChatHistory c r =>
           if str_eqb (r_role r) (py "assistant") then [(c, r_content r)] else []
       | _ => []
       end.
Proof.
  unfold replies_recorded. rewrite omap_app. f_equal.
  destruct e; try reflexivity. simpl. now destruct (str_eqb _ _).
Qed.

Lemma completions_with_text_snoc (l : list Event) (e : Event) :
  completions_with_text (l ++ [e])
  = completions_with_text l
    ++ match e with
       | LLMResponse c _ r =>
           match truthy r with Some text => [(c, text)] | None => [] end
       | _ => []
       end.
Proof.
  unfold completions_with_text. rewrite omap_app. f_equal.
  destruct e; try reflexivity. simpl. now destruct (truthy _).
Qed.

Lemma answered_emit (e : Event) (st : State) :
  match e with
  | Reply _ _ | LLMResponse _ _ _ => False
  | RecordChatHistory _ r => str_eqb (r_role r) (py "assistant") = false
  | _ => True
  end ->
  answered st -> answered (emit e st).
Proof.
  intros He [Ha Hr]. unfold answered. simpl.
  rewrite apologies_snoc, completions_without_text_snoc,
    replies_recorded_snoc, completions_with_text_snoc, Ha, Hr.
  destruct e; try contradiction; try rewrite He; now rewrite !app_nil_r.
Qed.

Lemma answered_same_log (st st' : State) :
  log st' = log st -> answered st -> answered st'.
Proof. unfold answered. now intros ->. Qed.

Lemma answered_resume (p p' : Point) (o : Outcome) (st st' : State) :
  answered st -> resume p o st = Some (st', p') -> answered st'.
Proof.
  intros Hans H.
  resume_cases H;
    repeat first
      [ assumption
      | apply answered_emit; [exact I|]
      | eapply answered_same_log; [reflexivity|] ];
    destruct Hans as [Ha Hr]; unfold answered; simpl;
    rewrite !apologies_snoc, !completions_without_text_snoc,
      !replies_recorded_snoc, !completions_with_text_snoc, Ha, Hr;
    match goal with G : truthy _ = _ |- _ => rewrite G end;
    simpl; now rewrite !app_nil_r.
Qed.

Lemma answered_step (st st' : State) (a : Action) :
  answered st -> step st a = Some st' -> answered st'.
Proof.
  intros Hans Hstep. destruct a as [message draw|me outcome]; simpl in Hstep.
  - injection Hstep as <-. unfold deliver.
    destruct (user_eqb (author message) bot_user); [exact Hans|].
    destruct (deleted_reference message); [exact Hans|].
    apply (answered_same_log
             (emit (RecordChatHistory (channel message) (user_message message)) st));
      [reflexivity|].
    apply answered_emit; [|exact Hans]. unfold user_message. simpl r_role.
    destruct (bot (author message)); vm_compute; reflexivity.
  - destruct (tasks st !! me) as [p|]; [|discriminate].
    destruct (resume p outcome st) as [[st1 p']|] eqn:Hres; [|discriminate].
    injection Hstep as <-. apply (answered_same_log st1); [reflexivity|].
    eapply answered_resume; eauto.
Qed.

Lemma answered_run (schedule : list Action) (st st' : State) :
  answered st -> run st schedule = Some st' -> answered st'.
Proof.
  revert st. induction schedule as [|a schedule IH]; intros st Hans Hrun;
    simpl in Hrun.
  - now injection Hrun as <-.
  - destruct (step st a) as [st1|] eqn:Hstep; [|discriminate].
    eapply IH; [|exact Hrun]. eapply answered_step; eauto.
Qed.

Lemma answered_initial : answered initial.
Proof. split; reflexivity. Qed.

(** A message of a batch goes to context assembly when it passes the
    filter of the worker, and only then. *)
Lemma batch_is_filtered (st : State) (c : Z) (messages : list Message) :
  message_queue st !! c = Some messages ->
  existsb (relevant_raises bot_user) messages = false ->
  exists st',
    drain 1 c st
    = Some (st', match List.filter relevant messages with
                 | [] => Done
                 | msg :: rest => AtContext c msg rest
                 end)
    /\ forwarded (log st')
       = forwarded (log st) ++ take 1 (List.filter relevant messages).
Proof.
  intros Hq Hfine. rewrite drain_once, Hq, Hfine. unfold forwarded.
  destruct (List.filter relevant messages) as [|msg rest]; simpl;
    eexists; (split; [reflexivity|]); simpl;
    rewrite ?omap_app; simpl; now rewrite ?app_nil_r.
Qed.

(** The queues and the hands of [on_message] hold no reply to a deleted
    message: [record_user_message] has raised for those. *)
Lemma resume_record_user (p p' : Point) (o : Outcome) (st st1 : State) :
  resume p o st = Some (st1, p') ->
  exists extra, tasks st1 = tasks st ++ extra
    /\ Forall (fun q => record_user q = false) (p' :: extra).
Proof.
  intros H. resume_cases H; simpl;
    first [ exists []; split; [now rewrite app_nil_r|repeat constructor]
          | eexists [_]; split; [reflexivity|repeat constructor] ].
Qed.

Lemma lookup_record_user (l extra : list Point) (me i : nat) (p' : Point)
    (m : Message) (draw : Q) :
  Forall (fun q => record_user q = false) (p' :: extra) ->
  (<[me := p']> (l ++ extra)) !! i = Some (AtRecordUser m draw) ->
  l !! i = Some (AtRecordUser m draw).
Proof.
  intros Hno Hi. apply Forall_cons in Hno as [Hp' Hextra].
  destruct (decide (i = me)) as [->|Hne].
  - apply list_lookup_insert_Some in Hi as [(_ & -> & _)|[? _]];
      [discriminate|congruence].
  - rewrite list_lookup_insert_ne in Hi by congruence.
    apply lookup_app_Some in Hi as [Hi|[_ Hi]]; [exact Hi|].
    apply list_elem_of_lookup_2 in Hi. rewrite Forall_forall in Hextra.
    apply Hextra in Hi. discriminate.
Qed.

Lemma intact_initial : intact initial.
Proof.
  split; [intros i m d Hi; destruct i; discriminate|].
  intros c b Hb. simpl in Hb. now rewrite lookup_empty in Hb.
Qed.

Lemma intact_resume (st st1 : State) (me : nat) (p p' : Point) (o : Outcome) :
  intact st -> tasks st !! me = Some p ->
  resume p o st = Some (st1, p') ->
  intact (set_tasks (<[me := p']> (tasks st1)) st1).
Proof.
  intros [HT HQ] Hme H. split.
  - destruct (resume_record_user _ _ _ _ _ H) as (extra & Htasks & Hno).
    intros i m d Hi. simpl in Hi. rewrite Htasks in Hi.
    apply (HT i m d). eapply lookup_record_user; eauto.
  - intros c b Hb. simpl in Hb. revert Hb.
    resume_cases H; simpl; intros Hb;
      try (apply lookup_delete_Some in Hb as [_ Hb]);
      try (now apply (HQ c b));
      rewrite ?insert_insert_eq in Hb;
      (destruct (decide (c = channel message)) as [->|Hne];
       [ rewrite lookup_insert_eq in Hb; injection Hb as <-;
         apply Forall_app; split;
         [ rewrite ?lookup_insert_eq; simpl;
           first [ match goal with G : message_queue st !! _ = Some _ |- _ =>
                     rewrite G; simpl; exact (HQ _ _ G) end
                 | constructor ]
         | repeat constructor; exact (HT _ _ _ Hme) ]
       | rewrite lookup_insert_ne in Hb by congruence; now apply (HQ c b) ]).
Qed.

Lemma intact_step (st st' : State) (a : Action) :
  intact st -> step st a = Some st' -> intact st'.
Proof.
  intros Hint Hstep. destruct a as [message draw|me outcome]; simpl in Hstep.
  - injection Hstep as <-. unfold deliver.
    destruct (user_eqb (author message) bot_user); [exact Hint|].
    destruct (deleted_reference message) eqn:Hdel; [exact Hint|].
    destruct Hint as [HT HQ]. split; [|exact HQ].
    intros i m d Hi. simpl in Hi.
    apply lookup_app_Some in Hi as [Hi|[_ Hi]]; [now apply (HT i m d)|].
    apply list_lookup_singleton_Some in Hi as [_ Hi]. congruence.
  - destruct (tasks st !! me) as [p|] eqn:Hme; [|discriminate].
    destruct (resume p outcome st) as [[st1 p']|] eqn:Hres; [|discriminate].
    injection Hstep as <-. eapply intact_resume; eauto.
Qed.

Lemma intact_run (schedule : list Action) (st st' : State) :
  intact st -> run st schedule = Some st' -> intact st'.
Proof.
  revert st. induction schedule as [|a schedule IH]; intros st Hint Hrun;
    simpl in Hrun.
  - now injection Hrun as <-.
  - destruct (step st a) as [st1|] eqn:Hstep; [|discriminate].
    eapply IH; [|exact Hrun]. eapply intact_step; eauto.
Qed.

(** So the filter of the worker does not raise. *)
Lemma intact_filter (st : State) (c : Z) (messages : list Message) :
  intact st -> message_queue st !! c = Some messages ->
  existsb (relevant_raises bot_user) messages = false.
Proof.
  intros [_ HQ] Hq. specialize (HQ c messages Hq). clear Hq.
  induction HQ as [|m l Hm _ IH]; [reflexivity|]. simpl.
  unfold relevant_raises at 1. rewrite Hm, andb_false_r. exact IH.
Qed.

(** A step whose awaited call does not raise logs no error, in a state
    where the filter of the worker does not raise. *)
Lemma resume_no_error (p p' : Point) (o : Outcome) (st st1 : State) (c : Z) :
  intact st -> o <> Raised -> resume p o st = Some (st1, p') ->
  LoggedError c ∈ log st1 -> LoggedError c ∈ log st.
Proof.
  intros Hint Ho H.
  resume_cases H; try congruence;
    try (match goal with
         | G : _ !! _ = Some ?l, E : existsb _ ?l = true |- _ =>
             pose proof (intact_filter st _ _ Hint G); congruence
         end);
    simpl; rewrite ?elem_of_app, ?list_elem_of_singleton;
    first [ intros [[He|He]|He]; first [exact He|discriminate He]
          | intros [He|He]; first [exact He|discriminate He]
          | intros He; exact He ].
Qed.

Lemma step_no_error (st st' : State) (a : Action) (c : Z) :
  intact st -> raises a = false -> step st a = Some st' ->
  LoggedError c ∈ log st' -> LoggedError c ∈ log st.
Proof.
  intros Hint Hraise Hstep. destruct a as [message draw|me outcome];
    simpl in Hstep.
  - injection Hstep as <-. unfold deliver.
    destruct (user_eqb (author message) bot_user); [auto|].
    destruct (deleted_reference message); [auto|]. simpl.
    rewrite elem_of_app, list_elem_of_singleton. intros [He|He];
      [exact He|discriminate He].
  - destruct (tasks st !! me) as [p|] eqn:Hme; [|discriminate].
    destruct (resume p outcome st) as [[st1 p']|] eqn:Hres; [|discriminate].
    injection Hstep as <-. simpl. eapply resume_no_error; eauto.
    intros ->. discriminate.
Qed.

Lemma run_no_error (schedule : list Action) (st st' : State) (c : Z) :
  intact st -> exception_free schedule -> run st schedule = Some st' ->
  unfailed c st -> unfailed c st'.
Proof.
  revert st. induction schedule as [|a schedule IH];
    intros st Hint Hfree Hrun Hc; simpl in Hrun.
  - now injection Hrun as <-.
  - destruct (step st a) as [st1|] eqn:Hstep; [|discriminate].
    apply Forall_cons in Hfree as [Ha Hfree].
    apply (IH st1); [eapply intact_step; eauto|exact Hfree|exact Hrun|].
    intros He. apply Hc. eapply step_no_error; eauto.
Qed.

(** *** What is pending has a taker while no worker of the channel has
    failed *)

Lemma watched_kept (st st2 : State) (me : nat) (p p' : Point) :
  watched st -> tasks st !! me = Some p ->
  tasks st2 = <[me := p']> (tasks st) ->
  (forall c b, message_queue st2 !! c = Some b ->
     message_queue st !! c = Some b
     /\ (c ∈ processing_channels st ->
         c ∈ processing_channels st2 \/ LoggedError c ∈ log st2)
     /\ (p <> Scheduled c \/ c ∈ processing_channels st2)
     /\ (LoggedError c ∈ log st -> LoggedError c ∈ log st2)) ->
  watched st2.
Proof.
  intros Hw Hme Htasks Hside c b Hb.
  destruct (Hside c b Hb) as (Hold & HP & Hp & Hlog).
  destruct (Hw c b Hold) as [Hne [Hin|[[i Hi]|He]]]; (split; [exact Hne|]).
  - destruct (HP Hin); auto.
  - destruct Hp as [Hp|Hp]; [|now left].
    right. left. exists i. rewrite Htasks.
    rewrite list_lookup_insert_ne; [exact Hi|]. intros ->. congruence.
  - auto.
Qed.

Lemma in_log_snoc (l : list Event) (e e' : Event) :
  e ∈ l -> e ∈ l ++ [e'].
Proof. intros H. apply elem_of_app. now left. Qed.

Lemma error_logged (l : list Event) (c : Z) :
  LoggedError c ∈ l ++ [LoggedError c].
Proof. apply elem_of_app. right. now left. Qed.

Lemma stays_in (P : gset Z) (c c0 : Z) : c0 <> c -> c ∈ P -> c ∈ P ∖ {[c0]}.
Proof.
  intros Hne Hc. apply elem_of_difference. split; [exact Hc|].
  intros Hin. apply elem_of_singleton in Hin. congruence.
Qed.

Lemma watched_resume (st st1 : State) (me : nat) (p p' : Point) (o : Outcome) :
  watched st -> tasks st !! me = Some p ->
  resume p o st = Some (st1, p') ->
  watched (set_tasks (<[me := p']> (tasks st1)) st1).
Proof.
  intros Hw Hme H.
  resume_cases H;
    try (eapply watched_kept; [exact Hw|exact Hme|reflexivity|];
         simpl; intros c b Hb;
         try (apply lookup_delete_Some in Hb as [? Hb]);
         (split; [exact Hb|]);
         (split;
          [ intros Hin;
            first [ left; exact Hin
                  | left; apply elem_of_union; left; exact Hin
                  | left; apply stays_in; [congruence|];
                    first [exact Hin|apply elem_of_union; left; exact Hin]
                  | destruct (decide (c = channel_id)) as [->|Hne];
                    [right; apply error_logged|left; now apply stays_in] ]
          |]);
         (split; [first [left; congruence|left; discriminate]|]);
         intros He; repeat apply in_log_snoc; exact He).
  - (* append to an existing queue *)
    intros c b Hb. simpl in *.
    destruct (decide (c = channel message)) as [->|Hne].
    + rewrite lookup_insert_eq in Hb. injection Hb as <-.
      split; [now destruct (default [] _)|].
      match goal with G : message_queue st !! _ = Some _ |- _ =>
        destruct (Hw _ _ G) as [_ [Hin|[[i Hi]|He]]] end;
        [now left| |right; right; now apply in_log_snoc].
      right. left. exists i. rewrite list_lookup_insert_ne; [exact Hi|].
      intros ->. congruence.
    + rewrite lookup_insert_ne in Hb by congruence.
      destruct (Hw _ _ Hb) as [Hb' [Hin|[[i Hi]|He]]]; (split; [exact Hb'|]);
        [now left| |right; right; now apply in_log_snoc].
      right. left. exists i. rewrite list_lookup_insert_ne; [exact Hi|].
      intros ->. congruence.
  - (* a new queue and a task scheduled for it *)
    intros c b Hb. simpl in *.
    rewrite insert_insert_eq in Hb.
    rewrite (lookup_insert_app_l _ _ _ _ _ Hme).
    destruct (decide (c = channel message)) as [->|Hne].
    + rewrite lookup_insert_eq in Hb. injection Hb as <-.
      split; [rewrite lookup_insert_eq; discriminate|].
      right. left. exists (length (<[me := AtCommands message]> (tasks st))).
      now rewrite lookup_app_r, Nat.sub_diag by lia.
    + rewrite lookup_insert_ne in Hb by congruence.
      destruct (Hw _ _ Hb) as [Hb' [Hin|[[i Hi]|He]]]; (split; [exact Hb'|]);
        [now left| |right; right; now apply in_log_snoc].
      right. left. exists i. rewrite lookup_app_l.
      * rewrite list_lookup_insert_ne; [exact Hi|]. intros ->. congruence.
      * rewrite length_insert. now apply lookup_lt_Some in Hi.
  - (* in the queue map and without an entry: impossible *)
    exfalso.
    match goal with G : _ ∈ dom _ |- _ => apply elem_of_dom in G as [b Hb] end.
    simpl in *. congruence.
  - (* the task scheduled finds the channel taken *)
    eapply watched_kept; [exact Hw|exact Hme|reflexivity|].
    intros c b Hb. split; [exact Hb|]. split; [auto|]. split; [|auto].
    destruct (decide (c = channel_id)) as [->|Hne]; [|left; congruence].
    right.
    match goal with G : _ && _ = false |- _ => rename G into Hadm end.
    apply andb_false_iff in Hadm as [Hadm|Hadm];
      apply bool_decide_eq_false_1 in Hadm.
    + exfalso. apply Hadm, elem_of_dom. eauto.
    + destruct (decide (channel_id ∈ processing_channels st1)); tauto.
Qed.

Lemma watched_step (st st' : State) (a : Action) :
  watched st -> step st a = Some st' -> watched st'.
Proof.
  intros Hw Hstep. destruct a as [message draw|me outcome]; simpl in Hstep.
  - injection Hstep as <-. unfold deliver.
    destruct (user_eqb (author message) bot_user); [exact Hw|].
    destruct (deleted_reference message); [exact Hw|].
    intros c b Hb. simpl in *.
    destruct (Hw c b Hb) as [Hne [Hin|[[i Hi]|He]]];
      (split; [exact Hne|]);
      [now left| |right; right; now apply in_log_snoc].
    right. left. exists i. rewrite lookup_app_l; [exact Hi|].
    now apply lookup_lt_Some in Hi.
  - destruct (tasks st !! me) as [p|] eqn:Hme; [|discriminate].
    destruct (resume p outcome st) as [[st1 p']|] eqn:Hres; [|discriminate].
    injection Hstep as <-. eapply watched_resume; eauto.
Qed.

Lemma watched_run (schedule : list Action) (st st' : State) :
  watched st -> run st schedule = Some st' -> watched st'.
Proof.
  revert st. induction schedule as [|a schedule IH]; intros st Hw Hrun;
    simpl in Hrun.
  - now injection Hrun as <-.
  - destruct (step st a) as [st1|] eqn:Hstep; [|discriminate].
    eapply IH; [|exact Hrun]. eapply watched_step; eauto.
Qed.

Lemma watched_initial : watched initial.
Proof. intros c b Hb. simpl in Hb. now rewrite lookup_empty in Hb. Qed.

(** When no task is left, nothing is pending for a channel no worker of
    which has failed. *)
Lemma quiescent_nothing_left (st : State) (c : Z) :
  exclusive (processing_channels st) (tasks st) -> watched st ->
  unfailed c st -> quiescent st -> message_queue st !! c = None.
Proof.
  intros Hex Hw Hc Hq. destruct (message_queue st !! c) as [b|] eqn:Hb;
    [|reflexivity].
  exfalso. unfold quiescent in Hq. rewrite Forall_forall in Hq.
  destruct (Hw c b Hb) as [_ [Hin|[[i Hi]|He]]].
  - apply (Hex c) in Hin as (i & q & Hi & Hch).
    apply list_elem_of_lookup_2, Hq in Hi. subst. discriminate.
  - apply list_elem_of_lookup_2, Hq in Hi. discriminate.
  - now apply Hc.
Qed.

(** A worker that is resumed with an exception logs the error, gives its
    channel back and ends; the queues stay as they are. *)
Lemma worker_fails (st st' : State) (i : nat) (p : Point) (c : Z) :
  tasks st !! i = Some p -> channel_of p = Some c ->
  step st (Resume i Raised) = Some st' ->
  tasks st' !! i = Some Done
  /\ log st' = log st ++ [LoggedError c]
  /\ processing_channels st' = processing_channels st ∖ {[c]}
  /\ message_queue st' = message_queue st.
Proof.
  intros Hi Hc Hstep. unfold MetaLLM.step in Hstep. rewrite Hi in Hstep.
  pose proof (lookup_lt_Some _ _ _ Hi) as Hlt.
  destruct p; simpl in Hc; try discriminate Hc; injection Hc as ->;
    try destruct parts; simpl in Hstep; try discriminate Hstep;
    injection Hstep as <-; simpl;
    (split; [now apply list_lookup_insert_eq|]); repeat split.
Qed.

(** *** Every run can be brought to an end *)

Lemma queue_weight_delete (q : gmap Z (list Message)) (c : Z)
    (messages : list Message) :
  q !! c = Some messages ->
  queue_weight q = (4 * length messages + 1 + queue_weight (delete c q))%nat.
Proof.
  intros Hq. unfold queue_weight.
  apply (map_fold_delete_L (fun _ messages n => 4 * length messages + 1 + n)%nat);
    [|exact Hq].
  intros. lia.
Qed.

Lemma queue_weight_insert (q : gmap Z (list Message)) (c : Z)
    (messages : list Message) :
  q !! c = None ->
  queue_weight (<[c := messages]> q)
  = (4 * length messages + 1 + queue_weight q)%nat.
Proof.
  intros Hq. unfold queue_weight.
  apply (map_fold_insert_L (fun _ messages n => 4 * length messages + 1 + n)%nat);
    [|exact Hq].
  intros. lia.
Qed.

Lemma queue_weight_append (q : gmap Z (list Message)) (c : Z)
    (old : list Message) (m : Message) :
  q !! c = Some old ->
  queue_weight (<[c := old ++ [m]]> q) = (4 + queue_weight q)%nat.
Proof.
  intros Hq. rewrite <- insert_delete_eq.
  rewrite queue_weight_insert by apply lookup_delete_eq.
  rewrite (queue_weight_delete q c old Hq), length_app. simpl. lia.
Qed.

Lemma weight_update (l extra : list Point) (i : nat) (p p' : Point) :
  l !! i = Some p ->
  (sum_list_with weight (<[i := p']> (l ++ extra)) + weight p
   = sum_list_with weight l + sum_list_with weight extra + weight p')%nat.
Proof.
  intros Hi. rewrite (lookup_insert_app_l _ _ _ _ _ Hi), !sum_list_with_app.
  assert (Hl : (sum_list_with weight (<[i := p']> l) + weight p
                = sum_list_with weight l + weight p')%nat).
  { revert i Hi. induction l as [|x l IH]; intros [|i] Hi;
      simpl in *; try discriminate.
    - injection Hi as ->. lia.
    - specialize (IH i Hi). lia. }
  lia.
Qed.

Lemma filter_cons_length (msg : Message) (rest messages : list Message) :
  List.filter relevant messages = msg :: rest ->
  (length rest < length messages)%nat.
Proof.
  intros H. pose proof (filter_length_le relevant messages) as Hle.
  rewrite H in Hle. simpl in Hle. lia.
Qed.

(** The loop from its test to the next await: what the worker takes on is
    no more than what the queue loses. *)
Lemma drain_work (c : Z) (st st1 : State) (p' : Point) :
  drain 1 c st = Some (st1, p') ->
  tasks st1 = tasks st
  /\ (weight p' + queue_weight (message_queue st1)
      <= queue_weight (message_queue st))%nat.
Proof.
  rewrite drain_once. intros H.
  destruct (message_queue st !! c) as [messages|] eqn:Hq.
  - rewrite (queue_weight_delete _ _ _ Hq).
    destruct (existsb _ messages);
      [injection H as <- <-; simpl; split; [reflexivity|lia]|].
    destruct (List.filter relevant messages) as [|msg rest] eqn:Hf;
      injection H as <- <-; simpl; (split; [reflexivity|]).
    + lia.
    + apply filter_cons_length in Hf. unfold loop_weight. lia.
  - injection H as <- <-. simpl. split; [reflexivity|lia].
Qed.

(** Resumed calmly, a task takes on less than it sheds. *)
Lemma resume_work (st st1 : State) (p p' : Point) :
  resume p (calm p) st = Some (st1, p') ->
  exists extra,
    tasks st1 = tasks st ++ extra
    /\ (sum_list_with weight extra + weight p'
        + queue_weight (message_queue st1)
        < weight p + queue_weight (message_queue st))%nat.
Proof.
  intros H. destruct p; simpl in H; try discriminate.
  - (* on_message *)
    destruct (should_process_raises bot_user message);
      [injection H as <- <-; exists []; rewrite app_nil_r; simpl;
       split; [reflexivity|lia]|].
    injection H as <- <-. unfold enqueue.
    destruct (should_process bot_user message draw);
      [|exists []; rewrite app_nil_r; simpl; split; [reflexivity|lia]].
    destruct (message_queue st !! channel message) as [old|] eqn:Hq; simpl.
    + exists []. rewrite app_nil_r. split; [reflexivity|].
      rewrite Hq. simpl. rewrite (queue_weight_append _ _ _ _ Hq). simpl. lia.
    + exists [Scheduled (channel message)]. split; [reflexivity|].
      rewrite lookup_insert_eq, insert_insert_eq.
      rewrite (queue_weight_insert _ _ _ Hq). simpl. lia.
  - injection H as <- <-. exists []. rewrite app_nil_r. simpl.
    split; [reflexivity|lia].
  - (* the start of the worker *)
    unfold start in H. destruct (_ && _).
    + apply drain_work in H as [Htasks Hle]. simpl in *.
      exists []. rewrite app_nil_r. split; [exact Htasks|]. simpl. lia.
    + injection H as <- <-. exists []. rewrite app_nil_r. simpl.
      split; [reflexivity|lia].
  - injection H as <- <-. exists []. rewrite app_nil_r. simpl.
    split; [reflexivity|lia].
  - injection H as <- <-. exists []. rewrite app_nil_r. simpl.
    split; [reflexivity|lia].
  - injection H as <- <-. exists []. rewrite app_nil_r. simpl.
    split; [reflexivity|lia].
  - (* the reply recorded: the first part is sent *)
    destruct (split_message response_content) as [[|part parts]|] eqn:Hparts;
      [| |discriminate].
    + exists []. rewrite app_nil_r.
      destruct rest; injection H as <- <-; simpl; rewrite Hparts;
        split; try reflexivity; unfold loop_weight; simpl; lia.
    + injection H as <- <-. exists []. rewrite app_nil_r. simpl.
      rewrite Hparts. split; [reflexivity|simpl; lia].
  - (* a part sent: the next one, or the next message *)
    exists []. rewrite app_nil_r.
    destruct parts as [|part parts]; [destruct rest|];
      injection H as <- <-; simpl; split; try reflexivity;
      unfold loop_weight; simpl; lia.
  - exists []. rewrite app_nil_r.
    destruct rest; injection H as <- <-; simpl; split; try reflexivity;
      unfold loop_weight; simpl; lia.
  - (* after the sleep *)
    apply drain_work in H as [Htasks Hle].
    exists []. rewrite app_nil_r. split; [exact Htasks|]. simpl. lia.
Qed.

(** A task that is not done can be resumed calmly. *)
Lemma resume_calm (st : State) (p : Point) :
  p <> Done -> exists r, resume p (calm p) st = Some r.
Proof.
  intros Hp. destruct p; try congruence; try (eexists; reflexivity).
  - simpl. destruct (should_process_raises _ _); eexists; reflexivity.
  - unfold MetaLLM.resume, start. simpl calm.
    destruct (_ && _); [rewrite drain_once|]; repeat case_match;
      eexists; reflexivity.
  - simpl. destruct (split_message_defined response_content)
      as (parts & Hparts & Hne).
    rewrite Hparts. destruct parts; [contradiction|]. eexists; reflexivity.
  - simpl. destruct parts; eexists; reflexivity.
  - unfold MetaLLM.resume. simpl calm. rewrite drain_once.
    repeat case_match; eexists; reflexivity.
Qed.

(** So less work is left after each calm resumption. *)
Lemma work_decreases (st : State) (i : nat) (p : Point) :
  tasks st !! i = Some p -> p <> Done ->
  exists st', step st (Resume i (calm p)) = Some st'
    /\ (work_left st' < work_left st)%nat.
Proof.
  intros Hi Hp. unfold MetaLLM.step. rewrite Hi.
  destruct (resume_calm st p Hp) as ([st1 p'] & Hres). rewrite Hres.
  eexists. split; [reflexivity|].
  destruct (resume_work _ _ _ _ Hres) as (extra & Hextra & Hlt).
  unfold work_left. simpl. rewrite Hextra.
  pose proof (weight_update (tasks st) extra i p p' Hi) as Hw. lia.
Qed.

Lemma run_cons (st : State) (a : Action) (schedule : list Action) :
  run st (a :: schedule) = match step st a with
                           | Some st1 => run st1 schedule
                           | None => None
                           end.
Proof. reflexivity. Qed.

Lemma step_log_grows (st st' : State) (a : Action) :
  step st a = Some st' -> exists events, log st' = log st ++ events.
Proof.
  intros Hstep. destruct a as [message draw|me outcome]; simpl in Hstep.
  - injection Hstep as <-. unfold deliver.
    destruct (user_eqb (author message) bot_user);
      [|destruct (deleted_reference message)]; simpl.
    + exists []. now rewrite app_nil_r.
    + exists []. now rewrite app_nil_r.
    + eauto.
  - destruct (tasks st !! me) as [p|]; [|discriminate].
    destruct (resume p outcome st) as [[st1 p']|] eqn:Hres; [|discriminate].
    injection Hstep as <-. simpl.
    resume_cases Hres; simpl; rewrite <- ?app_assoc;
      first [ eexists; reflexivity | exists []; now rewrite app_nil_r ].
Qed.

Lemma run_log_grows (schedule : list Action) (st st' : State) :
  run st schedule = Some st' -> exists events, log st' = log st ++ events.
Proof.
  revert st. induction schedule as [|a schedule IH]; intros st Hrun;
    simpl in Hrun.
  - injection Hrun as <-. exists []. now rewrite app_nil_r.
  - destruct (step st a) as [st1|] eqn:Hstep; [|discriminate].
    destruct (step_log_grows _ _ _ Hstep) as [e1 H1].
    destruct (IH _ Hrun) as [e2 H2]. exists (e1 ++ e2).
    now rewrite H2, H1, app_assoc.
Qed.

Lemma done_or_not (l : list Point) :
  Forall (fun p => p = Done) l
  \/ exists i p, l !! i = Some p /\ p <> Done.
Proof.
  induction l as [|x l [IH|(i & p & Hi & Hp)]].
  - left. constructor.
  - destruct x; try (right; exists 0%nat; eexists; split;
                     [reflexivity|discriminate]).
    left. now constructor.
  - right. exists (S i), p. auto.
Qed.

(** From any state, resuming calmly whatever is not done ends with every
    task done. *)
Lemma settles (n : nat) (st : State) :
  (work_left st <= n)%nat ->
  exists more st',
    exception_free more /\ no_arrival more
    /\ run st more = Some st' /\ quiescent st'.
Proof.
  revert st. induction n as [|n IH]; intros st Hn;
    (destruct (done_or_not (tasks st)) as [Hall|(i & p & Hi & Hp)];
     [exists [], st; repeat split; [constructor|constructor|exact Hall]|]);
    destruct (work_decreases st i p Hi Hp) as (st1 & Hstep & Hlt); [lia|].
  destruct (IH st1 ltac:(lia)) as (more & st' & Hfree & Hres & Hrun & Hq).
  exists (Resume i (calm p) :: more), st'. split; [|split; [|split]].
  - constructor; [now destruct p|exact Hfree].
  - constructor; [reflexivity|exact Hres].
  - rewrite run_cons, Hstep. exact Hrun.
  - exact Hq.
Qed.

End Bot.

End DispatcherFacts.

Module DispatcherClaims.
Import PyStr Chunking ChunkingFacts MetaLLM DispatcherSpec DispatcherFacts.

(** C1. In every state the event loop can reach, whatever the schedule
    (arrivals, the order in which tasks are resumed, completions that
    answer or fail, calls that raise), each channel has at most one task
    inside the drain loop of [process_message_queue] and at most one task
    waiting in [get_llm_response]. *)
Theorem one_worker_per_channel (bot_user : User) (schedule : list Action)
    (st : State) (channel_id : Z) :
  run bot_user initial schedule = Some st ->
  (workers_draining channel_id st <= 1)%nat
  /\ (completions_in_flight channel_id st <= 1)%nat.
Proof.
  intros Hrun.
  pose proof (exclusive_run bot_user schedule initial st exclusive_initial Hrun)
    as Hex.
  assert (Hw : (workers_draining channel_id st <= 1)%nat).
  { unfold workers_draining. apply filter_at_most_one.
    intros i j p q Hi Hj Hp Hq. apply draining_channel_of in Hp, Hq.
    destruct (Hex channel_id) as [_ Huniq]. eapply Huniq; eauto. }
  split; [exact Hw|].
  unfold completions_in_flight, workers_draining in *.
  pose proof (filter_length_mono (in_flight channel_id) (draining channel_id)
                (tasks st) (in_flight_draining channel_id)).
  lia.
Qed.

(** A run with a completion in flight for channel 7 while a second message
    arrives for it. *)
Lemma one_worker_per_channel_witness :
  exists st, run meta initial overlapping = Some st
    /\ workers_draining 7 st = 1%nat /\ completions_in_flight 7 st = 1%nat
    /\ (workers_draining 7 st <= 1)%nat /\ (completions_in_flight 7 st <= 1)%nat.
Proof.
  destruct (run meta initial overlapping) as [st|] eqn:Hrun;
    [|vm_compute in Hrun; discriminate].
  exists st. split; [reflexivity|].
  assert (Hst : Some st = run meta initial overlapping) by now rewrite Hrun.
  split; [|split].
  - vm_compute in Hst. injection Hst as ->. reflexivity.
  - vm_compute in Hst. injection Hst as ->. reflexivity.
  - exact (one_worker_per_channel meta overlapping st 7 Hrun).
Defined.

(** C2, as amended.  In every reachable state: a step pops from the queue
    of a channel either nothing or the whole pending sequence, and leaves
    the channel without entry; what was enqueued for a channel is, in the
    order of the enqueue calls, what the batches popped so far hold
    followed by what is pending, so no message is in two batches and the
    batches follow the arrival order.  For a channel no worker of which
    has ended through its [except] clause, whatever has happened in the
    other channels: what is pending has a taker (the worker inside the loop
    for the channel, or a task scheduled for it), and once all tasks are
    done every message enqueued for the channel is in exactly one batch.
    Every task that is not done can be resumed, and the run can be
    continued, without a new arrival and without an exception, until all
    tasks are done; no channel has a worker fail on the way.  A worker that
    is resumed without an exception logs no error and ends only at the loop
    test, with no entry left for its channel, and does end there when the
    test finds none; resumed with an exception it logs the error, gives the
    channel back and ends, leaving the queues as they are. *)
Theorem batches_take_everything_in_order (bot_user : User)
    (schedule : list Action) (st : State) :
  run bot_user initial schedule = Some st ->
  (forall a st' c, step bot_user st a = Some st' ->
     batches c (log st') = batches c (log st)
     \/ exists messages,
          message_queue st !! c = Some messages
          /\ batches c (log st') = batches c (log st) ++ [messages]
          /\ message_queue st' !! c = None)
  /\ (forall c, enqueued c (log st) = concat (batches c (log st)) ++ pending c st)
  /\ (forall c, unfailed c st ->
        (forall b, message_queue st !! c = Some b ->
           b <> []
           /\ ((exists i p, tasks st !! i = Some p /\ channel_of p = Some c)
               \/ exists i, tasks st !! i = Some (Scheduled c)))
        /\ (quiescent st -> enqueued c (log st) = concat (batches c (log st))))
  /\ (forall i p, tasks st !! i = Some p -> p <> Done ->
        exists o st', o <> Raised /\ step bot_user st (Resume i o) = Some st')
  /\ (exists more st',
        exception_free more /\ no_arrival more
        /\ run bot_user st more = Some st'
        /\ quiescent st'
        /\ (exists events, log st' = log st ++ events)
        /\ forall c, unfailed c st ->
             unfailed c st'
             /\ enqueued c (log st') = concat (batches c (log st')))
  /\ (forall i p c o st',
        tasks st !! i = Some p -> channel_of p = Some c ->
        step bot_user st (Resume i o) = Some st' ->
        (o <> Raised ->
         (tasks st' !! i = Some Done ->
          p = AtSleep c /\ message_queue st' !! c = None
          /\ c ∉ processing_channels st')
         /\ (p = AtSleep c -> message_queue st !! c = None ->
             tasks st' !! i = Some Done)
         /\ forall c', unfailed c' st -> unfailed c' st')
        /\ (o = Raised ->
            tasks st' !! i = Some Done
            /\ log st' = log st ++ [LoggedError c]
            /\ processing_channels st' = processing_channels st ∖ {[c]}
            /\ message_queue st' = message_queue st)).
Proof.
  intros Hrun.
  pose proof (exclusive_run bot_user schedule initial st exclusive_initial Hrun)
    as Hex.
  pose proof (conserved_run bot_user schedule initial st conserved_initial Hrun)
    as Hcons.
  pose proof (watched_run bot_user schedule initial st watched_initial Hrun)
    as Hw.
  pose proof (intact_run bot_user schedule initial st intact_initial Hrun)
    as Hint.
  split; [intros a st' c; apply pop_takes_all|].
  split; [exact Hcons|].
  split; [|split; [intros i p; apply can_go_on|split]].
  - intros c Hc. split.
    + intros b Hb. destruct (Hw c b Hb) as [Hne [Hin|[Hsched|He]]].
      * split; [exact Hne|]. left. now apply (Hex c).
      * split; [exact Hne|]. now right.
      * now apply Hc in He.
    + intros Hq. rewrite (Hcons c). unfold pending.
      rewrite (quiescent_nothing_left st c Hex Hw Hc Hq). apply app_nil_r.
  - destruct (settles bot_user (work_left st) st (le_n _))
      as (more & st' & Hfree' & Hres' & Hrun' & Hq).
    exists more, st'. split; [exact Hfree'|]. split; [exact Hres'|].
    split; [exact Hrun'|].
    split; [exact Hq|]. split; [eapply run_log_grows; eauto|].
    intros c Hc.
    pose proof (run_no_error bot_user more st st' c Hint Hfree' Hrun' Hc) as Hc'.
    split; [exact Hc'|].
    rewrite (conserved_run bot_user more st st' Hcons Hrun' c). unfold pending.
    rewrite (quiescent_nothing_left st' c
               (exclusive_run bot_user more st st' Hex Hrun')
               (watched_run bot_user more st st' Hw Hrun') Hc' Hq).
    apply app_nil_r.
  - intros i p c o st' Hi Hp Hstep. split.
    + intros Ho.
      destruct (worker_stops bot_user st st' i p c o Hi Hp Ho Hstep)
        as [Hends Hempty].
      split; [exact Hends|]. split; [exact Hempty|].
      intros c' Hc' He. apply Hc'.
      apply (step_no_error bot_user st st' (Resume i o) c' Hint); auto.
      destruct o; try reflexivity. congruence.
    + intros ->. eapply worker_fails; eauto.
Qed.

(** The run in which [m1] and [m2] arrive for channel 7 and are answered,
    to its end. *)
Lemma batches_take_everything_in_order_witness :
  exists st, run meta initial to_the_end = Some st
    /\ unfailed 7 st /\ quiescent st
    /\ enqueued 7 (log st) = [m1; m2]
    /\ enqueued 7 (log st) = concat (batches 7 (log st)).
Proof.
  destruct (run meta initial to_the_end) as [st|] eqn:Hrun;
    [|vm_compute in Hrun; discriminate].
  exists st. split; [reflexivity|].
  assert (Hst : Some st = run meta initial to_the_end) by now rewrite Hrun.
  assert (Hq : quiescent st).
  { vm_compute in Hst. injection Hst as ->. repeat constructor. }
  assert (Hc : unfailed 7 st).
  { vm_compute in Hst. injection Hst as ->. unfold unfailed. simpl.
    intros He. repeat (apply elem_of_cons in He as [He|He]; [discriminate He|]).
    now apply not_elem_of_nil in He. }
  split; [exact Hc|]. split; [exact Hq|]. split.
  - vm_compute in Hst. injection Hst as ->. reflexivity.
  - destruct (batches_take_everything_in_order meta to_the_end st Hrun)
      as (_ & _ & Hlive & _).
    exact (proj2 (Hlive 7 Hc) Hq).
Defined.

(** C2, as stated, fails when an awaited call raises into the worker.
    [m1] and [m2] are in one batch and both pass the filter; the reply to
    [m1] is recorded and its send raises: the worker ends through its
    [except] and [finally] clauses, at a send and not at a take that found
    nothing (the one take there was found [m1; m2]).  All tasks are done,
    no queue has an entry, [m1] and [m2] were enqueued and popped, and [m2]
    was never handed to context assembly. *)
Lemma batch_lost_when_send_raises :
  relevant meta m2 = true
  /\ exists st, run meta initial send_raises = Some st
       /\ quiescent st
       /\ message_queue st = ∅
       /\ enqueued 7 (log st) = [m1; m2]
       /\ batches 7 (log st) = [[m1; m2]]
       /\ forwarded (log st) = [m1]
       /\ drop 10 (log st) = [Send 7 (py "hi"); LoggedError 7].
Proof.
  split; [vm_compute; reflexivity|].
  eexists. split; [vm_compute; reflexivity|].
  split; [repeat constructor|]. repeat split; vm_compute; reflexivity.
Qed.

(** C3 at the failing input: [hello] comes from a human, does not mention
    or name the bot and replies to nobody, and the draw 0.05 is below 0.1,
    so [on_message] records it and puts it in the queue.  The filter of the
    worker has no clause for the draw: the batch [[hello]] is popped and
    nothing goes to context assembly, no completion is requested and
    nothing is sent. *)
Theorem sampled_message_gets_no_reply :
  sampled (1 # 20) = true
  /\ should_process meta hello (1 # 20) = true
  /\ relevant meta hello = false
  /\ exists st, run meta initial picked_at_random = Some st
       /\ quiescent st
       /\ log st = [RecordChatHistory 7 (user_message hello);
                    Enqueued 7 hello; Popped 7 [hello]]
       /\ forwarded (log st) = [].
Proof.
  split; [reflexivity|]. split; [reflexivity|]. split; [vm_compute; reflexivity|].
  eexists. split; [vm_compute; reflexivity|].
  split; [repeat constructor|]. split; vm_compute; reflexivity.
Qed.

(** C7, as amended.  In every reachable state the apologies sent so far
    are, one for one and in order, for the completions that came back
    without text, and the records posted with role assistant are, one for
    one, the texts the other completions came back with.  When the
    completion requested for [msg] comes back without text (the request
    failed, or the text is empty), that step calls [msg.reply] with the
    apology once and records nothing; the worker
    keeps the rest of the batch and, when the apology call returns, goes on
    with the next relevant message or, after the last, sleeps before the
    next take; when the apology call raises, the worker logs the error and
    ends.  When the completion comes back with a text, that step posts the
    reply to the history service with role assistant, and only when that
    call returns is the first chunk sent. *)
Theorem completion_failure_is_isolated (bot_user : User)
    (schedule : list Action) (st : State) :
  run bot_user initial schedule = Some st ->
  apologies (log st) = completions_without_text (log st)
  /\ replies_recorded (log st) = completions_with_text (log st)
  /\ forall (i : nat) (c : Z) (msg : Message) (rest : list Message)
       (call : completion_call),
  tasks st !! i = Some (AtCompletion c msg rest) ->
  exists st',
    step bot_user st (Resume i (Completion call)) = Some st'
    /\ message_queue st' = message_queue st
    /\ processing_channels st' = processing_channels st
    /\ match truthy (get_llm_response call) with
       | None =>
           log st' = log st ++ [LLMResponse c msg (get_llm_response call);
                                Reply msg apology]
           /\ tasks st' !! i = Some (AtApology c msg rest)
           /\ (exists st'',
                 step bot_user st' (Resume i Returned) = Some st''
                 /\ tasks st'' !! i
                    = Some (match rest with
                            | [] => AtSleep c
                            | next :: rest' => AtContext c next rest'
                            end)
                 /\ log st'' = log st' ++ match rest with
                                          | [] => []
                                          | next :: _ => [GetStructuredInput c next]
                                          end)
           /\ (exists st'',
                 step bot_user st' (Resume i Raised) = Some st''
                 /\ tasks st'' !! i = Some Done
                 /\ log st'' = log st' ++ [LoggedError c])
       | Some text =>
           get_llm_response call = Some text
           /\ log st' = log st ++ [LLMResponse c msg (Some text);
                                   RecordChatHistory c (bot_message bot_user msg text)]
           /\ r_role (bot_message bot_user msg text) = py "assistant"
           /\ tasks st' !! i = Some (AtRecord c msg rest text)
           /\ exists st'' part parts,
                split_message text = Some (part :: parts)
                /\ step bot_user st' (Resume i Returned) = Some st''
                /\ log st'' = log st' ++ [Send (channel msg) part]
                /\ tasks st'' !! i = Some (AtSend c msg rest parts)
       end.
Proof.
  intros Hrun.
  destruct (answered_run bot_user schedule initial st answered_initial Hrun)
    as [Hap Hrec].
  split; [exact Hap|]. split; [exact Hrec|]. clear Hrun Hap Hrec.
  intros i c msg rest call Hi. pose proof (lookup_lt_Some _ _ _ Hi) as Hlt.
  unfold step. rewrite Hi. simpl.
  destruct (truthy (get_llm_response call)) as [text|] eqn:Htext.
  - eexists. split; [reflexivity|]. simpl. split; [reflexivity|].
    split; [reflexivity|].
    assert (Hsome : get_llm_response call = Some text).
    { destruct (get_llm_response call) as [[|x s]|]; simpl in Htext; congruence. }
    split; [exact Hsome|]. rewrite Hsome.
    split; [now rewrite <- app_assoc|]. split; [reflexivity|].
    split; [now apply list_lookup_insert_eq|].
    rewrite list_lookup_insert_eq by exact Hlt. simpl.
    destruct (split_loop_total (length text) text ltac:(lia))
      as (parts & Hparts & Hne & _).
    unfold split_message. rewrite Hparts.
    destruct parts as [|part parts]; [contradiction|].
    eexists _, part, parts. split; [reflexivity|]. split; [reflexivity|].
    simpl. split; [reflexivity|].
    apply list_lookup_insert_eq. now rewrite length_insert.
  - eexists. split; [reflexivity|]. simpl. split; [reflexivity|].
    split; [reflexivity|].
    split; [now rewrite <- app_assoc|].
    split; [now apply list_lookup_insert_eq|].
    rewrite list_lookup_insert_eq by exact Hlt. simpl. split.
    + destruct rest as [|next rest']; simpl; eexists;
        (split; [reflexivity|]); simpl;
        (split; [apply list_lookup_insert_eq; now rewrite length_insert|]);
        [now rewrite app_nil_r|reflexivity].
    + eexists. split; [reflexivity|]. simpl.
      split; [apply list_lookup_insert_eq; now rewrite length_insert|reflexivity].
Qed.

(** The worker of channel 7 waits for the completion of [m1], which then
    fails. *)
Lemma completion_failure_is_isolated_witness :
  exists st st',
    run meta initial overlapping = Some st
    /\ tasks st !! 1%nat = Some (AtCompletion 7 m1 [])
    /\ step meta st (Resume 1 (Completion Failed)) = Some st'
    /\ tasks st' !! 1%nat = Some (AtApology 7 m1 []).
Proof.
  destruct (run meta initial overlapping) as [st|] eqn:Hrun;
    [|vm_compute in Hrun; discriminate].
  assert (Hst : Some st = run meta initial overlapping) by now rewrite Hrun.
  assert (Hi : tasks st !! 1%nat = Some (AtCompletion 7 m1 [])).
  { vm_compute in Hst. injection Hst as ->. reflexivity. }
  destruct (completion_failure_is_isolated meta overlapping st Hrun)
    as (_ & _ & Hlocal).
  destruct (Hlocal 1%nat 7 m1 [] Failed Hi) as (st' & Hstep & _ & _ & Hfail).
  simpl in Hfail. destruct Hfail as (_ & Htask & _).
  exists st, st'. auto.
Defined.

(** C7, as stated, fails when the apology cannot be delivered.  [m1] and
    [m2] are in one batch and both pass the filter; the completion for [m1]
    fails and [msg.reply] raises: the worker ends, and [m2] is never handed
    to context assembly although every task is done. *)
Lemma batch_abandoned_when_apology_raises :
  relevant meta m2 = true
  /\ exists st, run meta initial apology_raises = Some st
       /\ quiescent st
       /\ batches 7 (log st) = [[m1; m2]]
       /\ forwarded (log st) = [m1]
       /\ last (log st) = Some (LoggedError 7).
Proof.
  split; [vm_compute; reflexivity|].
  eexists. split; [vm_compute; reflexivity|].
  split; [repeat constructor|]. repeat split; vm_compute; reflexivity.
Qed.

(** C8, as amended.  A text longer than 1900 characters is cut at the last
    space (U+0020) at an index below 1900, or at index 1900 when there is
    none; the chunk is what precedes the cut, and what follows it, leading
    whitespace removed, is split in turn.  For a text of length 3800 with a
    space at index 1899, or with its first space at index 1900, and no
    whitespace right after it, the result is the two chunks around that
    space.  The chunks are sent one after the other in their order. *)
Theorem split_message_cuts_at_last_space :
  (forall content : str, len content > 1900 ->
     exists (i : nat) (rest : list str),
       split_message content = Some (take i content :: rest)
       /\ split_message (lstrip (drop i content)) = Some rest
       /\ ((Z.of_nat i < 1900 /\ content !! i = Some " "%char
            /\ forall j : nat, (i < j)%nat -> Z.of_nat j < 1900 ->
                 content !! j <> Some " "%char)
           \/ (Z.of_nat i = 1900
               /\ forall j : nat, Z.of_nat j < 1900 ->
                    content !! j <> Some " "%char)))
  /\ (forall a b : str, len a = 1899 -> len b = 1900 -> lstrip b = b ->
        split_message (a ++ " "%char :: b) = Some [a; b])
  /\ (forall a b : str, len a = 1900 -> len b = 1899 -> lstrip b = b ->
        (forall j : nat, a !! j <> Some " "%char) ->
        split_message (a ++ " "%char :: b) = Some [a; b])
  /\ (forall bot_user st i c msg rest text parts,
        tasks st !! i = Some (AtRecord c msg rest text) ->
        split_message text = Some parts ->
        exists st',
          run bot_user st (replicate (length parts) (Resume i Returned)) = Some st'
          /\ log st' = log st ++ map (Send (channel msg)) parts).
Proof.
  assert (Hcut : forall content : str, len content > 1900 ->
     exists i : nat,
       split_index content = Z.of_nat i
       /\ ((Z.of_nat i < 1900 /\ content !! i = Some " "%char
            /\ forall j : nat, (i < j)%nat -> Z.of_nat j < 1900 ->
                 content !! j <> Some " "%char)
           \/ (Z.of_nat i = 1900
               /\ forall j : nat, Z.of_nat j < 1900 ->
                    content !! j <> Some " "%char))).
  { intros content Hlen.
    destruct (split_index_spec content) as [[Hi Hno]|(k & Hi & Hk & Hc & Hlast)].
    - exists (Z.to_nat 1900). rewrite Hi. split; [reflexivity|]. right.
      split; [reflexivity|exact Hno].
    - exists k. split; [exact Hi|]. left. auto. }
  assert (Hstep : forall (content : str) (i : nat), len content > 1900 ->
            split_index content = Z.of_nat i ->
            split_message content
            = (take i content ::.) <$> split_message (lstrip (drop i content))).
  { intros content i Hlen Hi. rewrite split_message_long by exact Hlen.
    rewrite Hi, PyStrFacts.slice_to_take, PyStrFacts.slice_from_drop by lia.
    now rewrite Nat2Z.id. }
  split; [|split; [|split]].
  - intros content Hlen. destruct (Hcut content Hlen) as (i & Hi & Hwhere).
    destruct (split_message_defined (lstrip (drop i content)))
      as (rest & Hrest & _).
    exists i, rest. rewrite (Hstep content i Hlen Hi), Hrest. auto.
  - intros a b Ha Hb Hstrip.
    assert (Hlen : len (a ++ " "%char :: b) > 1900).
    { unfold len in *. rewrite length_app. simpl. lia. }
    assert (Hsp : (a ++ " "%char :: b) !! Z.to_nat 1899 = Some " "%char).
    { rewrite lookup_app_r by (unfold len in Ha; lia).
      replace (Z.to_nat 1899 - length a)%nat with 0%nat by (unfold len in Ha; lia).
      reflexivity. }
    destruct (Hcut _ Hlen) as (i & Hi & [(Hlt & Hc & Hlast)|[Heq Hno]]).
    + assert (i = length a).
      { destruct (decide (i < Z.to_nat 1899)%nat) as [Hlt'|Hge].
        - exfalso. apply (Hlast (Z.to_nat 1899) Hlt'); [lia|exact Hsp].
        - unfold len in Ha. lia. }
      subst i. rewrite (Hstep _ _ Hlen Hi).
      rewrite take_app_length, drop_app_length.
      rewrite PyStrFacts.lstrip_cons_space by reflexivity. rewrite Hstrip.
      rewrite split_message_short by (unfold MAX_MESSAGE_LENGTH; lia).
      reflexivity.
    + exfalso. apply (Hno (Z.to_nat 1899)); [lia|exact Hsp].
  - intros a b Ha Hb Hstrip Hnone.
    assert (Hlen : len (a ++ " "%char :: b) > 1900).
    { unfold len in *. rewrite length_app. simpl. lia. }
    destruct (Hcut _ Hlen) as (i & Hi & [(Hlt & Hc & Hlast)|[Heq Hno]]).
    + exfalso. rewrite lookup_app_l in Hc by (unfold len in Ha; lia).
      exact (Hnone i Hc).
    + assert (i = length a) by (unfold len in Ha; lia).
      subst i. rewrite (Hstep _ _ Hlen Hi).
      rewrite take_app_length, drop_app_length.
      rewrite PyStrFacts.lstrip_cons_space by reflexivity. rewrite Hstrip.
      rewrite split_message_short by (unfold MAX_MESSAGE_LENGTH; lia).
      reflexivity.
  - intros bot_user st i c msg rest text parts Hi Hparts.
    destruct (split_message_defined text) as (parts' & Hparts' & Hne).
    assert (parts' = parts) by congruence. subst parts'.
    destruct (sends_reply_in_order bot_user st i c msg rest text parts Hi Hparts Hne)
      as (st' & Hrun & Hlog & _).
    eauto.
Qed.

(** A text of 3800 characters whose only whitespace is the space at index
    1899. *)
Lemma split_message_cuts_at_last_space_witness :
  len (replicate 1899 "a"%char) = 1899
  /\ len (replicate 1900 "b"%char) = 1900
  /\ lstrip (replicate 1900 "b"%char) = replicate 1900 "b"%char
  /\ len (replicate 1899 "a"%char ++ " "%char :: replicate 1900 "b"%char) = 3800
  /\ split_message (replicate 1899 "a"%char ++ " "%char :: replicate 1900 "b"%char)
     = Some [replicate 1899 "a"%char; replicate 1900 "b"%char].
Proof.
  assert (Ha : len (replicate 1899 "a"%char) = 1899) by (vm_compute; reflexivity).
  assert (Hb : len (replicate 1900 "b"%char) = 1900) by (vm_compute; reflexivity).
  assert (Hs : lstrip (replicate 1900 "b"%char) = replicate 1900 "b"%char)
    by (vm_compute; reflexivity).
  split; [exact Ha|]. split; [exact Hb|]. split; [exact Hs|].
  split; [vm_compute; reflexivity|].
  destruct split_message_cuts_at_last_space as (_ & Htwo & _).
  exact (Htwo _ _ Ha Hb Hs).
Defined.

End DispatcherClaims.

(** ** More on the outbound chunking and on the completion *)

Module TextFacts.
Import PyStr PyStrFacts Chunking ChunkingFacts TextNotions.

Lemma lstrip_visible (s : str) : visible (lstrip s) = visible s.
Proof.
  induction s as [|c s IH]; simpl; [reflexivity|].
  destruct (isspace c) eqn:Hc; simpl; [exact IH|]. now rewrite Hc.
Qed.

Lemma lstrip_head (s : str) (c : ascii) :
  head (lstrip s) = Some c -> isspace c = false.
Proof.
  induction s as [|x s IH]; simpl; [discriminate|].
  destruct (isspace x) eqn:Hx; [exact IH|]. simpl. congruence.
Qed.

Lemma lstrip_fixed (s : str) :
  (forall c, head s = Some c -> isspace c = false) -> lstrip s = s.
Proof.
  destruct s as [|x s]; simpl; [reflexivity|]. intros H.
  now rewrite (H x eq_refl).
Qed.

Lemma lstrip_idem (s : str) : lstrip (lstrip s) = lstrip s.
Proof. apply lstrip_fixed, lstrip_head. Qed.

Lemma lstrip_no_whitespace (s : str) :
  Forall (fun c => isspace c = false) s -> lstrip s = s.
Proof. intros H. apply lstrip_fixed. destruct H; simpl; congruence. Qed.

Lemma lstrip_suffix (s : str) : exists k : nat, lstrip s = drop k s.
Proof.
  induction s as [|x s [k IH]]; [now exists 0%nat|]. simpl.
  destruct (isspace x); [exists (S k); exact IH|now exists 0%nat].
Qed.

(** [split_message] by induction on its loop. *)
Lemma split_message_ind (P : str -> list str -> Prop) :
  (forall content, len content <= MAX_MESSAGE_LENGTH -> P content [content]) ->
  (forall content rest,
     len content > MAX_MESSAGE_LENGTH ->
     split_message (lstrip (slice_from content (split_index content))) = Some rest ->
     P (lstrip (slice_from content (split_index content))) rest ->
     P content (slice_to content (split_index content) :: rest)) ->
  forall content, exists parts, split_message content = Some parts /\ P content parts.
Proof.
  intros Hshort Hlong content.
  remember (length content) as n eqn:Hn.
  revert content Hn. induction n as [n IH] using lt_wf_ind. intros content ->.
  destruct (Z.le_gt_cases (len content) MAX_MESSAGE_LENGTH) as [Hle|Hgt].
  - exists [content]. split; [now apply split_message_short|now apply Hshort].
  - pose proof (remainder_shorter content ltac:(lia)) as Hlt.
    destruct (IH _ Hlt _ eq_refl) as (rest & Hrest & HP).
    exists (slice_to content (split_index content) :: rest). split.
    + rewrite split_message_long by lia. now rewrite Hrest.
    + apply Hlong; [lia|exact Hrest|exact HP].
Qed.

End TextFacts.


Module ChunkingExtras.
Import PyStr PyStrFacts Chunking ChunkingFacts TextNotions TextFacts.

(** X1. Whatever the text, the chunks of [split_message], put together,
    hold every character of the text that is not whitespace, in order and
    once: the loop drops whitespace only (what [lstrip] removes after a
    cut) and adds nothing. *)
Theorem split_message_drops_only_whitespace (content : str) :
  exists parts, split_message content = Some parts
    /\ visible (concat parts) = visible content
    /\ (length (concat parts) <= length content)%nat.
Proof.
  apply (split_message_ind
           (fun content parts =>
              visible (concat parts) = visible content
              /\ (length (concat parts) <= length content)%nat)).
  - intros s _. simpl. rewrite app_nil_r. split; [reflexivity|lia].
  - intros s rest Hlen _ [IH IHlen].
    pose proof (split_index_range s) as Hrange.
    rewrite slice_to_take, slice_from_drop in * by lia.
    set (i := Z.to_nat (split_index s)) in *.
    simpl. unfold visible in *. split.
    + rewrite List.filter_app. fold (visible (concat rest)).
      change (List.filter _ (concat rest)) with (visible (concat rest)).
      unfold visible. rewrite IH. fold (visible (lstrip (drop i s))).
      rewrite lstrip_visible. unfold visible.
      rewrite <- List.filter_app. now rewrite take_drop.
    + rewrite length_app.
      pose proof (lstrip_length (drop i s)) as Hl.
      assert (length s = length (take i s) + length (drop i s))%nat
        by (now rewrite <- length_app, take_drop).
      lia.
Qed.

(** X2. A text without any whitespace is cut every 1900 characters and
    nothing is dropped: the chunks put together are the text, and every
    chunk but the last has exactly 1900 characters. *)
Theorem split_message_without_whitespace (content : str) :
  Forall (fun c => isspace c = false) content ->
  exists parts, split_message content = Some parts
    /\ concat parts = content
    /\ forall (k : nat) (part : str),
         parts !! k = Some part -> (S k < length parts)%nat -> len part = 1900.
Proof.
  intros Hno.
  destruct (split_message_ind
           (fun content parts =>
              Forall (fun c => isspace c = false) content ->
              concat parts = content
              /\ forall (k : nat) (part : str),
                   parts !! k = Some part -> (S k < length parts)%nat ->
                   len part = 1900) ) with (content := content)
    as (parts & Hparts & HP).
  - intros s _ _. simpl. rewrite app_nil_r. split; [reflexivity|].
    intros k part _ Hk. simpl in Hk. lia.
  - intros s rest Hlen _ IH Hs.
    assert (Hi : split_index s = MAX_MESSAGE_LENGTH).
    { destruct (split_index_spec s) as [[Hi _]|(k & _ & _ & Hc & _)]; [exact Hi|].
      rewrite Forall_lookup in Hs. specialize (Hs k _ Hc). discriminate. }
    rewrite Hi in *.
    rewrite slice_to_take, slice_from_drop in * by (unfold MAX_MESSAGE_LENGTH; lia).
    set (i := Z.to_nat MAX_MESSAGE_LENGTH) in *.
    assert (Hd : Forall (fun c => isspace c = false) (drop i s))
      by now apply Forall_drop.
    rewrite (lstrip_no_whitespace _ Hd) in IH.
    destruct (IH Hd) as [IHc IHk]. split.
    + simpl. rewrite IHc. apply take_drop.
    + intros [|k] part Hk Hlt; simpl in Hk.
      * injection Hk as <-. unfold len. rewrite length_take.
        unfold len, MAX_MESSAGE_LENGTH in *. lia.
      * apply (IHk k); [exact Hk|simpl in Hlt; lia].
  - exists parts. split; [exact Hparts|]. now apply HP.
Qed.

Lemma split_message_without_whitespace_witness :
  Forall (fun c => isspace c = false) (replicate 2000 "a"%char)
  /\ exists parts, split_message (replicate 2000 "a"%char) = Some parts
       /\ concat parts = replicate 2000 "a"%char.
Proof.
  assert (H : Forall (fun c => isspace c = false) (replicate 2000 "a"%char)).
  { apply Forall_forall. intros c Hc. apply elem_of_replicate in Hc as [-> _].
    reflexivity. }
  split; [exact H|].
  destruct (split_message_without_whitespace _ H) as (parts & Hparts & Hc & _).
  exists parts. split; [exact Hparts|exact Hc].
Defined.

(** X3. No chunk after the first begins with whitespace. *)
Theorem split_message_later_chunks_stripped (content : str) :
  exists parts, split_message content = Some parts
    /\ forall (k : nat) (part : str) (c : ascii),
         parts !! S k = Some part -> head part = Some c -> isspace c = false.
Proof.
  destruct (split_message_ind
           (fun content parts =>
              (lstrip content = content ->
               forall part c, part ∈ parts -> head part = Some c -> isspace c = false)
              /\ forall (k : nat) (part : str) (c : ascii),
                   parts !! S k = Some part -> head part = Some c ->
                   isspace c = false)) with (content := content)
    as (parts & Hparts & _ & HP).
  - intros s _. split.
    + intros Hs part c Hp Hc. apply list_elem_of_singleton in Hp as ->.
      rewrite <- Hs in Hc. now apply lstrip_head in Hc.
    + intros k part c Hk. destruct k; discriminate.
  - intros s rest Hlen _ [IH _].
    pose proof (split_index_range s) as Hrange.
    rewrite slice_to_take, slice_from_drop in * by lia.
    set (i := Z.to_nat (split_index s)) in *.
    specialize (IH (lstrip_idem _)). split.
    + intros Hs part c Hp Hc. apply elem_of_cons in Hp as [->|Hp].
      * rewrite <- Hs in Hc. destruct i; [discriminate|].
        destruct (lstrip s) as [|x t] eqn:Hx; [discriminate|]. simpl in Hc.
        injection Hc as <-. apply (lstrip_head s). now rewrite Hx.
      * now apply (IH part).
    + intros k part c Hk Hc. simpl in Hk.
      apply (IH part); [|exact Hc]. now apply list_elem_of_lookup_2 in Hk.
  - exists parts. split; [exact Hparts|exact HP].
Qed.

(** X4. A text longer than 1900 characters whose only space below index
    1900 is its first character is cut at index 0: the first chunk is the
    empty string. *)
Theorem split_message_empty_first_chunk (content : str) :
  len content > 1900 ->
  content !! 0%nat = Some " "%char ->
  (forall j : nat, (0 < j)%nat -> Z.of_nat j < 1900 -> content !! j <> Some " "%char) ->
  exists rest, split_message content = Some ([] :: rest).
Proof.
  intros Hlen H0 Hno.
  assert (Hi : split_index content = 0).
  { destruct (split_index_spec content) as [[_ Hnone]|(k & Hi & Hk & Hc & _)].
    - exfalso. apply (Hnone 0%nat); [unfold MAX_MESSAGE_LENGTH; lia|exact H0].
    - destruct k; [exact Hi|]. exfalso.
      apply (Hno (S k)); [lia|unfold MAX_MESSAGE_LENGTH in Hk; lia|exact Hc]. }
  rewrite split_message_long by exact Hlen. rewrite Hi.
  rewrite slice_to_take by lia.
  destruct (split_message_defined (lstrip (slice_from content 0))) as (rest & -> & _).
  exists rest. reflexivity.
Qed.

Lemma split_message_empty_first_chunk_witness :
  len (" "%char :: replicate 1900 "a"%char) > 1900
  /\ exists rest,
       split_message (" "%char :: replicate 1900 "a"%char) = Some ([] :: rest).
Proof.
  assert (Hlen : len (" "%char :: replicate 1900 "a"%char) > 1900)
    by (vm_compute; reflexivity).
  split; [exact Hlen|].
  apply (split_message_empty_first_chunk _ Hlen); [reflexivity|].
  intros j Hj _ Hc. destruct j; [lia|].
  change (replicate 1900 "a"%char !! j = Some " "%char) in Hc.
  apply lookup_replicate in Hc as [Hc _]. discriminate.
Defined.

End ChunkingExtras.


Module CompletionFacts.
Import PyStr PyStrFacts TextNotions TextFacts MetaLLM.

Lemma rstrip_prefix (s : str) : exists k : nat, rstrip s = take k s.
Proof.
  unfold rstrip. destruct (lstrip_suffix (rev s)) as [k ->].
  exists (length s - k)%nat. rewrite skipn_rev. apply rev_involutive.
Qed.

Lemma rstrip_last (s : str) (c : ascii) :
  last (rstrip s) = Some c -> isspace c = false.
Proof.
  unfold rstrip. intros H. apply (lstrip_head (rev s)).
  destruct (lstrip (rev s)) as [|x t]; [discriminate|]. simpl in *.
  rewrite last_snoc in H. exact H.
Qed.

Lemma strip_trimmed (s : str) : trimmed (strip s).
Proof.
  unfold strip. split; [|apply rstrip_last].
  intros c Hc. destruct (rstrip_prefix (lstrip s)) as [k Hk]. rewrite Hk in Hc.
  apply (lstrip_head s). destruct k; [discriminate|].
  destruct (lstrip s); [discriminate|exact Hc].
Qed.

Lemma find_from_spec (s p : str) (i : Z) :
  (find_from s p i = -1 /\ forall j : nat, startswith (drop j s) p = false)
  \/ (exists k : nat, find_from s p i = i + Z.of_nat k /\ first_at s p k).
Proof.
  revert i. induction s as [|x s IH]; intros i.
  - change (find_from [] p i) with (if startswith [] p then i else -1).
    destruct (startswith [] p) eqn:Hp.
    + right. exists 0%nat. split; [lia|]. split; [exact Hp|]. intros j Hj. lia.
    + left. split; [reflexivity|]. intros j. now rewrite drop_nil.
  - change (find_from (x :: s) p i)
      with (if startswith (x :: s) p then i else find_from s p (i + 1)).
    destruct (startswith (x :: s) p) eqn:Hp.
    + right. exists 0%nat. split; [lia|]. split; [exact Hp|]. intros j Hj. lia.
    + destruct (IH (i + 1)) as [[Hr Hno]|(k & Hr & Hk & Hfirst)].
      * left. split; [exact Hr|]. intros [|j]; [exact Hp|apply Hno].
      * right. exists (S k). split; [lia|]. split; [exact Hk|].
        intros [|j] Hj; [exact Hp|]. apply Hfirst. lia.
Qed.

Lemma find_first (s p : str) (k : nat) :
  first_at s p k -> find s p = Z.of_nat k.
Proof.
  intros [Hk Hfirst]. unfold find.
  destruct (find_from_spec s p 0) as [[_ Hno]|(k' & -> & Hk' & Hfirst')].
  - rewrite Hno in Hk. discriminate.
  - destruct (lt_eq_lt_dec k k') as [[Hlt| ->]|Hlt]; [| lia |].
    + rewrite (Hfirst' k Hlt) in Hk. discriminate.
    + rewrite (Hfirst k' Hlt) in Hk'. discriminate.
Qed.

Lemma find_nowhere (s p : str) :
  (forall j : nat, startswith (drop j s) p = false) -> find s p = -1.
Proof.
  intros Hno. unfold find.
  destruct (find_from_spec s p 0) as [[H _]|(k & _ & Hk & _)]; [exact H|].
  rewrite Hno in Hk. discriminate.
Qed.

End CompletionFacts.


Module CompletionExtras.
Import PyStr PyStrFacts TextNotions TextFacts MetaLLM CompletionFacts.

(** X5. [get_llm_response] gives a text only when the completion request
    was answered with status 200, and that text has no whitespace at its
    start or at its end. *)
Theorem completion_text_is_trimmed (call : completion_call) (r : str) :
  get_llm_response call = Some r ->
  (exists text, call = Answered 200 text) /\ trimmed r.
Proof.
  unfold get_llm_response. destruct call as [status text|]; [|discriminate].
  destruct (Z.eqb_spec status 200) as [->|]; [|discriminate].
  intros H. split; [eauto|].
  destruct (_ >? 8); injection H as <-; apply strip_trimmed.
Qed.

Lemma completion_text_is_trimmed_witness :
  get_llm_response (Answered 200 (py "  hi there  ")) = Some (py "hi there")
  /\ trimmed (py "hi there").
Proof.
  assert (H : get_llm_response (Answered 200 (py "  hi there  ")) = Some (py "hi there"))
    by (vm_compute; reflexivity).
  split; [exact H|].
  exact (proj2 (completion_text_is_trimmed _ _ H)).
Defined.

(** X6. What [get_llm_response] does with the marker [Message:] in an
    answer of status 200, [full] being the answer without the whitespace
    around it.  When the marker first occurs at an index above 0, the
    result is what follows that occurrence, trimmed.  When [full] begins
    with the marker, the test [content_start > 8] fails and the result is
    [full], marker included.  When the marker does not occur, the result
    is [full]. *)
Theorem completion_marker (text : str) :
  (forall k : nat, (0 < k)%nat -> first_at (strip text) (py "Message:") k ->
     get_llm_response (Answered 200 text)
     = Some (strip (drop (k + 8) (strip text))))
  /\ (startswith (strip text) (py "Message:") = true ->
      get_llm_response (Answered 200 text) = Some (strip text))
  /\ ((forall j : nat, startswith (drop j (strip text)) (py "Message:") = false) ->
      get_llm_response (Answered 200 text) = Some (strip text)).
Proof.
  unfold get_llm_response. change (200 =? 200) with true. cbv beta iota zeta.
  split; [|split].
  - intros k Hk Hfirst. rewrite (find_first _ _ _ Hfirst).
    destruct (Z.gtb_spec (Z.of_nat k + 8) 8); [|lia].
    rewrite slice_from_drop by lia. do 3 f_equal. lia.
  - intros Hstart.
    rewrite (find_first _ _ 0%nat); [reflexivity|].
    split; [exact Hstart|]. intros j Hj. lia.
  - intros Hno. now rewrite (find_nowhere _ _ Hno).
Qed.

Lemma completion_marker_witness :
  first_at (strip (py " Reply Message: hi ")) (py "Message:") 6
  /\ get_llm_response (Answered 200 (py " Reply Message: hi ")) = Some (py "hi")
  /\ startswith (strip (py "Message: hi")) (py "Message:") = true
  /\ get_llm_response (Answered 200 (py "Message: hi")) = Some (py "Message: hi").
Proof.
  assert (Hfirst : first_at (strip (py " Reply Message: hi ")) (py "Message:") 6).
  { split; [vm_compute; reflexivity|].
    intros j Hj. do 6 (destruct j as [|j]; [vm_compute; reflexivity|]). lia. }
  assert (Hstart : startswith (strip (py "Message: hi")) (py "Message:") = true)
    by (vm_compute; reflexivity).
  split; [exact Hfirst|]. split; [|split; [exact Hstart|]].
  - destruct (completion_marker (py " Reply Message: hi ")) as (H & _ & _).
    rewrite (H 6%nat ltac:(lia) Hfirst). vm_compute. reflexivity.
  - destruct (completion_marker (py "Message: hi")) as (_ & H & _).
    rewrite (H Hstart). vm_compute. reflexivity.
Defined.

End CompletionExtras.


(** ** More on the message store *)

Module StoreMoreFacts.
Import PyStr PyStrFacts ChatHistoryService StoreSpec StoreFacts StoreNotions.

Section Facts.
Variable float : Type.
Variable cosine : list float -> list float -> float.
Variable float_leb : float -> float -> bool.
Variable isfinite : float -> bool.

Abbreviation Row := (Row float).
Abbreviation DB := (DB float).

Lemma lookup_map {A B} (f : A -> B) (l : list A) (i : nat) :
  map f l !! i = f <$> l !! i.
Proof. apply list_lookup_fmap. Qed.

Lemma where_channel_app (channel : str) (l k : list Row) :
  where_channel float channel (l ++ k)
  = where_channel float channel l ++ where_channel float channel k.
Proof. apply filter_app. Qed.

Lemma add_message_rows (now : str) (call : embedding_call float)
    (message : Message) (db : DB) :
  (call = Failed /\ add_message float now call message db = (Exception, db))
  \/ (exists row,
        call <> Failed
        /\ add_message float now call message db
           = (Ok {| status := py "success"; message_id := lastrowid db + 1 |},
              {| messages := messages db ++ [row]; lastrowid := lastrowid db + 1 |})
        /\ id row = lastrowid db + 1
        /\ channel_id row = m_channel_id message
        /\ entry_of float row
           = {| e_id := lastrowid db + 1; e_user := m_user_id message;
                e_timestamp := now; e_replying_to := m_replying_to message;
                e_content := m_content message; e_role := m_role message |}).
Proof.
  destruct call as [status v|]; [right|left; split; reflexivity].
  unfold add_message, get_embedding.
  destruct (status =? 200); eexists; (split; [discriminate|]);
    (split; [reflexivity|]); repeat split.
Qed.

(** The newest row comes first in [ORDER BY timestamp DESC]. *)
Lemma order_by_newest (rows : list Row) (row : Row) :
  Forall (fun r => str_ltb (timestamp r) (timestamp row) = true) rows ->
  order_by_timestamp_desc float (rows ++ [row])
  = row :: order_by_timestamp_desc float rows.
Proof.
  unfold order_by_timestamp_desc. induction 1 as [|r rows Hr _ IH]; [reflexivity|].
  simpl. rewrite IH. simpl. unfold str_ltb in Hr.
  now destruct (str_leb (timestamp row) (timestamp r)).
Qed.

Lemma insert_asc_perm (p : nat * float) (l : list (nat * float)) :
  Permutation (insert_asc float float_leb p l) (p :: l).
Proof.
  induction l as [|x l IH]; simpl; [reflexivity|].
  destruct (float_leb (snd p) (snd x)); [reflexivity|].
  rewrite IH. apply perm_swap.
Qed.

Lemma ranked_perm (l : list (nat * float)) :
  Permutation (foldr (insert_asc float float_leb) [] l) l.
Proof.
  induction l as [|p l IH]; simpl; [reflexivity|].
  rewrite insert_asc_perm. now rewrite IH.
Qed.

Lemma insert_asc_sorted (p : nat * float) (l : list (nat * float)) :
  linear float float_leb ->
  StronglySorted (fun a b => float_leb (snd a) (snd b) = true) l ->
  StronglySorted (fun a b => float_leb (snd a) (snd b) = true)
                 (insert_asc float float_leb p l).
Proof.
  intros [Htotal Htrans]. induction 1 as [|x l Hl IH Hx]; simpl.
  - repeat constructor.
  - destruct (float_leb (snd p) (snd x)) eqn:Hpx.
    + constructor; [constructor; assumption|].
      constructor; [exact Hpx|].
      eapply Forall_impl; [exact Hx|]. intros y Hy. simpl in Hy.
      eapply Htrans; eassumption.
    + constructor; [exact IH|].
      rewrite (insert_asc_perm p l). constructor; [|exact Hx].
      now apply Htotal.
Qed.

Lemma ranked_sorted (l : list (nat * float)) :
  linear float float_leb ->
  StronglySorted (fun a b => float_leb (snd a) (snd b) = true)
                 (foldr (insert_asc float float_leb) [] l).
Proof.
  intros Hlin. induction l as [|p l IH]; [constructor|].
  now apply insert_asc_sorted.
Qed.

Lemma StronglySorted_fmap {A B} (R : relation A) (T : relation B) (f : A -> B)
    (l : list A) :
  (forall a b, a ∈ l -> b ∈ l -> R a b -> T (f a) (f b)) ->
  StronglySorted R l -> StronglySorted T (map f l).
Proof.
  intros HT. induction 1 as [|x l Hl IH Hx]; simpl; [constructor|].
  constructor.
  - apply IH. intros a b Ha Hb. apply HT; now right.
  - apply Forall_forall. intros y Hy. apply list_elem_of_In, in_map_iff in Hy.
    destruct Hy as (a & <- & Ha). apply list_elem_of_In in Ha.
    rewrite Forall_forall in Hx. apply HT; [now left|now right|now apply Hx].
Qed.

Lemma mapM_lookup (rows : list Row) (r0 : Row) (idx : list nat) :
  Forall (fun i => (i < length rows)%nat) idx ->
  mapM (fun i : nat => rows !! i) idx
  = Some (map (fun i => default r0 (rows !! i)) idx).
Proof.
  induction 1 as [|i idx Hi _ IH]; [reflexivity|].
  simpl. rewrite IH. destruct (lookup_lt_is_Some_2 rows i Hi) as [r ->].
  reflexivity.
Qed.

Lemma mapM_vectors (rows : list Row) :
  Forall (fun r => embedding r <> None) rows ->
  mapM (fun v => v) (map embedding rows)
  = Some (map (fun r => default [] (embedding r)) rows).
Proof.
  induction 1 as [|r rows Hr _ IH]; [reflexivity|].
  simpl. rewrite IH. destruct (embedding r); [reflexivity|contradiction].
Qed.

Lemma slice_from_map {A B} (f : A -> B) (l : list A) (i : Z) :
  slice_from (map f l) i = map f (slice_from l i).
Proof. unfold slice_from. rewrite length_map. apply skipn_map. Qed.

Lemma slice_to_from {A} (l : list A) (i : Z) : slice_to l i ++ slice_from l i = l.
Proof. apply take_drop. Qed.

(** The pairs of [argsort], as lookups. *)
Lemma ranked_lookup (a : list float) (p : nat * float) :
  p ∈ foldr (insert_asc float float_leb) [] (imap (fun i v => (i, v)) a) ->
  a !! fst p = Some (snd p).
Proof.
  rewrite ranked_perm. intros Hp. apply list_elem_of_lookup in Hp as [k Hk].
  rewrite list_lookup_imap in Hk.
  destruct (a !! k) as [v|] eqn:Hv; [|discriminate]. simpl in Hk.
  injection Hk as <-. exact Hv.
Qed.

(** What the similarity query answers when the vectors can be compared:
    [all] are the rows of the channel from the lowest score to the highest,
    and the answer is the slice [[-limit:]] of them, reversed. *)
Lemma relevant_context_ranked (channel : str) (q : list float) (limit : Z)
    (db : DB) :
  where_channel float channel (messages db) <> [] ->
  comparable float isfinite q (where_channel float channel (messages db)) ->
  exists all : list Row,
    Permutation all (where_channel float channel (messages db))
    /\ get_relevant_context float cosine float_leb isfinite channel (Answered 200 q) limit db
       = Ok (map (entry_of float) (rev (slice_from all (- limit))))
    /\ (linear float float_leb ->
        StronglySorted (below float cosine float_leb q) all).
Proof.
  intros Hne (Hq & Hfin & Hrows). unfold get_relevant_context.
  change (get_embedding float (Answered 200 q)) with (Ok (Some q)).
  cbv beta iota zeta.
  destruct (where_channel float channel (messages db)) as [|r0 rows0] eqn:Hw;
    [contradiction|].
  set (rows := r0 :: rows0) in *.
  assert (Hcheck : cosine_similarity float cosine isfinite [Some q]
                     (map embedding rows)
                   = Ok [map (cosine q)
                           (map (fun r => default [] (embedding r)) rows)]).
  { unfold cosine_similarity, check_pairwise_arrays.
    change (mapM (fun v => v) [Some q]) with (Some [q]).
    rewrite mapM_vectors
      by (eapply Forall_impl; [exact Hrows|]; intros r (v & -> & _); discriminate).
    set (d := fun r : Row => default [] (embedding r)).
    assert (Hvec : forall v, In v (map d rows) ->
              length v = length q /\ forallb isfinite v = true).
    { intros v Hv. apply in_map_iff in Hv as (r & <- & Hr).
      apply list_elem_of_In in Hr. rewrite Forall_forall in Hrows.
      destruct (Hrows r Hr) as (v & Hv & Hlen & Hf). unfold d. now rewrite Hv. }
    unfold rows in *. change (map d (r0 :: rows0)) with (d r0 :: map d rows0) in *.
    cbv beta iota zeta.
    assert (Hc : bool_decide (length q ≠ 0%nat)
                 && forallb (fun v : list float => Nat.eqb (length v) (length q)) []
                 && forallb (fun v : list float => Nat.eqb (length v) (length q))
                      (d r0 :: map d rows0)
                 && forallb (forallb isfinite) [q]
                 && forallb (forallb isfinite) (d r0 :: map d rows0) = true).
    { apply andb_true_intro; split;
        [apply andb_true_intro; split;
         [apply andb_true_intro; split; [apply andb_true_intro; split|]|]|].
      - apply bool_decide_eq_true_2. destruct q; [contradiction|discriminate].
      - reflexivity.
      - apply forallb_forall. intros v Hv. apply Nat.eqb_eq. now apply Hvec.
      - simpl. now rewrite Hfin.
      - apply forallb_forall. intros v Hv. now apply Hvec. }
    rewrite Hc. reflexivity. }
  rewrite Hcheck. cbv beta iota.
  rewrite map_map. fold (score float cosine q).
  set (sims := map (score float cosine q) rows).
  set (ranked := foldr (insert_asc float float_leb) []
                   (imap (fun i v => (i, v)) sims)).
  assert (Hranked : argsort float float_leb sims = map fst ranked) by reflexivity.
  set (h := fun i : nat => default r0 (rows !! i)).
  assert (Hlook : forall p, p ∈ ranked ->
            rows !! fst p = Some (h (fst p))
            /\ snd p = score float cosine q (h (fst p))).
  { intros p Hp. apply ranked_lookup in Hp. unfold sims in Hp.
    rewrite lookup_map in Hp. unfold h.
    destruct (rows !! fst p) as [r|]; [|discriminate]. simpl in *.
    split; [reflexivity|congruence]. }
  assert (Hall : map (fun p : nat * float => h (fst p))
                   (imap (fun i v => (i, v)) sims) = rows).
  { apply list_eq. intros k. rewrite lookup_map, list_lookup_imap. unfold sims.
    rewrite lookup_map. unfold h.
    destruct (rows !! k) as [r|] eqn:Hk; simpl; [now rewrite Hk|reflexivity]. }
  exists (map h (argsort float float_leb sims)). split; [|split].
  - rewrite Hranked, map_map. unfold ranked. rewrite ranked_perm.
    now rewrite Hall.
  - rewrite (mapM_lookup rows r0).
    + rewrite slice_from_map, map_rev. reflexivity.
    + apply Forall_forall. intros i Hi.
      apply list_elem_of_In, in_rev, list_elem_of_In in Hi.
      assert (Hi' : i ∈ argsort float float_leb sims).
      { unfold slice_from in Hi. revert Hi. apply subseteq_drop. }
      rewrite Hranked in Hi'. apply list_elem_of_In, in_map_iff in Hi'.
      destruct Hi' as (p & <- & Hp). apply list_elem_of_In in Hp.
      destruct (Hlook p Hp) as [Hr _]. now apply lookup_lt_Some in Hr.
  - intros Hlin. rewrite Hranked, map_map.
    apply (StronglySorted_fmap (fun a b => float_leb (snd a) (snd b) = true)).
    + intros a b Ha Hb Hab. unfold below.
      destruct (Hlook a Ha) as [_ <-]. destruct (Hlook b Hb) as [_ <-]. exact Hab.
    + now apply ranked_sorted.
Qed.

(** When the similarity query raises. *)
Lemma relevant_context_raises (channel : str) (call : embedding_call float)
    (limit : Z) (db : DB) (entries : list Entry) :
  where_channel float channel (messages db) <> [] ->
  get_relevant_context float cosine float_leb isfinite channel call limit db = Ok entries ->
  exists q, call = Answered 200 q
    /\ comparable float isfinite q (where_channel float channel (messages db)).
Proof.
  intros Hne. unfold get_relevant_context, get_embedding.
  destruct call as [status q|]; [|discriminate].
  destruct (Z.eqb_spec status 200) as [->|]; cbv beta iota zeta.
  - destruct (where_channel float channel (messages db)) as [|r0 rows0] eqn:Hw;
      [contradiction|].
    unfold cosine_similarity, check_pairwise_arrays.
    change (mapM (fun v => v) [Some q]) with (Some [q]).
    destruct (mapM (fun v => v) (map embedding (r0 :: rows0)))
      as [[|y0 ys]|] eqn:Hys; [discriminate| |discriminate].
    cbv beta iota zeta.
    destruct (_ && _) eqn:Hc; [|discriminate].
    apply andb_prop in Hc as [Hc Hfin]. apply andb_prop in Hc as [Hc Hfq].
    apply andb_prop in Hc as [Hc Hall]. apply andb_prop in Hc as [Hq _].
    intros _. exists q. split; [reflexivity|]. split; [|split].
    + apply bool_decide_eq_true_1 in Hq. intros ->. now apply Hq.
    + simpl in Hfq. now rewrite andb_true_r in Hfq.
    + apply Forall_forall. intros r Hr. apply mapM_Some in Hys.
      apply list_elem_of_lookup in Hr as [k Hk].
      assert (Hk' : map embedding (r0 :: rows0) !! k = Some (embedding r)).
      { now rewrite lookup_map, Hk. }
      destruct (Forall2_lookup_l _ _ _ _ _ Hys Hk') as (v & Hv & Hrv).
      exists v. split; [exact Hrv|].
      apply list_elem_of_lookup_2, list_elem_of_In in Hv.
      rewrite forallb_forall in Hall, Hfin. split.
      * now apply Nat.eqb_eq, Hall.
      * now apply Hfin.
  - destruct (where_channel float channel (messages db)); [contradiction|].
    discriminate.
Qed.

(** Rows are only ever added. *)
Lemma handle_all_keeps (db : DB) (calls : list (Request float)) :
  exists rows, messages (handle_all float db calls) = messages db ++ rows.
Proof.
  revert db. induction calls as [|r calls IH]; intros db.
  - exists []. simpl. now rewrite app_nil_r.
  - simpl. destruct (IH (handle float db r)) as [rows ->].
    unfold handle.
    destruct (add_message_rows (clock r) (answer r) (body r) db)
      as [[_ ->]|(row & _ & -> & _)]; simpl.
    + now exists rows.
    + exists (row :: rows). now rewrite <- app_assoc.
Qed.

End Facts.

End StoreMoreFacts.


Module StoreRunFacts.
Import PyStr PyStrFacts ChatHistoryService StoreSpec StoreFacts StoreNotions
       StoreMoreFacts.

Section Facts.
Variable float : Type.
Variable cosine : list float -> list float -> float.
Variable float_leb : float -> float -> bool.
Variable isfinite : float -> bool.

Abbreviation Row := (Row float).
Abbreviation DB := (DB float).

(** What a sequence of calls adds to the table. *)
Lemma handle_all_rows (db : DB) (calls : list (Request float)) :
  let kept := List.filter (stored float) calls in
  lastrowid (handle_all float db calls) = lastrowid db + Z.of_nat (length kept)
  /\ map id (messages (handle_all float db calls))
     = map id (messages db) ++ seqZ (lastrowid db + 1) (Z.of_nat (length kept))
  /\ map content (messages (handle_all float db calls))
     = map content (messages db) ++ map (fun r => m_content (body r)) kept
  /\ map timestamp (messages (handle_all float db calls))
     = map timestamp (messages db) ++ map clock kept.
Proof.
  revert db. induction calls as [|r calls IH]; intros db.
  - simpl. rewrite !app_nil_r. repeat split. lia.
  - simpl. destruct (IH (handle float db r)) as (Hl & Hi & Hc & Ht).
    rewrite Hl, Hi, Hc, Ht. clear IH Hl Hi Hc Ht.
    unfold handle, stored.
    destruct (add_message_rows float (clock r) (answer r) (body r) db)
      as [[Hf ->]|(row & Hnf & -> & Hid & _ & He)].
    + rewrite Hf. simpl. repeat split.
    + destruct (answer r) as [status v|]; [|contradiction].
      pose proof (f_equal e_content He) as Hcontent.
      pose proof (f_equal e_timestamp He) as Htime. simpl in Hcontent, Htime.
      simpl. rewrite !map_app. simpl. rewrite <- !app_assoc. simpl.
      rewrite Hid, Hcontent, Htime.
      repeat split; try lia.
      f_equal.
      rewrite (seqZ_cons (lastrowid db + 1)) by lia. f_equal. f_equal; lia.
Qed.

(** How many entries the similarity query answers with. *)
Lemma relevant_context_length (channel : str) (call : embedding_call float)
    (limit : Z) (db : DB) (entries : list Entry) :
  get_relevant_context float cosine float_leb isfinite channel call limit db = Ok entries ->
  Z.of_nat (length entries)
  = if 0 <? limit
    then Z.min limit (Z.of_nat (length (where_channel float channel (messages db))))
    else Z.max 0 (Z.of_nat (length (where_channel float channel (messages db))) + limit).
Proof.
  intros H.
  destruct (decide (where_channel float channel (messages db) = [])) as [He|Hne].
  - unfold get_relevant_context in H. rewrite He in *.
    destruct (get_embedding float call); [|discriminate].
    injection H as <-. simpl. destruct (Z.ltb_spec 0 limit); lia.
  - destruct (relevant_context_raises float cosine float_leb isfinite _ _ _ _ _ Hne H)
      as (q & -> & Hcmp).
    destruct (relevant_context_ranked float cosine float_leb isfinite channel q limit db
                Hne Hcmp) as (all & Hperm & Heq & _).
    rewrite Heq in H. injection H as <-.
    rewrite length_map, length_rev. unfold slice_from. rewrite length_drop.
    rewrite <- (Permutation_length Hperm). unfold clamp.
    destruct (Z.ltb_spec (- limit) 0), (Z.ltb_spec 0 limit); lia.
Qed.

End Facts.

End StoreRunFacts.


Module StoreExtras.
Import PyStr PyStrFacts ChatHistoryService StoreSpec StoreFacts StoreNotions
       StoreMoreFacts StoreRunFacts.

Section Extras.
Variable float : Type.
Variable cosine : list float -> list float -> float.
Variable float_leb : float -> float -> bool.
Variable isfinite : float -> bool.

(** X7. Starting from the empty table, after any sequence of calls of
    [add_message] the rows are those of the calls whose embedding request
    did not raise, in the order of the calls, with the ids 1, 2, ..., n
    and no gap; [lastrowid] is n.  A call whose embedding request raised
    leaves no row and uses no id. *)
Theorem ids_number_the_stored_messages (calls : list (Request float)) :
  lastrowid (handle_all float (empty_db float) calls)
  = Z.of_nat (length (List.filter (stored float) calls))
  /\ map id (messages (handle_all float (empty_db float) calls))
     = seqZ 1 (Z.of_nat (length (List.filter (stored float) calls)))
  /\ map content (messages (handle_all float (empty_db float) calls))
     = map (fun r => m_content (body r)) (List.filter (stored float) calls)
  /\ map timestamp (messages (handle_all float (empty_db float) calls))
     = map clock (List.filter (stored float) calls).
Proof.
  destruct (handle_all_rows float (empty_db float) calls) as (Hl & Hi & Hc & Ht).
  rewrite Hl, Hi, Hc, Ht. repeat split.
Qed.

(** X8. A message that is stored comes back: after a call of [add_message]
    whose embedding request was answered, with a clock reading later than
    the timestamp of every row of the channel, the history of that channel
    with a limit from 1 to 2^63 - 1 is answered and ends with the new
    message: the new id, and the user, content, reply target and role of
    the request. *)
Theorem added_message_ends_the_history (now : str) (status : Z) (v : list float)
    (message : Message) (db : DB float) (limit : Z) :
  1 <= limit < 2 ^ 63 ->
  Forall (fun r => str_ltb (timestamp r) now = true)
         (where_channel float (m_channel_id message) (messages db)) ->
  exists entries,
    get_conversation_history float (m_channel_id message) limit
      (snd (add_message float now (Answered status v) message db))
    = Ok entries
    /\ last entries
       = Some {| e_id := lastrowid db + 1; e_user := m_user_id message;
                 e_timestamp := now; e_replying_to := m_replying_to message;
                 e_content := m_content message; e_role := m_role message |}.
Proof.
  intros Hlimit Hnew.
  destruct (add_message_rows float now (Answered status v) message db)
    as [[Hf _]|(row & _ & -> & _ & Hch & He)]; [discriminate|].
  pose proof (f_equal e_timestamp He) as Htime. simpl in Htime.
  unfold get_conversation_history. rewrite bind_int_fits by lia.
  eexists. split; [reflexivity|]. simpl.
  rewrite where_channel_app.
  assert (Hrow : where_channel float (m_channel_id message) [row] = [row]).
  { unfold where_channel. rewrite filter_cons, decide_True by exact Hch.
    reflexivity. }
  rewrite Hrow, order_by_newest by (now rewrite Htime).
  unfold sql_limit. destruct (Z.ltb_spec limit 0); [lia|].
  destruct (Z.to_nat limit) as [|n] eqn:Hn; [lia|].
  simpl. rewrite map_app. simpl. rewrite last_snoc. now rewrite He.
Qed.


(** X10. With a negative limit, down to -2^63, the history query applies
    no limit: it answers with every message of the channel, each once,
    oldest first, which is what it answers with any limit below 2^63 that
    is at least the number of messages of the channel. *)
Theorem history_without_limit (channel : str) (limit : Z) (db : DB float) :
  - 2 ^ 63 <= limit < 0 ->
  exists selected : list (Row float),
    get_conversation_history float channel limit db
    = Ok (map (entry_of float) selected)
    /\ Permutation (where_channel float channel (messages db)) selected
    /\ StronglySorted (older float) selected
    /\ forall bound,
         Z.of_nat (length (where_channel float channel (messages db))) <= bound
           < 2 ^ 63 ->
         get_conversation_history float channel bound db
         = get_conversation_history float channel limit db.
Proof.
  intros Hlimit.
  destruct (history_unbounded float channel limit db Hlimit)
    as (selected & Heq & Hperm & Hsorted).
  exists selected. split; [exact Heq|]. split; [exact Hperm|].
  split; [exact Hsorted|]. intros bound Hbound.
  unfold get_conversation_history. rewrite !bind_int_fits by lia.
  unfold sql_limit.
  destruct (Z.ltb_spec limit 0); [|lia].
  destruct (Z.ltb_spec bound 0); [lia|].
  rewrite take_ge; [reflexivity|].
  rewrite (Permutation_length (order_by_perm float _)). lia.
Qed.

(** X11. How many entries the similarity query answers with, [n] being the
    number of rows of the channel: [min limit n] for a positive limit; all
    [n] for the limit 0, since the slice from [-0] is the whole array; and
    [max 0 (n + limit)] for a negative limit, which drops the [- limit]
    lowest scores. *)
Theorem relevant_context_size (channel : str) (call : embedding_call float)
    (limit : Z) (db : DB float) (entries : list Entry) :
  get_relevant_context float cosine float_leb isfinite channel call limit db = Ok entries ->
  Z.of_nat (length entries)
  = if 0 <? limit
    then Z.min limit (Z.of_nat (length (where_channel float channel (messages db))))
    else Z.max 0 (Z.of_nat (length (where_channel float channel (messages db))) + limit).
Proof. apply relevant_context_length. Qed.

(** X12. The entries of the similarity query are the best matches, best
    first: where [<=] on the scores is a total preorder, the rows answered
    are in order of non-increasing score against the query vector, and no
    row of the channel that is left out scores higher than a row
    answered. *)
Theorem relevant_context_best_first (channel : str) (q : list float)
    (limit : Z) (db : DB float) (entries : list Entry) :
  linear float float_leb ->
  get_relevant_context float cosine float_leb isfinite channel (Answered 200 q) limit db
  = Ok entries ->
  exists rows left : list (Row float),
    entries = map (entry_of float) rows
    /\ Permutation (where_channel float channel (messages db)) (left ++ rows)
    /\ StronglySorted (fun a b => below float cosine float_leb q b a) rows
    /\ forall l r, l ∈ left -> r ∈ rows -> below float cosine float_leb q l r.
Proof.
  intros Hlin H.
  destruct (decide (where_channel float channel (messages db) = [])) as [He|Hne].
  - unfold get_relevant_context in H. rewrite He in *. simpl in H.
    injection H as <-. exists [], [].
    split; [reflexivity|]. split; [constructor|]. split; [constructor|].
    intros l r Hl. now apply not_elem_of_nil in Hl.
  - destruct (relevant_context_raises float cosine float_leb isfinite _ _ _ _ _ Hne H)
      as (q' & Hq & Hcmp).
    injection Hq as <-.
    destruct (relevant_context_ranked float cosine float_leb isfinite channel q limit db
                Hne Hcmp) as (all & Hperm & Heq & Hsorted).
    specialize (Hsorted Hlin). rewrite Heq in H. injection H as <-.
    exists (rev (slice_from all (- limit))), (slice_to all (- limit)).
    rewrite <- (slice_to_from all (- limit)) in Hsorted.
    split; [reflexivity|]. split; [|split].
    + rewrite <- Permutation_rev, slice_to_from. now symmetry.
    + apply (StronglySorted_rev_flip (below float cosine float_leb q)).
      eapply StronglySorted_app_1_r, Hsorted.
    + intros l r Hl Hr.
      apply list_elem_of_In, in_rev, list_elem_of_In in Hr.
      exact (StronglySorted_app_1_elem_of _ _ _ _ _ Hsorted Hl Hr).
Qed.

(** X13. When the similarity query answers and when it raises.  It answers
    exactly when the embedding request for the query did not raise and the
    channel has no row, or when that request was answered with status 200
    and a vector that has a dimension and finite entries, and every row of
    the channel has a vector of that dimension with finite entries.  One
    row of the channel without a vector, an infinity or a NaN in a vector,
    or an embedding backend that answers the query with another status,
    makes it raise for a channel that has rows. *)
Theorem relevant_context_answers_iff (channel : str)
    (call : embedding_call float) (limit : Z) (db : DB float) :
  (exists entries,
     get_relevant_context float cosine float_leb isfinite channel call limit db = Ok entries)
  <-> (where_channel float channel (messages db) = [] /\ call <> Failed)
      \/ (exists q, call = Answered 200 q
            /\ comparable float isfinite q (where_channel float channel (messages db))).
Proof.
  split.
  - intros [entries H].
    destruct (decide (where_channel float channel (messages db) = [])) as [He|Hne].
    + left. split; [exact He|]. intros ->. discriminate.
    + right. eapply relevant_context_raises; eassumption.
  - intros [[He Hcall]|(q & -> & Hcmp)].
    + unfold get_relevant_context. rewrite He.
      destruct call as [status q|]; [|contradiction]. simpl.
      destruct (status =? 200); eauto.
    + destruct (decide (where_channel float channel (messages db) = [])) as [He|Hne].
      * unfold get_relevant_context. rewrite He. simpl. eauto.
      * destruct (relevant_context_ranked float cosine float_leb isfinite channel q limit
                    db Hne Hcmp) as (all & _ & Heq & _).
        eauto.
Qed.

End Extras.

Lemma added_message_ends_the_history_witness :
  1 <= 1 < 2 ^ 63
  /\ exists entries,
       get_conversation_history Z (py "c1") 1
         (snd (add_message Z (py "2024-01-01T00:00:03") (Answered 200 [0; 1])
                 question asked_twice))
       = Ok entries
       /\ last entries
          = Some {| e_id := 3; e_user := py "<@1>";
                    e_timestamp := py "2024-01-01T00:00:03";
                    e_replying_to := None;
                    e_content := py "how are you"; e_role := py "human" |}.
Proof.
  split; [split; [lia|reflexivity]|].
  apply (added_message_ends_the_history Z (py "2024-01-01T00:00:03") 200 [0; 1]
           question asked_twice 1); [split; [lia|reflexivity]|].
  vm_compute. repeat constructor.
Defined.


Lemma history_without_limit_witness :
  - 2 ^ 63 <= -1 < 0
  /\ exists selected : list (Row Z),
       get_conversation_history Z (py "c1") (-1) asked_twice
       = Ok (map (entry_of Z) selected)
       /\ Permutation (where_channel Z (py "c1") (messages asked_twice)) selected
       /\ get_conversation_history Z (py "c1") 2 asked_twice
          = get_conversation_history Z (py "c1") (-1) asked_twice.
Proof.
  split; [split; [discriminate|reflexivity]|].
  destruct (history_without_limit Z (py "c1") (-1) asked_twice
              ltac:(split; [discriminate|reflexivity]))
    as (selected & Heq & Hperm & _ & Hsame).
  exists selected. split; [exact Heq|]. split; [exact Hperm|].
  apply Hsame. split; [vm_compute; discriminate|reflexivity].
Defined.

Lemma relevant_context_size_witness :
  exists entries,
    get_relevant_context Z dot Z.leb finite (py "c1") (Answered 200 [1; 1]) 0 asked_twice
    = Ok entries
    /\ Z.of_nat (length entries) = 2.
Proof.
  destruct (get_relevant_context Z dot Z.leb finite (py "c1") (Answered 200 [1; 1]) 0
              asked_twice) as [entries|] eqn:H; [|vm_compute in H; discriminate].
  exists entries. split; [reflexivity|].
  rewrite (relevant_context_size Z dot Z.leb finite _ _ _ _ _ H). vm_compute. reflexivity.
Defined.

Lemma linear_integers : linear Z Z.leb.
Proof.
  split.
  - intros a b H. apply Z.leb_gt in H. apply Z.leb_le. lia.
  - intros a b c H1 H2. apply Z.leb_le in H1, H2. apply Z.leb_le. lia.
Qed.

Lemma relevant_context_best_first_witness :
  linear Z Z.leb
  /\ exists entries,
       get_relevant_context Z dot Z.leb finite (py "c1") (Answered 200 [1; 1]) 1 asked_twice
       = Ok entries
       /\ map e_id entries = [2]
       /\ exists rows left : list (Row Z),
            entries = map (entry_of Z) rows
            /\ forall l r, l ∈ left -> r ∈ rows -> below Z dot Z.leb [1; 1] l r.
Proof.
  split; [exact linear_integers|].
  destruct (get_relevant_context Z dot Z.leb finite (py "c1") (Answered 200 [1; 1]) 1
              asked_twice) as [entries|] eqn:H; [|vm_compute in H; discriminate].
  exists entries. split; [reflexivity|]. split.
  - assert (Hs : Ok entries
                 = get_relevant_context Z dot Z.leb finite (py "c1") (Answered 200 [1; 1]) 1
                     asked_twice) by now rewrite H.
    vm_compute in Hs. injection Hs as ->. reflexivity.
  - destruct (relevant_context_best_first Z dot Z.leb finite _ _ _ _ _ linear_integers H)
      as (rows & left & Heq & _ & _ & Hbest).
    exists rows, left. split; [exact Heq|exact Hbest].
Defined.

End StoreExtras.


(** ** The prompt *)

Module PromptFacts.
Import PyStr ChatHistoryService Prompt.

Lemma append_framed_map (structured_input : list PromptMessage)
    (msgs : list Entry) :
  append_framed structured_input msgs
  = structured_input ++ map (fun msg => system (framed msg)) msgs.
Proof.
  revert structured_input. induction msgs as [|msg msgs IH]; intros acc; simpl.
  - now rewrite app_nil_r.
  - unfold append_framed in *. simpl. rewrite IH. now rewrite <- app_assoc.
Qed.

(** The prompt built from two lists of entries. *)
Lemma get_structured_input_entries (history_response context_response
                                    : response (list Entry))
    (current_message : MetaLLM.Message) (history relevant_context : list Entry) :
  get_conversation_history history_response = Entries history ->
  get_relevant_context context_response = Entries relevant_context ->
  exists prompt,
    get_structured_input history_response context_response current_message
    = Ok prompt
    /\ prompt
       = [ system (py "You are META, an AI assistant in a conversation with multiple humans and other AI assistants on Discord. Respond naturally to messages.");
           system (py "--- RAG Context Start ---") ]
         ++ map (fun msg => system (framed msg)) relevant_context
         ++ [ system (py "--- RAG Context End ---");
              system (py "--- Recent Messages Start ---") ]
         ++ map (fun msg => system (framed msg)) history
         ++ [ system (py "--- Recent Messages End ---");
              system (py "--- Task ---");
              system (respond_to current_message) ]
    /\ Forall (fun entry => p_role entry = py "system") prompt
    /\ length prompt = (7 + length relevant_context + length history)%nat.
Proof.
  intros Hh Hc. unfold get_structured_input. cbv zeta. rewrite Hh, Hc.
  rewrite !append_framed_map, <- !app_assoc.
  eexists. split; [reflexivity|]. split; [reflexivity|]. split.
  - repeat (apply Forall_app; split); repeat constructor;
      apply Forall_forall; intros entry He;
      apply list_elem_of_In, in_map_iff in He; destruct He as (msg & <- & _);
      reflexivity.
  - rewrite !length_app, !length_map. simpl. lia.
Qed.

End PromptFacts.


Module PromptExtras.
Import PyStr ChatHistoryService StoreFacts StoreNotions StoreMoreFacts
       StoreRunFacts Prompt PromptFacts.


Section Service.
Variable float : Type.
Variable cosine : list float -> list float -> float.
Variable float_leb : float -> float -> bool.
Variable isfinite : float -> bool.

(** X15. With the limits [get_structured_input] asks for (10 recent
    messages, 5 retrieved ones), the prompt is built from any store, and
    has at least 7 and at most 22 entries. *)
Theorem structured_input_bounded (db : DB float) (call : embedding_call float)
    (current_message : MetaLLM.Message) :
  exists prompt,
    structured_input_from float cosine float_leb isfinite db call current_message
    = Ok prompt
    /\ (7 <= length prompt <= 22)%nat.
Proof.
  unfold structured_input_from.
  destruct (history_selection float (str_of_int (MetaLLM.channel current_message))
              history_limit db
              ltac:(unfold history_limit; split; [lia|reflexivity]))
    as (selected & _ & Hhist & _ & _ & _ & Hlen).
  rewrite Hhist.
  assert (Hc : exists entries,
             get_relevant_context
               (fastapi (ChatHistoryService.get_relevant_context float cosine
                           float_leb isfinite
                           (str_of_int (MetaLLM.channel current_message))
                           call context_limit db)) = Entries entries
             /\ (length entries <= 5)%nat).
  { destruct (ChatHistoryService.get_relevant_context float cosine float_leb
                isfinite (str_of_int (MetaLLM.channel current_message)) call
                context_limit db) as [entries|] eqn:H; simpl.
    - exists entries. split; [reflexivity|].
      apply (relevant_context_length float cosine float_leb isfinite) in H.
      unfold context_limit in H. simpl in H. lia.
    - exists []. split; [reflexivity|]. simpl. lia. }
  destruct Hc as (entries & Hc & Hfive).
  destruct (get_structured_input_entries
              (fastapi (Ok (map (entry_of float) selected))) _ current_message
              _ entries eq_refl Hc) as (prompt & Heq & _ & _ & Hl).
  exists prompt. split; [exact Heq|].
  rewrite Hl, length_map. unfold history_limit in Hlen. lia.
Qed.

(** X16. One row without a vector costs its channel the retrieved context
    for good: when the store holds a row of the channel whose embedding is
    null, then after any further calls of [add_message], for every query
    and every limit, the similarity query raises, the service answers 500,
    and [get_relevant_context] of the bot gives the empty list. *)
Theorem context_lost_after_row_without_vector (db : DB float)
    (calls : list (Request float)) (row : Row float) (channel : str)
    (call : embedding_call float) (limit : Z) :
  row ∈ messages db -> channel_id row = channel -> embedding row = None ->
  ChatHistoryService.get_relevant_context float cosine float_leb isfinite channel call limit
    (handle_all float db calls) = Exception
  /\ get_relevant_context
       (fastapi (ChatHistoryService.get_relevant_context float cosine float_leb
                   isfinite channel call limit (handle_all float db calls)))
     = Entries [].
Proof.
  intros Hrow Hch Hnone.
  assert (Hin : row ∈ where_channel float channel
                        (messages (handle_all float db calls))).
  { destruct (handle_all_keeps float db calls) as [rows ->].
    unfold where_channel. apply list_elem_of_filter. split; [exact Hch|].
    apply elem_of_app. now left. }
  assert (Hraise : ChatHistoryService.get_relevant_context float cosine float_leb isfinite
                     channel call limit (handle_all float db calls) = Exception).
  { destruct (ChatHistoryService.get_relevant_context float cosine float_leb isfinite
                channel call limit (handle_all float db calls))
      as [entries|] eqn:H; [|reflexivity].
    exfalso.
    assert (Hne : where_channel float channel
                    (messages (handle_all float db calls)) <> []).
    { intros He. rewrite He in Hin. now apply not_elem_of_nil in Hin. }
    destruct (relevant_context_raises float cosine float_leb isfinite _ _ _ _ _ Hne H)
      as (q & _ & _ & _ & Hall).
    rewrite Forall_forall in Hall. destruct (Hall row Hin) as (v & Hv & _).
    congruence. }
  split; [exact Hraise|]. now rewrite Hraise.
Qed.

End Service.

Lemma context_lost_after_row_without_vector_witness :
  exists row : Row Z,
    row ∈ messages asked_while_down /\ channel_id row = py "c1"
    /\ embedding row = None
    /\ get_relevant_context
         (fastapi (ChatHistoryService.get_relevant_context Z dot Z.leb finite (py "c1")
                     (Answered 200 [1; 1]) 5
                     (handle_all Z asked_while_down
                        [ {| clock := py "2024-01-01T00:00:02";
                             answer := Answered 200 [1; 2];
                             body := question |} ]))) = Entries [].
Proof.
  destruct (messages asked_while_down) as [|row rows] eqn:Hrows;
    [vm_compute in Hrows; discriminate|].
  assert (Hs : row :: rows = messages asked_while_down) by now rewrite Hrows.
  assert (Hin : row ∈ messages asked_while_down)
    by (rewrite <- Hs; now left).
  assert (Hch : channel_id row = py "c1")
    by (vm_compute in Hs; injection Hs as -> _; reflexivity).
  assert (Hnone : embedding row = None)
    by (vm_compute in Hs; injection Hs as -> _; reflexivity).
  exists row. split; [rewrite <- Hrows; exact Hin|]. split; [exact Hch|].
  split; [exact Hnone|].
  exact (proj2 (context_lost_after_row_without_vector Z dot Z.leb finite asked_while_down
                  _ row (py "c1") (Answered 200 [1; 1]) 5 Hin Hch Hnone)).
Defined.

End PromptExtras.


(** ** More on the dispatcher *)

Module TraceFacts.
Import PyStr Chunking ChunkingFacts MetaLLM DispatcherSpec DispatcherFacts
       DispatcherTrace.

Lemma in_channel_dec (p : Point) (c : Z) :
  channel_of p = Some c \/ channel_of p <> Some c.
Proof. destruct (decide (channel_of p = Some c)); auto. Qed.

Lemma own_in_here (own : Point -> list Message) (c : Z) (p : Point) :
  channel_of p = Some c -> own_in own c p = own p.
Proof. intros H. unfold own_in. now rewrite decide_True. Qed.

Lemma own_in_elsewhere (own : Point -> list Message) (c : Z) (p : Point) :
  channel_of p <> Some c -> own_in own c p = [].
Proof. intros H. unfold own_in. now rewrite decide_False. Qed.

Section Stage.
Variable A B : Z -> list Event -> list Message.
Variable own : Point -> list Message.

(** Where the resumed task is with respect to channel [c], before and
    after, and what the invariant says there. *)
Lemma stage_cases (P P' : gset Z) (l extra : list Point) (me : nat)
    (p p' : Point) (c : Z) :
  exclusive P l -> l !! me = Some p ->
  Forall (fun q => channel_of q = None) extra ->
  effect p p' P P' ->
  let l' := <[me := p']> (l ++ extra) in
  (* the task stays outside *)
  (channel_of p <> Some c /\ channel_of p' <> Some c
   /\ (c ∈ P' <-> c ∈ P)
   /\ forall j q, l' !! j = Some q -> channel_of q = Some c -> l !! j = Some q)
  (* it stays inside *)
  \/ (channel_of p = Some c /\ channel_of p' = Some c /\ c ∈ P'
      /\ forall j q, l' !! j = Some q -> channel_of q = Some c -> q = p')
  (* it enters *)
  \/ (channel_of p <> Some c /\ channel_of p' = Some c /\ (c ∉ P) /\ c ∈ P'
      /\ forall j q, l' !! j = Some q -> channel_of q = Some c -> q = p')
  (* it leaves *)
  \/ (channel_of p = Some c /\ channel_of p' <> Some c /\ (c ∉ P')
      /\ forall j q, l' !! j = Some q -> channel_of q = Some c -> False).
Proof.
  intros Hex Hme Hextra Heff l'. destruct (Hex c) as [HinP Huniq].
  assert (Hlook : forall j q, l' !! j = Some q -> channel_of q = Some c ->
            (j = me /\ q = p') \/ (j <> me /\ l !! j = Some q)).
  { intros j q Hj Hq. eapply lookup_updated; eauto. }
  destruct (in_channel_dec p c) as [Hp|Hp], (in_channel_dec p' c) as [Hp'|Hp'].
  - right. left. split; [exact Hp|]. split; [exact Hp'|]. split.
    + destruct Heff as [[_ ->]|[(c0 & H0 & _)|(c0 & _ & H0 & _)]];
        [|congruence|congruence].
      apply HinP. eauto.
    + intros j q Hj Hq. destruct (Hlook j q Hj Hq) as [[_ ->]|[Hne Hold]];
        [reflexivity|].
      exfalso. apply Hne. eapply Huniq; eauto.
  - right. right. right. split; [exact Hp|]. split; [exact Hp'|]. split.
    + destruct Heff as [[Heq _]|[(c0 & H0 & _)|(c0 & H0 & _ & ->)]];
        [congruence|congruence|].
      assert (c0 = c) by congruence. subst c0.
      intros Hin. apply elem_of_difference in Hin as [_ Hin].
      apply Hin. now apply elem_of_singleton.
    + intros j q Hj Hq. destruct (Hlook j q Hj Hq) as [[_ ->]|[Hne Hold]];
        [congruence|].
      apply Hne. eapply Huniq; eauto.
  - right. right. left. split; [exact Hp|]. split; [exact Hp'|].
    destruct Heff as [[Heq _]|[(c0 & H0 & H0' & Hc0 & ->)|(c0 & _ & H0 & _)]];
      [congruence| |congruence].
    assert (c0 = c) by congruence. subst c0.
    split; [exact Hc0|]. split; [apply elem_of_union; right; now apply elem_of_singleton|].
    intros j q Hj Hq. destruct (Hlook j q Hj Hq) as [[_ ->]|[Hne Hold]];
      [reflexivity|].
    exfalso. apply Hc0, HinP. eauto.
  - left. split; [exact Hp|]. split; [exact Hp'|]. split.
    + destruct Heff as [[_ ->]|[(c0 & _ & H0 & _ & ->)|(c0 & H0 & _ & ->)]];
        [reflexivity| |].
      * rewrite elem_of_union, elem_of_singleton.
        split; [intros [?| ->]; [assumption|congruence]|auto].
      * rewrite elem_of_difference, elem_of_singleton.
        split; [now intros [? _]|]. intros Hin. split; [exact Hin|]. congruence.
    + intros j q Hj Hq. destruct (Hlook j q Hj Hq) as [[_ ->]|[Hne Hold]];
        [congruence|exact Hold].
Qed.

Lemma staged_resume (st st1 : State) (extra : list Point) (me : nat)
    (p p' : Point) :
  exclusive (processing_channels st) (tasks st) -> staged A B own st ->
  tasks st !! me = Some p -> tasks st1 = tasks st ++ extra ->
  Forall (fun q => channel_of q = None) extra ->
  effect p p' (processing_channels st) (processing_channels st1) ->
  moves A B own p p' (log st) (log st1) ->
  staged A B own (set_tasks (<[me := p']> (tasks st1)) st1).
Proof.
  intros Hex Hst Hme Htasks Hextra Heff Hmov c. simpl. rewrite Htasks.
  destruct (Hmov c) as (new_A & new_B & -> & -> & Hown & Hquiet).
  destruct (Hst c) as [Hout Hin].
  destruct (stage_cases _ _ _ _ _ _ _ c Hex Hme Hextra Heff)
    as [(Hp & Hp' & HP & Hold)|[(Hp & Hp' & HP & Hold)|[(Hp & Hp' & HP & HP' & Hold)
       |(Hp & Hp' & HP & Hold)]]].
  - destruct (Hquiet Hp Hp') as [-> ->]. rewrite !app_nil_r. split.
    + intros Hc. apply Hout. now rewrite <- HP.
    + intros j q Hj Hq. eapply Hin; eauto.
  - rewrite !own_in_here in Hown by assumption. split; [contradiction|].
    intros j q Hj Hq. rewrite (Hold j q Hj Hq).
    rewrite (Hin me p Hme Hp), <- !app_assoc. now f_equal.
  - rewrite own_in_elsewhere in Hown by assumption.
    rewrite own_in_here in Hown by assumption. split; [contradiction|].
    intros j q Hj Hq. rewrite (Hold j q Hj Hq).
    rewrite (Hout HP), <- !app_assoc. now f_equal.
  - rewrite own_in_here in Hown by assumption.
    rewrite own_in_elsewhere, app_nil_r in Hown by assumption. split.
    + intros _. rewrite (Hin me p Hme Hp), <- !app_assoc. now f_equal.
    + intros j q Hj Hq. destruct (Hold j q Hj Hq).
Qed.

Lemma trailing_resume (st st1 : State) (extra : list Point) (me : nat)
    (p p' : Point) :
  exclusive (processing_channels st) (tasks st) -> trailing A B own st ->
  tasks st !! me = Some p -> tasks st1 = tasks st ++ extra ->
  Forall (fun q => channel_of q = None) extra ->
  effect p p' (processing_channels st) (processing_channels st1) ->
  moves A B own p p' (log st) (log st1) \/ drops A B p' (log st) (log st1) ->
  trailing A B own (set_tasks (<[me := p']> (tasks st1)) st1).
Proof.
  intros Hex Hst Hme Htasks Hextra Heff Hstep c. simpl. rewrite Htasks.
  destruct (Hst c) as [Hout Hin].
  destruct (stage_cases _ _ _ _ _ _ _ c Hex Hme Hextra Heff)
    as [(Hp & Hp' & HP & Hold)|[(Hp & Hp' & HP & Hold)|[(Hp & Hp' & HP & HP' & Hold)
       |(Hp & Hp' & HP & Hold)]]];
    (destruct Hstep as [Hmov|[Hnone Hsame]];
     [destruct (Hmov c) as (new_A & new_B & -> & -> & Hown & Hquiet)
     |destruct (Hsame c) as [[new_A ->] ->]]).
  - destruct (Hquiet Hp Hp') as [-> ->]. rewrite !app_nil_r. split.
    + intros Hc. apply Hout. now rewrite <- HP.
    + intros j q Hj Hq. eapply Hin; eauto.
  - split.
    + intros Hc. apply sublist_inserts_r, Hout. now rewrite <- HP.
    + intros j q Hj Hq. apply sublist_inserts_r. eapply Hin; eauto.
  - rewrite !own_in_here in Hown by assumption. split; [contradiction|].
    intros j q Hj Hq. rewrite (Hold j q Hj Hq).
    rewrite <- app_assoc, <- Hown, app_assoc.
    apply sublist_app; [now apply (Hin me p)|reflexivity].
  - congruence.
  - rewrite own_in_elsewhere in Hown by assumption.
    rewrite own_in_here in Hown by assumption. split; [contradiction|].
    intros j q Hj Hq. rewrite (Hold j q Hj Hq).
    rewrite <- app_assoc, <- Hown. simpl.
    apply sublist_app; [now apply Hout|reflexivity].
  - congruence.
  - rewrite own_in_here in Hown by assumption.
    rewrite own_in_elsewhere, app_nil_r in Hown by assumption. split.
    + intros _. rewrite <- Hown, app_assoc.
      apply sublist_app; [now apply (Hin me p)|reflexivity].
    + intros j q Hj Hq. destruct (Hold j q Hj Hq).
  - split.
    + intros _. apply sublist_inserts_r.
      transitivity (B c (log st) ++ own p); [|now apply (Hin me p)].
      apply sublist_inserts_r. reflexivity.
    + intros j q Hj Hq. destruct (Hold j q Hj Hq).
Qed.

End Stage.

End TraceFacts.


Module WorkerFacts.
Import PyStr Chunking ChunkingFacts MetaLLM DispatcherSpec DispatcherFacts
       DispatcherTrace TraceFacts.

Lemma flat_map_snoc {X Y} (f : X -> list Y) (l : list X) (x : X) :
  flat_map f (l ++ [x]) = flat_map f l ++ f x.
Proof. rewrite flat_map_app. simpl. now rewrite app_nil_r. Qed.

(** All the ways a task can be resumed. *)
Ltac resume_points H :=
  match type of H with
  | MetaLLM.resume _ ?p ?o _ = _ =>
      unfold MetaLLM.resume in H; destruct p, o; cbv beta iota in H;
      try discriminate H
  end;
  unfold start, enqueue, fail in H;
  rewrite ?drain_once in H;
  unfold fail, next_message, leave in H;
  repeat (case_match; simplify_eq; try discriminate);
  simplify_eq;
  repeat match goal with
         | G : _ && _ = true |- _ => apply andb_prop in G; destruct G
         | G : bool_decide _ = true |- _ => apply bool_decide_eq_true_1 in G
         end.

(** What is added to the sequences of a channel, case by case. *)
Ltac settle_moves :=
  let c := fresh "c" in
  intros c; unfold own_in; simpl;
  rewrite ?flat_map_snoc; simpl;
  repeat match goal with
         | |- context [?a =? ?b] => destruct (Z.eqb_spec a b); subst
         end;
  repeat case_decide; simplify_eq; try congruence;
  try match goal with G : List.filter _ _ = _ |- _ => rewrite G end;
  eexists _, _;
  (split; [first [rewrite <- ?app_assoc; reflexivity|symmetry; apply app_nil_r]|]);
  (split; [first [rewrite <- ?app_assoc; reflexivity|symmetry; apply app_nil_r]|]);
  (split;
   [ simpl; rewrite ?app_nil_r; reflexivity
   | simpl; intros; first [congruence | split; reflexivity] ]).

Section Bot.
Variable bot_user : User.

Abbreviation relevant := (relevant bot_user).
Abbreviation resume := (resume bot_user).
Abbreviation step := (step bot_user).
Abbreviation run := (run bot_user).
Abbreviation selected := (selected bot_user).


(** A worker whose filter raises gives up the batch it has popped. *)
Lemma resume_trails_selected (p p' : Point) (o : Outcome) (st st1 : State) :
  resume p o st = Some (st1, p') ->
  moves selected handed rest_of p p' (log st) (log st1)
  \/ drops selected handed p' (log st) (log st1).
Proof.
  intros H. unfold moves, drops, selected, handed.
  resume_points H;
    first
      [ left; settle_moves
      | right; simpl; (split; [reflexivity|]); intros c;
        rewrite ?flat_map_snoc; simpl; rewrite ?app_nil_r;
        (split; [eexists; rewrite <- ?app_assoc; reflexivity
                |rewrite <- ?app_assoc; reflexivity])
      | right; simpl; (split; [reflexivity|]); intros c;
        rewrite ?flat_map_snoc; simpl; rewrite ?app_nil_r;
        (split; [exists []; now rewrite app_nil_r|reflexivity]) ].
Qed.

Lemma resume_trails_handed (p p' : Point) (o : Outcome) (st st1 : State) :
  resume p o st = Some (st1, p') ->
  moves handed requested before_request p p' (log st) (log st1)
  \/ drops handed requested p' (log st) (log st1).
Proof.
  intros H. unfold moves, drops, handed, requested.
  resume_points H;
    first
      [ left; settle_moves
      | right; simpl; (split; [reflexivity|]); intros c;
        rewrite ?flat_map_snoc; simpl; rewrite ?app_nil_r;
        (split; [exists []; now rewrite app_nil_r|reflexivity]) ].
Qed.


Lemma resume_moves_requested (p p' : Point) (o : Outcome) (st st1 : State) :
  resume p o st = Some (st1, p') ->
  moves requested responded awaiting_completion p p' (log st) (log st1).
Proof.
  intros H. unfold moves, requested, responded.
  resume_points H; settle_moves.
Qed.

Section Stage.
Variable A B : Z -> list Event -> list Message.
Variable own : Point -> list Message.
Variable allowed : Action -> Prop.
Variable inv : State -> Prop.

Hypothesis inv_step :
  forall st st' a, inv st -> step st a = Some st' -> inv st'.

Hypothesis record_is_silent :
  forall c l c0 r,
    A c (l ++ [RecordChatHistory c0 r]) = A c l
    /\ B c (l ++ [RecordChatHistory c0 r]) = B c l.

Lemma staged_deliver (st : State) (message : Message) (draw : Q) :
  staged A B own st -> staged A B own (deliver bot_user message draw st).
Proof.
  intros Hst. unfold deliver.
  destruct (user_eqb (author message) bot_user); [exact Hst|].
  destruct (deleted_reference message); [exact Hst|].
  intros c. destruct (Hst c) as [Hout Hin]. simpl.
  destruct (record_is_silent c (log st) (channel message) (user_message message))
    as [-> ->].
  split; [exact Hout|]. intros i p Hi Hp. apply (Hin i p); [|exact Hp].
  destruct (decide (i < length (tasks st))%nat) as [Hlt|Hge].
  - now rewrite lookup_app_l in Hi.
  - rewrite lookup_app_r in Hi by lia.
    destruct (i - length (tasks st))%nat as [|k];
      [injection Hi as <-; discriminate Hp|destruct k; discriminate Hi].
Qed.

Lemma trailing_deliver (st : State) (message : Message) (draw : Q) :
  trailing A B own st -> trailing A B own (deliver bot_user message draw st).
Proof.
  intros Hst. unfold deliver.
  destruct (user_eqb (author message) bot_user); [exact Hst|].
  destruct (deleted_reference message); [exact Hst|].
  intros c. destruct (Hst c) as [Hout Hin]. simpl.
  destruct (record_is_silent c (log st) (channel message) (user_message message))
    as [-> ->].
  split; [exact Hout|]. intros i p Hi Hp. apply (Hin i p); [|exact Hp].
  destruct (decide (i < length (tasks st))%nat) as [Hlt|Hge].
  - now rewrite lookup_app_l in Hi.
  - rewrite lookup_app_r in Hi by lia.
    destruct (i - length (tasks st))%nat as [|k];
      [injection Hi as <-; discriminate Hp|destruct k; discriminate Hi].
Qed.

Lemma staged_run (schedule : list Action) (st st' : State) :
  (forall me o p q st0 st1,
     inv st0 -> allowed (Resume me o) -> resume p o st0 = Some (st1, q) ->
     moves A B own p q (log st0) (log st1)) ->
  Forall allowed schedule -> inv st ->
  exclusive (processing_channels st) (tasks st) -> staged A B own st ->
  run st schedule = Some st' -> staged A B own st'.
Proof.
  intros Hmoves. revert st.
  induction schedule as [|a schedule IH]; intros st Hall Hinv Hex Hst Hrun;
    simpl in Hrun.
  - now injection Hrun as <-.
  - destruct (step st a) as [st1|] eqn:Hstep; [|discriminate].
    apply Forall_cons in Hall as [Ha Hall].
    apply (IH st1 Hall);
      [eapply inv_step; eauto|eapply exclusive_step; eauto| |exact Hrun].
    destruct a as [message draw|me o]; simpl in Hstep.
    + injection Hstep as <-. now apply staged_deliver.
    + destruct (tasks st !! me) as [p|] eqn:Hme; [|discriminate].
      destruct (resume p o st) as [[st2 q]|] eqn:Hres; [|discriminate].
      injection Hstep as <-.
      destruct (resume_tasks _ _ _ _ _ _ Hres) as (extra & Htasks & Hextra).
      eapply staged_resume; eauto using resume_effect.
Qed.

Lemma trailing_run (schedule : list Action) (st st' : State) :
  (forall o p q st0 st1,
     resume p o st0 = Some (st1, q) ->
     moves A B own p q (log st0) (log st1) \/ drops A B q (log st0) (log st1)) ->
  exclusive (processing_channels st) (tasks st) -> trailing A B own st ->
  run st schedule = Some st' -> trailing A B own st'.
Proof.
  intros Hmoves. revert st.
  induction schedule as [|a schedule IH]; intros st Hex Hst Hrun;
    simpl in Hrun.
  - now injection Hrun as <-.
  - destruct (step st a) as [st1|] eqn:Hstep; [|discriminate].
    apply (IH st1); [eapply exclusive_step; eauto| |exact Hrun].
    destruct a as [message draw|me o]; simpl in Hstep.
    + injection Hstep as <-. now apply trailing_deliver.
    + destruct (tasks st !! me) as [p|] eqn:Hme; [|discriminate].
      destruct (resume p o st) as [[st2 q]|] eqn:Hres; [|discriminate].
      injection Hstep as <-.
      destruct (resume_tasks _ _ _ _ _ _ Hres) as (extra & Htasks & Hextra).
      eapply trailing_resume; eauto using resume_effect.
Qed.

End Stage.

Lemma staged_initial (A B : Z -> list Event -> list Message)
    (own : Point -> list Message) :
  (forall c, A c [] = B c []) -> staged A B own initial.
Proof.
  intros H c. split; [intros _; apply H|]. intros i p Hi. destruct i; discriminate.
Qed.

Lemma trailing_initial (A B : Z -> list Event -> list Message)
    (own : Point -> list Message) :
  (forall c, A c [] = B c []) -> trailing A B own initial.
Proof.
  intros H c. split; [intros _; simpl; now rewrite H|].
  intros i p Hi. destruct i; discriminate.
Qed.

Lemma selected_batches (c : Z) (l : list Event) :
  selected c l = List.filter relevant (concat (batches c l)).
Proof.
  induction l as [|e l IH]; [reflexivity|].
  unfold selected, batches in *. simpl. rewrite IH.
  destruct e; try reflexivity.
  destruct (_ =? c); [|reflexivity]. simpl. now rewrite List.filter_app.
Qed.

(** The three stages of a reachable state. *)
Lemma requested_staged (schedule : list Action) (st : State) :
  run initial schedule = Some st ->
  staged requested responded awaiting_completion st.
Proof.
  intros Hrun.
  apply (staged_run requested responded awaiting_completion (fun _ => True)
           (fun _ => True) ltac:(auto)
           ltac:(intros; split; unfold requested, responded;
                 now rewrite flat_map_snoc, app_nil_r)
           schedule initial st); auto using exclusive_initial.
  - intros me o p q st0 st1 _ _. apply resume_moves_requested.
  - apply Forall_forall. auto.
  - now apply staged_initial.
Qed.


Lemma worker_trailing (schedule : list Action) (st : State) :
  run initial schedule = Some st ->
  trailing selected handed rest_of st
  /\ trailing handed requested before_request st.
Proof.
  intros Hrun. split.
  - apply (trailing_run selected handed rest_of
             ltac:(intros; split; unfold selected, handed;
                   now rewrite flat_map_snoc, app_nil_r)
             schedule initial st); auto using exclusive_initial.
    + intros o p q st0 st1 Hres. eapply resume_trails_selected; eauto.
    + now apply trailing_initial.
  - apply (trailing_run handed requested before_request
             ltac:(intros; split; unfold handed, requested;
                   now rewrite flat_map_snoc, app_nil_r)
             schedule initial st); auto using exclusive_initial.
    + intros o p q st0 st1 Hres. eapply resume_trails_handed; eauto.
    + now apply trailing_initial.
Qed.

(** A channel without a worker, and the worker of a channel. *)
Lemma no_worker (st : State) (c : Z) :
  exclusive (processing_channels st) (tasks st) ->
  (forall i p, tasks st !! i = Some p -> channel_of p <> Some c) ->
  c ∉ processing_channels st.
Proof.
  intros Hex Hno Hc. apply (Hex c) in Hc as (i & q & Hi & Hq).
  exact (Hno i q Hi Hq).
Qed.

Lemma quiescent_no_worker (st : State) (c : Z) :
  exclusive (processing_channels st) (tasks st) -> quiescent st ->
  c ∉ processing_channels st.
Proof.
  intros Hex Hq. apply no_worker; [exact Hex|]. intros i p Hi.
  unfold quiescent in Hq. rewrite Forall_lookup in Hq.
  rewrite (Hq i p Hi). discriminate.
Qed.

End Bot.

End WorkerFacts.


Module WorkerExtras.
Import PyStr Chunking ChunkingFacts MetaLLM DispatcherSpec DispatcherFacts
       DispatcherTrace TraceFacts WorkerFacts.

(** X17. In every state the event loop can reach, whatever the schedule,
    the completions requested for a channel are, in order, those that
    were answered, followed by the one that is awaited when a worker of the
    channel is inside [get_llm_response]: a completion is requested for a
    channel only after the one before it was answered, and the answers come
    in the order of the requests. *)
Theorem completions_alternate (bot_user : User) (schedule : list Action)
    (st : State) (c : Z) :
  run bot_user initial schedule = Some st ->
  (forall i msg rest,
     tasks st !! i = Some (AtCompletion c msg rest) ->
     requested c (log st) = responded c (log st) ++ [msg])
  /\ ((forall i msg rest, tasks st !! i <> Some (AtCompletion c msg rest)) ->
      requested c (log st) = responded c (log st)).
Proof.
  intros Hrun.
  pose proof (exclusive_run bot_user schedule initial st exclusive_initial Hrun)
    as Hex.
  destruct (requested_staged bot_user schedule st Hrun c) as [Hout Hin].
  split.
  - intros i msg rest Hi. now apply (Hin i _ Hi).
  - intros Hno. destruct (decide (c ∈ processing_channels st)) as [Hc|Hc];
      [|now apply Hout].
    apply (Hex c) in Hc as (i & q & Hi & Hq).
    rewrite (Hin i q Hi Hq).
    destruct q; simpl in *; try apply app_nil_r.
    injection Hq as ->. now apply Hno in Hi.
Qed.

Lemma completions_alternate_witness :
  exists st, run meta initial overlapping = Some st
    /\ tasks st !! 1%nat = Some (AtCompletion 7 m1 [])
    /\ requested 7 (log st) = responded 7 (log st) ++ [m1].
Proof.
  destruct (run meta initial overlapping) as [st|] eqn:Hrun;
    [|vm_compute in Hrun; discriminate].
  assert (Hst : Some st = run meta initial overlapping) by now rewrite Hrun.
  assert (Hi : tasks st !! 1%nat = Some (AtCompletion 7 m1 [])).
  { vm_compute in Hst. injection Hst as ->. reflexivity. }
  exists st. split; [reflexivity|]. split; [exact Hi|].
  exact (proj1 (completions_alternate meta overlapping st 7 Hrun) 1%nat m1 [] Hi).
Defined.



(** X19. In every state the event loop can reach, also after awaited calls
    have raised, what was handed to context assembly for a channel is taken
    from the messages enqueued for that channel that pass the filter of the
    worker, in their order and none twice; and the completions requested
    are taken in the same way from the messages handed.  So no message that
    fails the filter is ever handed to context assembly or to the
    completion backend. *)
Theorem nothing_is_handed_but_what_passes (bot_user : User)
    (schedule : list Action) (st : State) (c : Z) :
  run bot_user initial schedule = Some st ->
  sublist (handed c (log st))
          (List.filter (relevant bot_user) (enqueued c (log st)))
  /\ sublist (requested c (log st)) (handed c (log st))
  /\ Forall (fun m => relevant bot_user m = true) (handed c (log st))
  /\ Forall (fun m => relevant bot_user m = true) (requested c (log st)).
Proof.
  intros Hrun.
  pose proof (exclusive_run bot_user schedule initial st exclusive_initial Hrun)
    as Hex.
  pose proof (conserved_run bot_user schedule initial st conserved_initial Hrun c)
    as Hcons.
  destruct (worker_trailing bot_user schedule st Hrun) as [Hs1 Hs2].
  destruct (Hs1 c) as [Hout1 Hin1]. destruct (Hs2 c) as [Hout2 Hin2].
  rewrite selected_batches in Hout1, Hin1.
  assert (H1 : sublist (handed c (log st))
                 (List.filter (relevant bot_user) (enqueued c (log st)))).
  { rewrite Hcons, List.filter_app. apply sublist_inserts_r.
    destruct (decide (c ∈ processing_channels st)) as [Hc|Hc];
      [|now apply Hout1].
    apply (Hex c) in Hc as (i & q & Hi & Hq).
    transitivity (handed c (log st) ++ rest_of q); [|now apply (Hin1 i q)].
    apply sublist_inserts_r. reflexivity. }
  assert (H2 : sublist (requested c (log st)) (handed c (log st))).
  { destruct (decide (c ∈ processing_channels st)) as [Hc|Hc];
      [|now apply Hout2].
    apply (Hex c) in Hc as (i & q & Hi & Hq).
    transitivity (requested c (log st) ++ before_request q); [|now apply (Hin2 i q)].
    apply sublist_inserts_r. reflexivity. }
  assert (H3 : Forall (fun m => relevant bot_user m = true) (handed c (log st))).
  { apply Forall_forall. intros m Hm.
    pose proof (elem_of_sublist _ _ _ Hm H1) as Hin.
    apply list_elem_of_In, filter_In in Hin. tauto. }
  split; [exact H1|]. split; [exact H2|]. split; [exact H3|].
  apply Forall_forall. intros m Hm. rewrite Forall_forall in H3.
  apply H3. exact (elem_of_sublist _ _ _ Hm H2).
Qed.

Lemma nothing_is_handed_but_what_passes_witness :
  exists st, run meta initial apology_raises = Some st
    /\ List.filter (relevant meta) (enqueued 7 (log st)) = [m1; m2]
    /\ handed 7 (log st) = [m1]
    /\ sublist (handed 7 (log st))
               (List.filter (relevant meta) (enqueued 7 (log st))).
Proof.
  destruct (run meta initial apology_raises) as [st|] eqn:Hrun;
    [|vm_compute in Hrun; discriminate].
  exists st. split; [reflexivity|].
  assert (Hst : Some st = run meta initial apology_raises) by now rewrite Hrun.
  split; [|split].
  - vm_compute in Hst. injection Hst as ->. vm_compute. reflexivity.
  - vm_compute in Hst. injection Hst as ->. reflexivity.
  - exact (proj1 (nothing_is_handed_but_what_passes meta apology_raises st 7 Hrun)).
Defined.

End WorkerExtras.


Module ArrivalFacts.
Import PyStr Chunking ChunkingFacts MetaLLM DispatcherSpec DispatcherFacts
       DispatcherTrace TraceFacts WorkerFacts.

Section Bot.
Variable bot_user : User.

Abbreviation relevant := (relevant bot_user).
Abbreviation resume := (resume bot_user).
Abbreviation step := (step bot_user).
Abbreviation run := (run bot_user).

Lemma run_snoc (schedule : list Action) (a : Action) (st : State) :
  run st (schedule ++ [a])
  = match run st schedule with
    | Some st1 => step st1 a
    | None => None
    end.
Proof.
  revert st. induction schedule as [|b schedule IH]; intros st; simpl.
  - now destruct (step st a).
  - destruct (step st b); [apply IH|reflexivity].
Qed.

(** Only [on_message] posts records that are not the bot's replies. *)
Lemma resume_user_records (p p' : Point) (o : Outcome) (st st1 : State) :
  resume p o st = Some (st1, p') ->
  user_records (log st1) = user_records (log st).
Proof.
  intros H. unfold user_records.
  resume_points H; simpl; rewrite ?flat_map_snoc; simpl;
    now rewrite ?app_nil_r.
Qed.

Lemma user_message_role (message : Message) :
  str_eqb (r_role (user_message message)) (py "assistant") = false.
Proof. unfold user_message. simpl. now destruct (bot (author message)). Qed.

Lemma run_user_records (schedule : list Action) (st st' : State) :
  run st schedule = Some st' ->
  user_records (log st')
  = user_records (log st)
    ++ map (fun m => (channel m, user_message m)) (arrivals bot_user schedule).
Proof.
  revert st. induction schedule as [|a schedule IH]; intros st Hrun;
    simpl in Hrun.
  - injection Hrun as <-. simpl. now rewrite app_nil_r.
  - destruct (step st a) as [st1|] eqn:Hstep; [|discriminate].
    rewrite (IH st1 Hrun). clear IH Hrun.
    destruct a as [message draw|me o]; simpl in Hstep.
    + injection Hstep as <-. unfold deliver. simpl.
      destruct (user_eqb (author message) bot_user); [reflexivity|].
      destruct (deleted_reference message); [reflexivity|].
      simpl. unfold user_records at 1. rewrite flat_map_snoc.
      fold (user_records (log st)). cbv beta iota.
      rewrite user_message_role, <- app_assoc. reflexivity.
    + destruct (tasks st !! me) as [p|]; [|discriminate].
      destruct (resume p o st) as [[st2 q]|] eqn:Hres; [|discriminate].
      injection Hstep as <-. simpl.
      now rewrite (resume_user_records _ _ _ _ _ Hres).
Qed.

Lemma arrivals_delivered (schedule : list Action) (m : Message) :
  m ∈ arrivals bot_user schedule
  <-> exists draw, Deliver m draw ∈ schedule
        /\ user_eqb (author m) bot_user = false
        /\ deleted_reference m = false.
Proof.
  unfold arrivals. rewrite list_elem_of_In, in_flat_map. split.
  - intros ([m' d|me o] & Ha & Hm); [|destruct Hm].
    apply list_elem_of_In in Ha.
    destruct (user_eqb (author m') bot_user) eqn:Hself; [destruct Hm|].
    destruct (deleted_reference m') eqn:Hdel; [destruct Hm|].
    destruct Hm as [<-|[]]. eauto.
  - intros (d & Ha & Hself & Hdel). exists (Deliver m d).
    split; [now apply list_elem_of_In|]. rewrite Hself, Hdel. now left.
Qed.

(** What [on_message] appends to a queue, and that nothing else does. *)
Lemma resume_enqueues (p p' : Point) (o : Outcome) (st st1 : State) (c : Z)
    (m : Message) :
  resume p o st = Some (st1, p') ->
  m ∈ enqueued c (log st1) ->
  m ∈ enqueued c (log st)
  \/ exists draw, p = AtRecordUser m draw
       /\ should_process bot_user m draw = true /\ channel m = c.
Proof.
  intros H. resume_points H; simpl; rewrite ?enqueued_snoc, ?app_nil_r;
    auto;
    (destruct (Z.eqb_spec (channel message) c) as [<-|Hne];
     [|rewrite app_nil_r; auto]);
    intros Hm; apply elem_of_app in Hm as [Hm|Hm]; auto;
    apply list_elem_of_singleton in Hm as ->; right; eauto.
Qed.

(** No task resumed is back at the start of [on_message]. *)
Lemma resume_not_arriving (p p' : Point) (o : Outcome) (st st1 : State)
    (j : nat) (m : Message) (draw : Q) (me : nat) :
  resume p o st = Some (st1, p') ->
  (<[me := p']> (tasks st1)) !! j = Some (AtRecordUser m draw) ->
  tasks st !! j = Some (AtRecordUser m draw).
Proof.
  intros H Hj.
  assert (Hp' : p' <> AtRecordUser m draw)
    by (clear Hj; resume_points H; discriminate).
  assert (Hold : tasks st1 !! j = Some (AtRecordUser m draw)).
  { destruct (decide (j = me)) as [->|Hne].
    - apply list_lookup_insert_Some in Hj as [(_ & ? & _)|[? _]]; congruence.
    - now rewrite list_lookup_insert_ne in Hj by congruence. }
  clear Hj. destruct (resume_tasks _ _ _ _ _ _ H) as (extra & Htasks & Hextra).
  rewrite Htasks in Hold.
  destruct (decide (j < length (tasks st))%nat) as [Hlt|Hge].
  - now rewrite lookup_app_l in Hold.
  - rewrite lookup_app_r in Hold by lia. exfalso.
    clear Hextra. revert Hold. generalize (j - length (tasks st))%nat as k.
    resume_points H; simpl in Htasks;
      try (apply app_inv_head in Htasks; subst extra);
      try (rewrite <- (app_nil_r (tasks _)) in Htasks at 1;
           apply app_inv_head in Htasks; subst extra);
      intros [|[|k]]; discriminate.
Qed.

Lemma traced_run (schedule : list Action) (st : State) :
  run initial schedule = Some st -> traced bot_user schedule st.
Proof.
  revert st. induction schedule as [|a schedule IH] using rev_ind; intros st Hrun.
  - injection Hrun as <-. split.
    + intros i m draw Hi. destruct i; discriminate.
    + intros c m Hm. now apply not_elem_of_nil in Hm.
  - rewrite run_snoc in Hrun.
    destruct (run initial schedule) as [st0|]; [|discriminate].
    destruct (IH st0 eq_refl) as [Htasks Hlog]. clear IH.
    assert (Hmono : forall x, x ∈ schedule -> x ∈ schedule ++ [a])
      by (intros x Hx; apply elem_of_app; now left).
    destruct a as [message draw|me o]; simpl in Hrun.
    + injection Hrun as <-. unfold deliver.
      assert (Hsame : traced bot_user (schedule ++ [Deliver message draw]) st0).
      { split.
        - intros i m d Hi. destruct (Htasks i m d Hi) as (? & ? & ?). auto.
        - intros c m Hm. destruct (Hlog c m Hm) as (? & ? & ? & d & ? & ?).
          eauto 10. }
      destruct (user_eqb (author message) bot_user) eqn:Hself; [exact Hsame|].
      destruct (deleted_reference message) eqn:Hdel; [exact Hsame|].
      split; simpl.
      * intros i m d Hi.
        destruct (decide (i < length (tasks st0))%nat) as [Hlt|Hge].
        -- rewrite lookup_app_l in Hi by lia.
           destruct (Htasks i m d Hi) as (? & ? & ?). auto.
        -- rewrite lookup_app_r in Hi by lia.
           destruct (i - length (tasks st0))%nat as [|k];
             [|destruct k; discriminate].
           injection Hi as <- <-. split; [|split; [exact Hself|exact Hdel]].
           apply elem_of_app. right. now left.
      * intros c m Hm. rewrite enqueued_snoc, app_nil_r in Hm.
        destruct (Hlog c m Hm) as (? & ? & ? & d & ? & ?). eauto 10.
    + destruct (tasks st0 !! me) as [p|] eqn:Hme; [|discriminate].
      destruct (resume p o st0) as [[st1 p']|] eqn:Hres; [|discriminate].
      injection Hrun as <-. split; simpl.
      * intros i m d Hi.
        apply (resume_not_arriving _ _ _ _ _ _ _ _ _ Hres) in Hi.
        destruct (Htasks i m d Hi) as (? & ? & ?). auto.
      * intros c m Hm.
        destruct (resume_enqueues _ _ _ _ _ _ _ Hres Hm)
          as [Hold|(d & -> & Hshould & Hc)].
        -- destruct (Hlog c m Hold) as (? & ? & ? & d & ? & ?). eauto 10.
        -- destruct (Htasks me m d Hme) as (Hin & Hself & Hdel). eauto 10.
Qed.

End Bot.

End ArrivalFacts.


Module ArrivalExtras.
Import PyStr Chunking ChunkingFacts MetaLLM DispatcherSpec DispatcherFacts
       DispatcherTrace TraceFacts WorkerFacts ArrivalFacts.

(** X20. Every message delivered to [on_message] that is not the bot's
    own and does not reply to a deleted message is posted to the history
    service exactly once, in the order of arrival and under its channel,
    with the record [record_user_message] builds (role user when the
    author is a bot, human otherwise), whether or not the message is then
    queued.  Nothing is posted for the bot's own messages on arrival, nor
    for a reply to a deleted message, for which [record_user_message]
    raises before it posts; and no other record is posted with a role other
    than assistant. *)
Theorem every_arrival_is_recorded_once (bot_user : User)
    (schedule : list Action) (st : State) :
  run bot_user initial schedule = Some st ->
  user_records (log st)
  = map (fun m => (channel m, user_message m)) (arrivals bot_user schedule)
  /\ forall m,
       m ∈ arrivals bot_user schedule
       <-> exists draw, Deliver m draw ∈ schedule
             /\ user_eqb (author m) bot_user = false
             /\ deleted_reference m = false.
Proof.
  intros Hrun. split; [|intros m; apply arrivals_delivered].
  now rewrite (run_user_records bot_user schedule initial st Hrun).
Qed.

Lemma every_arrival_is_recorded_once_witness :
  exists st, run meta initial reply_to_deleted = Some st
    /\ user_records (log st) = [(7, user_message hello)].
Proof.
  destruct (run meta initial reply_to_deleted) as [st|] eqn:Hrun;
    [|vm_compute in Hrun; discriminate].
  exists st. split; [reflexivity|].
  rewrite (proj1 (every_arrival_is_recorded_once meta reply_to_deleted st Hrun)).
  reflexivity.
Defined.

(** X21. Every message in a queue got there through [on_message]: it was
    delivered, its author is not the bot, it is queued under the channel
    it was posted in, it does not reply to a deleted message, and
    [should_process] held of it with the number that was drawn for it. *)
Theorem queued_messages_were_delivered (bot_user : User)
    (schedule : list Action) (st : State) (c : Z) (m : Message) :
  run bot_user initial schedule = Some st ->
  m ∈ enqueued c (log st) ->
  channel m = c /\ user_eqb (author m) bot_user = false
  /\ deleted_reference m = false
  /\ exists draw, Deliver m draw ∈ schedule
       /\ should_process bot_user m draw = true.
Proof.
  intros Hrun Hm. exact (proj2 (traced_run bot_user schedule st Hrun) c m Hm).
Qed.

Lemma queued_messages_were_delivered_witness :
  exists st, run meta initial picked_at_random = Some st
    /\ hello ∈ enqueued 7 (log st)
    /\ exists draw, Deliver hello draw ∈ picked_at_random
         /\ should_process meta hello draw = true.
Proof.
  destruct (run meta initial picked_at_random) as [st|] eqn:Hrun;
    [|vm_compute in Hrun; discriminate].
  assert (Hst : Some st = run meta initial picked_at_random) by now rewrite Hrun.
  assert (Hin : hello ∈ enqueued 7 (log st)).
  { vm_compute in Hst. injection Hst as ->. now left. }
  exists st. split; [reflexivity|]. split; [exact Hin|].
  exact (proj2 (proj2 (proj2 (queued_messages_were_delivered meta
                                picked_at_random st 7 hello Hrun Hin)))).
Defined.

End ArrivalExtras.


Module RoutingFacts.
Import PyStr Chunking ChunkingFacts MetaLLM DispatcherSpec DispatcherFacts
       DispatcherTrace TraceFacts WorkerFacts ArrivalFacts.

Section Bot.
Variable bot_user : User.

Abbreviation relevant := (relevant bot_user).
Abbreviation resume := (resume bot_user).
Abbreviation step := (step bot_user).
Abbreviation run := (run bot_user).

Lemma filter_placed (c : Z) (l : list Message) (msg : Message)
    (rest : list Message) :
  Forall (fun m => channel m = c) l ->
  List.filter relevant l = msg :: rest ->
  Forall (fun m => channel m = c) (msg :: rest).
Proof.
  intros Hl Hf. rewrite <- Hf. apply Forall_forall. intros m Hm.
  apply list_elem_of_In, filter_In in Hm as [Hm _].
  rewrite Forall_forall in Hl. apply Hl. now apply list_elem_of_In.
Qed.

Lemma resume_routed (p p' : Point) (o : Outcome) (st st1 : State) :
  resume p o st = Some (st1, p') ->
  (forall c b, message_queue st !! c = Some b -> Forall (fun m => channel m = c) b) ->
  (forall c, channel_of p = Some c ->
     Forall (fun m => channel m = c) (current p ++ rest_of p)) ->
  (forall c b, message_queue st1 !! c = Some b -> Forall (fun m => channel m = c) b)
  /\ (forall c, channel_of p' = Some c ->
        Forall (fun m => channel m = c) (current p' ++ rest_of p')).
Proof.
  intros H HQ HP.
  resume_points H; simpl in *;
    (split; [intros c b Hb|intros c Hc; simplify_eq]);
    try (specialize (HP _ eq_refl));
    repeat match goal with
           | G : Forall _ (_ :: _) |- _ => apply Forall_cons in G; destruct G
           end;
    try (apply lookup_delete_Some in Hb as [? Hb]);
    eauto using filter_placed.
  - apply lookup_insert_Some in Hb as [[<- <-]|[Hne Hb]]; [|eauto].
    match goal with G : message_queue st !! _ = Some _ |- _ => rewrite G end.
    simpl. apply Forall_app. split; [eauto|repeat constructor].
  - apply lookup_insert_Some in Hb as [[<- <-]|[Hne Hb]].
    + rewrite lookup_insert_eq. repeat constructor.
    + rewrite lookup_insert_ne in Hb by exact Hne. eauto.
Qed.

(** Every reachable state is routed. *)
Lemma routed_run (schedule : list Action) (st st' : State) :
  routed st -> run st schedule = Some st' -> routed st'.
Proof.
  revert st. induction schedule as [|a schedule IH]; intros st Hst Hrun;
    simpl in Hrun.
  - now injection Hrun as <-.
  - destruct (step st a) as [st1|] eqn:Hstep; [|discriminate].
    apply (IH st1); [|exact Hrun]. clear IH Hrun.
    destruct Hst as [HQ HT].
    destruct a as [message draw|me o]; simpl in Hstep.
    + injection Hstep as <-. unfold deliver.
      destruct (user_eqb (author message) bot_user); [now split|].
      destruct (deleted_reference message); [now split|].
      split; [exact HQ|]. simpl. intros i p c Hi Hp.
      apply (HT i p c); [|exact Hp].
      destruct (decide (i < length (tasks st))%nat) as [Hlt|Hge].
      * now rewrite lookup_app_l in Hi.
      * rewrite lookup_app_r in Hi by lia.
        destruct (i - length (tasks st))%nat as [|k];
          [injection Hi as <-; discriminate Hp|destruct k; discriminate Hi].
    + destruct (tasks st !! me) as [p|] eqn:Hme; [|discriminate].
      destruct (resume p o st) as [[st2 p']|] eqn:Hres; [|discriminate].
      injection Hstep as <-.
      destruct (resume_routed _ _ _ _ _ Hres HQ (fun c => HT me p c Hme))
        as [HQ' HP'].
      split; [exact HQ'|]. simpl. intros i q c Hi Hq.
      destruct (resume_tasks _ _ _ _ _ _ Hres) as (extra & Htasks & Hextra).
      rewrite Htasks in Hi.
      destruct (lookup_updated _ _ _ _ _ _ _ Hextra Hi Hq) as [[_ ->]|[_ Hold]].
      * now apply HP'.
      * now apply (HT i q c).
Qed.

Lemma routed_initial : routed initial.
Proof.
  split.
  - intros c b Hb. simpl in Hb. now rewrite lookup_empty in Hb.
  - intros i p c Hi. destruct i; discriminate.
Qed.

(** What a worker lets be seen on Discord is seen in the channel of the
    message it is at. *)
Lemma resume_addressed (p p' : Point) (o : Outcome) (st st1 : State) (c : Z) :
  resume p o st = Some (st1, p') ->
  channel_of p = Some c ->
  Forall (fun m => channel m = c) (current p ++ rest_of p) ->
  exists events, log st1 = log st ++ events
    /\ Forall (fun e => forall ch, addressed e = Some ch -> ch = c) events.
Proof.
  intros H Hp HP.
  resume_points H; simpl in *; simplify_eq;
    repeat match goal with
           | G : Forall _ (_ :: _) |- _ => apply Forall_cons in G; destruct G
           end;
    rewrite <- ?app_assoc;
    first [ eexists; split; [reflexivity|]
          | exists []; split; [symmetry; apply app_nil_r|] ];
    repeat constructor; simpl; intros; simplify_eq; auto.
Qed.

Lemma not_in_difference (P X : gset Z) (c : Z) : c ∉ P -> c ∉ P ∖ X.
Proof. intros H Hc. apply elem_of_difference in Hc as [Hc _]. now apply H. Qed.

Lemma not_in_union_singleton (P : gset Z) (c c0 : Z) :
  c ∉ P -> c0 <> c -> c ∉ P ∪ {[c0]}.
Proof.
  intros H Hne Hc. apply elem_of_union in Hc as [Hc|Hc]; [now apply H|].
  apply elem_of_singleton in Hc. congruence.
Qed.

Ltac settle_stranded :=
  repeat split; eauto; try congruence; try discriminate;
  try (exists []; now rewrite app_nil_r);
  try (exists []; split; [now rewrite app_nil_r|constructor]);
  try (apply not_in_difference);
  try (apply not_in_union_singleton; [|congruence]);
  try assumption.

(** A queue that nobody will take stays that way. *)
Lemma resume_stranded (p p' : Point) (o : Outcome) (st st1 : State) (c : Z) :
  resume p o st = Some (st1, p') ->
  channel_of p <> Some c -> p <> Scheduled c ->
  is_Some (message_queue st !! c) -> c ∉ processing_channels st ->
  (exists later, pending c st1 = pending c st ++ later)
  /\ is_Some (message_queue st1 !! c)
  /\ (c ∉ processing_channels st1)
  /\ channel_of p' <> Some c /\ p' <> Scheduled c
  /\ (exists extra, tasks st1 = tasks st ++ extra
        /\ Forall (fun q => channel_of q = None /\ q <> Scheduled c) extra)
  /\ batches c (log st1) = batches c (log st)
  /\ handed c (log st1) = handed c (log st).
Proof.
  intros H Hp Hs [b Hb] HP. unfold pending, handed.
  resume_points H; simpl in *.
  2: { rewrite batches_snoc, flat_map_snoc, !app_nil_r.
       destruct (decide (channel message = c)) as [->|Hne].
       - rewrite lookup_insert_eq, Hb. simpl. settle_stranded.
       - rewrite lookup_insert_ne, Hb by exact Hne. simpl. settle_stranded. }
  2: { rewrite batches_snoc, flat_map_snoc, !app_nil_r.
       assert (Hne : channel message <> c) by congruence.
       rewrite !lookup_insert_ne, Hb by exact Hne. simpl. settle_stranded.
       exists [Scheduled (channel message)]. split; [reflexivity|].
       repeat constructor. congruence. }
  all: rewrite ?batches_snoc, ?flat_map_snoc; simpl;
    repeat match goal with
           | |- context [?a =? ?b] =>
               destruct (Z.eqb_spec a b); subst; try congruence
           end;
    rewrite ?app_nil_r;
    rewrite ?lookup_delete_ne by congruence;
    settle_stranded.
Qed.

Lemma stranded_step (st st' : State) (a : Action) (c : Z) :
  exclusive (processing_channels st) (tasks st) -> stranded c st ->
  step st a = Some st' ->
  stranded c st'
  /\ batches c (log st') = batches c (log st)
  /\ handed c (log st') = handed c (log st)
  /\ exists later, pending c st' = pending c st ++ later.
Proof.
  intros Hex (Hq & HP & Hs) Hstep.
  destruct a as [message draw|me o]; simpl in Hstep.
  - injection Hstep as <-. unfold deliver, stranded, pending, handed.
    destruct (user_eqb (author message) bot_user);
      [|destruct (deleted_reference message)].
    + repeat split; auto. exists []. now rewrite app_nil_r.
    + repeat split; auto. exists []. now rewrite app_nil_r.
    + simpl. rewrite batches_snoc, flat_map_snoc, !app_nil_r.
      repeat split; auto; [|exists []; now rewrite app_nil_r].
      intros i Hi. destruct (decide (i < length (tasks st))%nat) as [Hlt|Hge].
      * rewrite lookup_app_l in Hi by lia. now apply Hs in Hi.
      * rewrite lookup_app_r in Hi by lia.
        destruct (i - length (tasks st))%nat as [|k];
          [discriminate|destruct k; discriminate].
  - destruct (tasks st !! me) as [p|] eqn:Hme; [|discriminate].
    destruct (resume p o st) as [[st1 p']|] eqn:Hres; [|discriminate].
    injection Hstep as <-.
    assert (Hp : channel_of p <> Some c).
    { intros Hp. apply HP, (Hex c). eauto. }
    assert (Hp0 : p <> Scheduled c) by (intros ->; now apply Hs in Hme).
    destruct (resume_stranded _ _ _ _ _ c Hres Hp Hp0 Hq HP)
      as (Hlater & Hq' & HP' & Hp' & Hp0' & (extra & Htasks & Hextra) & Hb & Hh).
    split; [|auto]. split; [exact Hq'|]. split; [exact HP'|]. simpl.
    intros i Hi. rewrite Htasks in Hi.
    destruct (decide (i = me)) as [->|Hne].
    + apply list_lookup_insert_Some in Hi as [(_ & ? & _)|[? _]]; congruence.
    + rewrite list_lookup_insert_ne in Hi by congruence.
      destruct (decide (i < length (tasks st))%nat) as [Hlt|Hge].
      * rewrite lookup_app_l in Hi by lia. now apply Hs in Hi.
      * rewrite lookup_app_r in Hi by lia.
        apply list_elem_of_lookup_2 in Hi. rewrite Forall_forall in Hextra.
        destruct (Hextra _ Hi) as [_ Hno]. now apply Hno.
Qed.

Lemma stranded_run (more : list Action) (st st' : State) (c : Z) :
  exclusive (processing_channels st) (tasks st) -> stranded c st ->
  run st more = Some st' ->
  stranded c st'
  /\ batches c (log st') = batches c (log st)
  /\ handed c (log st') = handed c (log st)
  /\ exists later, pending c st' = pending c st ++ later.
Proof.
  revert st. induction more as [|a more IH]; intros st Hex Hst Hrun;
    simpl in Hrun.
  - injection Hrun as <-. repeat split; try apply Hst.
    exists []. now rewrite app_nil_r.
  - destruct (step st a) as [st1|] eqn:Hstep; [|discriminate].
    destruct (stranded_step _ _ _ _ Hex Hst Hstep) as (Hst1 & Hb & Hh & l1 & Hl1).
    destruct (IH st1 (exclusive_step _ _ _ _ Hex Hstep) Hst1 Hrun)
      as (Hst' & Hb' & Hh' & l2 & Hl2).
    split; [exact Hst'|]. split; [congruence|]. split; [congruence|].
    exists (l1 ++ l2). rewrite Hl2, Hl1. now rewrite app_assoc.
Qed.

End Bot.

End RoutingFacts.


Module RoutingExtras.
Import PyStr Chunking ChunkingFacts MetaLLM DispatcherSpec DispatcherFacts
       DispatcherTrace TraceFacts WorkerFacts ArrivalFacts RoutingFacts.

(** X22. In every state the event loop can reach, the messages in the
    queue of a channel, and those a worker of the channel is at or has
    still to visit, were posted in that channel.  So whatever a worker of a
    channel lets be seen on Discord when it is resumed (the typing
    indicator, the chunks it sends, the apology it replies with) is seen in
    its own channel. *)
Theorem worker_stays_in_its_channel (bot_user : User) (schedule : list Action)
    (st : State) :
  run bot_user initial schedule = Some st ->
  routed st
  /\ forall (i : nat) (p : Point) (c : Z) (o : Outcome) (st' : State)
       (events : list Event),
       tasks st !! i = Some p -> channel_of p = Some c ->
       step bot_user st (Resume i o) = Some st' ->
       log st' = log st ++ events ->
       Forall (fun e => forall ch, addressed e = Some ch -> ch = c) events.
Proof.
  intros Hrun.
  pose proof (routed_run bot_user schedule initial st routed_initial Hrun) as Hr.
  split; [exact Hr|]. intros i p c o st' events Hi Hp Hstep Hlog.
  simpl in Hstep. rewrite Hi in Hstep.
  destruct (resume bot_user p o st) as [[st1 p']|] eqn:Hres; [|discriminate].
  injection Hstep as <-. simpl in Hlog.
  destruct (resume_addressed bot_user _ _ _ _ _ c Hres Hp (proj2 Hr i p c Hi Hp))
    as (events' & Hlog' & Hall).
  rewrite Hlog' in Hlog. apply app_inv_head in Hlog. now subst events'.
Qed.

Lemma worker_stays_in_its_channel_witness :
  exists st, run meta initial overlapping = Some st /\ routed st.
Proof.
  destruct (run meta initial overlapping) as [st|] eqn:Hrun;
    [|vm_compute in Hrun; discriminate].
  exists st. split; [reflexivity|].
  exact (proj1 (worker_stays_in_its_channel meta overlapping st Hrun)).
Defined.

(** X23. In every state the event loop can reach, also after awaited calls
    have raised, [processing_channels] holds exactly the channels that
    have a worker inside the [try] block: the [finally] clause gives the
    channel back however the worker ends.  Once all tasks are done the set
    is empty. *)
Theorem processing_channels_are_the_channels_at_work (bot_user : User)
    (schedule : list Action) (st : State) :
  run bot_user initial schedule = Some st ->
  (forall c, c ∈ processing_channels st
             <-> exists i p, tasks st !! i = Some p /\ channel_of p = Some c)
  /\ (quiescent st -> processing_channels st = ∅).
Proof.
  intros Hrun.
  pose proof (exclusive_run bot_user schedule initial st exclusive_initial Hrun)
    as Hex.
  split; [intros c; apply (Hex c)|].
  intros Hq. apply elem_of_equiv_empty_L. intros c.
  now apply quiescent_no_worker.
Qed.

Lemma processing_channels_are_the_channels_at_work_witness :
  exists st, run meta initial wedged = Some st
    /\ quiescent st /\ processing_channels st = ∅.
Proof.
  destruct (run meta initial wedged) as [st|] eqn:Hrun;
    [|vm_compute in Hrun; discriminate].
  assert (Hst : Some st = run meta initial wedged) by now rewrite Hrun.
  assert (Hq : quiescent st).
  { vm_compute in Hst. injection Hst as ->. repeat constructor. }
  exists st. split; [reflexivity|]. split; [exact Hq|].
  exact (proj2 (processing_channels_are_the_channels_at_work meta wedged st Hrun) Hq).
Defined.

(** X24. A queue that nobody will take is never taken.  When, in a state
    the event loop can reach, a channel has an entry in [message_queue]
    while no worker is inside the loop for it and no task is scheduled for
    it (the state a worker leaves behind when it ends through its [except]
    clause with messages pending), then whatever happens afterwards the
    entry stays: [on_message] appends to it and schedules no task, no batch
    is popped for the channel and nothing of it is handed to context
    assembly. *)
Theorem stranded_queue_is_never_taken (bot_user : User)
    (schedule more : list Action) (st st' : State) (c : Z) :
  run bot_user initial schedule = Some st -> stranded c st ->
  run bot_user st more = Some st' ->
  stranded c st'
  /\ batches c (log st') = batches c (log st)
  /\ handed c (log st') = handed c (log st)
  /\ exists later, pending c st' = pending c st ++ later.
Proof.
  intros Hrun Hst Hmore.
  pose proof (exclusive_run bot_user schedule initial st exclusive_initial Hrun)
    as Hex.
  exact (stranded_run bot_user more st st' c Hex Hst Hmore).
Qed.

Lemma stranded_queue_is_never_taken_witness :
  exists st st',
    run meta initial wedge = Some st /\ stranded 7 st
    /\ run meta st afterwards = Some st'
    /\ pending 7 st = [m2] /\ pending 7 st' = [m2; m3]
    /\ stranded 7 st' /\ batches 7 (log st') = batches 7 (log st).
Proof.
  destruct (run meta initial wedge) as [st|] eqn:Hrun;
    [|vm_compute in Hrun; discriminate].
  assert (Hst : Some st = run meta initial wedge) by now rewrite Hrun.
  assert (Hs : stranded 7 st).
  { vm_compute in Hst. injection Hst as ->. split; [|split].
    - eexists. vm_compute. reflexivity.
    - intros H. pose proof (bool_decide_eq_true_2 _ H) as Hd.
      vm_compute in Hd. discriminate.
    - intros i. do 4 (destruct i as [|i]; [discriminate|]).
      destruct i; discriminate. }
  destruct (run meta st afterwards) as [st'|] eqn:Hmore;
    [|vm_compute in Hst; injection Hst as ->;
      vm_compute in Hmore; discriminate].
  exists st, st'. split; [reflexivity|]. split; [exact Hs|].
  split; [exact Hmore|].
  assert (Hst' : Some st' = run meta st afterwards) by now rewrite Hmore.
  split; [vm_compute in Hst; injection Hst as ->; reflexivity|].
  split.
  - clear Hs Hmore Hrun. vm_compute in Hst. injection Hst as ->.
    vm_compute in Hst'. injection Hst' as ->. reflexivity.
  - destruct (stranded_queue_is_never_taken meta wedge afterwards st st' 7
                Hrun Hs Hmore) as (H1 & H2 & _).
    split; [exact H1|exact H2].
Defined.

End RoutingExtras.
